(** * WealthWise: dashboard aggregation, goal pacing and currency conversion

    A shallow embedding of the computational core of the WealthWise server
    ([server/routes.ts], handler of [GET /api/dashboard]; the currency helpers,
    [convertCurrency]; [shared/schema.ts], [CURRENCY_OPTIONS] and
    [EXPENSE_CATEGORIES]).

    JavaScript numbers are IEEE 754 binary64 values.  They are modelled by
    Rocq's primitive [float]s, whose operations are the binary64 operations
    with round-to-nearest-even, so that [+], [-], [*], [/], [<] and [<=]
    below are the operators the source runs.  [Math.floor], [Math.ceil],
    [Math.round], [Math.min], [Math.max], [Number.prototype.toFixed] and
    [parseFloat] are written out from their ECMAScript definitions. *)

From Stdlib Require Import ZArith List Bool Lia String Ascii DecimalString.
From Stdlib Require Import Sorted Permutation.
From Stdlib Require Import Uint63 Floats Reals Lra.
Import ListNotations.

Set Warnings "-inexact-float".

Local Open Scope float_scope.

(** ** JavaScript numbers *)

Module JS.

Definition number := float.

(** [ToNumber] of an integer literal or of an integral time value; exact
    for [|z| < 2^53]. *)
Definition of_int (z : Z) : number :=
  match z with
  | Z0 => 0
  | Zpos _ => of_uint63 (Uint63.of_Z z)
  | Zneg p => - of_uint63 (Uint63.of_Z (Zpos p))
  end.

(** [ToBoolean] on numbers: [NaN], [+0] and [-0] are falsy. *)
Definition ToBoolean (x : number) : bool := negb (is_nan x || is_zero x).

(** [x || d] on numbers. *)
Definition or_else (x d : number) : number := if ToBoolean x then x else d.

(** The integer part [floor (m * 2^e)] of a positive dyadic, [e < 0], and
    whether the dyadic is that integer. *)
Definition int_part (m : positive) (e : Z) : Z := Z.shiftr (Zpos m) (- e).
Definition is_integral (m : positive) (e : Z) : bool :=
  (Z.shiftl (int_part m e) (- e) =? Zpos m)%Z.

(** [Math.floor]: the greatest integral number not above [x]; [NaN], the
    infinities and both zeros are returned unchanged. *)
Definition Math_floor (x : number) : number :=
  match Prim2SF x with
  | S754_finite s m e =>
      if (0 <=? e)%Z then x
      else if is_integral m e then x
      else if s then of_int (- (int_part m e + 1))
      else of_int (int_part m e)
  | _ => x
  end.

(** [Math.ceil]: the least integral number not below [x]; a result that
    rounds a negative number up to zero is [-0]. *)
Definition Math_ceil (x : number) : number :=
  match Prim2SF x with
  | S754_finite s m e =>
      if (0 <=? e)%Z then x
      else if is_integral m e then x
      else if s then - of_int (int_part m e)
      else of_int (int_part m e + 1)
  | _ => x
  end.

(** [Math.round]: the integral number closest to [x], ties towards
    [+Infinity]; a negative [x >= -0.5] gives [-0]. *)
Definition Math_round (x : number) : number :=
  match Prim2SF x with
  | S754_finite s m e =>
      if (0 <=? e)%Z then x
      else if is_integral m e then x
      else
        let half := Z.shiftl 1 (- e - 1) in
        if s then - of_int (Z.shiftr (Zpos m + half - 1) (- e))
        else of_int (Z.shiftr (Zpos m + half) (- e))
  | _ => x
  end.

(** [Math.min] and [Math.max] of two numbers: [NaN] when either is [NaN];
    [-0] is below [+0]. *)
Definition Math_min (x y : number) : number :=
  if is_nan x || is_nan y then nan
  else if x <? y then x
  else if y <? x then y
  else if get_sign x then x else y.

Definition Math_max (x y : number) : number :=
  if is_nan x || is_nan y then nan
  else if x <? y then y
  else if y <? x then x
  else if get_sign x then y else x.

(** [x.toFixed(2)] picks the integer [n] for which [n / 100 - x] is as
    close to zero as possible, the larger one on a tie (computed on the
    magnitude, the sign being printed apart). [hundredths m e] is that [n]
    for the magnitude [m * 2^e]. *)
Definition hundredths (m : positive) (e : Z) : Z :=
  if (0 <=? e)%Z then Z.shiftl (100 * Zpos m) e
  else Z.shiftr (200 * Zpos m + Z.shiftl 1 (- e)) (1 - e).

(** [parseFloat] of the decimal numeral [n / 100] ([n >= 0]): the binary64
    value nearest to it. Below [2^53] both [n] and [100] are binary64
    values and the correctly rounded quotient is that value. *)
Definition parse_hundredths (n : Z) : number :=
  if (n <? 2 ^ 53)%Z then of_int n / 100
  else SF2Prim (SF64div (S754_finite false (Z.to_pos n) 0)
                        (S754_finite false 100 0)).

(** [parseFloat(x.toFixed(2))]. From [1e21] on, and for [NaN] and the
    infinities, [toFixed] prints [ToString(x)], which [parseFloat] reads
    back as [x]; [-0] prints as ["0.00"]. *)
Definition parseFloat_toFixed2 (x : number) : number :=
  match Prim2SF x with
  | S754_finite s m e =>
      if 1e21 <=? abs x then x
      else
        let r := parse_hundredths (hundredths m e) in
        if s then - r else r
  | S754_zero _ => 0
  | _ => x
  end.

(** Completion of an evaluation: a value, or a thrown [TypeError]. *)
Inductive completion (A : Type) : Type :=
| Normal (a : A)
| Throw.
Arguments Normal {A} a.
Arguments Throw {A}.

Definition bind {A B} (c : completion A) (k : A -> completion B) : completion B :=
  match c with
  | Normal a => k a
  | Throw => Throw
  end.

(** Member access [o.f] on a value that may be [undefined] or [null]. *)
Definition member {A B} (o : option A) (f : A -> B) : completion B :=
  match o with
  | Some a => Normal (f a)
  | None => Throw
  end.

(** Optional chaining [o?.f]. *)
Definition opt_member {A B} (o : option A) (f : A -> B) : option B :=
  match o with
  | Some a => Some (f a)
  | None => None
  end.

(** [ToBoolean] on an object reference or [undefined]. *)
Definition is_object {A} (o : option A) : bool :=
  match o with Some _ => true | None => false end.

End JS.

Notation "x <- c ;; k" := (JS.bind c (fun x => k))
  (at level 61, c at next level, right associativity).

(** ** shared/schema.ts *)

Module Schema.

(** [EXPENSE_CATEGORIES]: the closed vocabulary of expense categories. None
    of the nine names is an array index or a member of [Object.prototype],
    so a plain object keyed by them enumerates its keys in insertion
    order. *)
Inductive Category : Set :=
| Food | Rent | Utilities | Transportation | Entertainment
| Shopping | Health | Education | Other.

Definition EXPENSE_CATEGORIES : list Category :=
  [Food; Rent; Utilities; Transportation; Entertainment;
   Shopping; Health; Education; Other].

Definition category_name (c : Category) : string :=
  match c with
  | Food => "Food" | Rent => "Rent" | Utilities => "Utilities"
  | Transportation => "Transportation" | Entertainment => "Entertainment"
  | Shopping => "Shopping" | Health => "Health" | Education => "Education"
  | Other => "Other"
  end%string.

Definition category_eqb (a b : Category) : bool :=
  match a, b with
  | Food, Food | Rent, Rent | Utilities, Utilities
  | Transportation, Transportation | Entertainment, Entertainment
  | Shopping, Shopping | Health, Health | Education, Education
  | Other, Other => true
  | _, _ => false
  end.

(** [Currency = keyof typeof CURRENCY_OPTIONS]. *)
Inductive Currency : Set := USD | EUR | LKR.

Definition currency_eqb (a b : Currency) : bool :=
  match a, b with
  | USD, USD | EUR, EUR | LKR, LKR => true
  | _, _ => false
  end.

(** [CURRENCY_OPTIONS[from].conversionRate[to]]. *)
Definition conversionRate (from to : Currency) : JS.number :=
  match from, to with
  | USD, USD => 1    | USD, EUR => 0.95    | USD, LKR => 300
  | EUR, USD => 1.05 | EUR, EUR => 1       | EUR, LKR => 330
  | LKR, USD => 1 / 300 | LKR, EUR => 1 / 330 | LKR, LKR => 1
  end.

(** A [Date] holding a valid time value: milliseconds since the epoch. *)
Definition Date := Z.

(** The largest time value of a [Date], 8.64e15 ms. *)
Definition max_time : Z := 8640000000000000.
Definition valid_time (t : Date) : Prop := (- max_time <= t <= max_time)%Z.

Definition getTime (d : Date) : JS.number := JS.of_int d.

Record Income := {
  income_id : Z;
  income_userId : Z;
  income_amount : JS.number;
  income_currency : Currency;
  updatedAt : Date
}.

Record Expense := {
  expense_id : Z;
  expense_userId : Z;
  amount : JS.number;
  category : Category;
  date : Date;
  expense_currency : Currency;
  note : option string
}.

Record SavingsGoal := {
  goal_id : Z;
  goal_userId : Z;
  name : option string;
  targetAmount : JS.number;
  deadline : Date;
  goal_currency : Currency
}.

End Schema.

(** ** The currency helpers ([convertCurrency], found in the sources after
    [server/storage.ts]) *)

Module CurrencyLib.
Import Schema.

Definition convertCurrency (amount : JS.number) (fromCurrency toCurrency : Currency)
  : JS.number :=
  if currency_eqb fromCurrency toCurrency then amount
  else JS.parseFloat_toFixed2 (amount * conversionRate fromCurrency toCurrency).

End CurrencyLib.

(** ** server/routes.ts: GET /api/dashboard

    The handler after its four record-store reads: [income], [expenses] (the
    selected month), [previousMonthExpenses] and [savingsGoal]; [now] is the
    time value of [new Date()] taken inside the goal block and [month] the
    selected month. *)

Module Dashboard.
Import Schema.

(** A plain object with category keys and number values, as the list of
    its own properties in insertion order. *)
Definition Obj := list (Category * JS.number).

Fixpoint obj_get (o : Obj) (k : Category) : option JS.number :=
  match o with
  | [] => None
  | (k', v) :: o' => if category_eqb k' k then Some v else obj_get o' k
  end.

(** Assignment [o[k] = v]: an existing property keeps its place, a new one
    is added last. *)
Fixpoint obj_set (o : Obj) (k : Category) (v : JS.number) : Obj :=
  match o with
  | [] => [(k, v)]
  | (k', v') :: o' =>
      if category_eqb k' k then (k', v) :: o' else (k', v') :: obj_set o' k v
  end.

(** [!acc[category]]: the property is missing, or holds [0] or [NaN]. *)
Definition falsy_entry (o : Obj) (k : Category) : bool :=
  match obj_get o k with
  | None => true
  | Some v => negb (JS.ToBoolean v)
  end.

(** The value read by [acc[category] += ...] once the property exists. *)
Definition obj_read (o : Obj) (k : Category) : JS.number :=
  match obj_get o k with
  | Some v => v
  | None => nan
  end.

(** [expenses.reduce((sum, expense) => sum + expense.amount, 0)]. *)
Definition sumAmounts (expenses : list Expense) : JS.number :=
  fold_left (fun sum expense => sum + amount expense) expenses 0.

Definition totalExpenses := sumAmounts.
Definition previousTotalExpenses := sumAmounts.

(** [income?.amount || 0]. *)
Definition incomeAmount (income : option Income) : JS.number :=
  match JS.opt_member income income_amount with
  | Some a => JS.or_else a 0
  | None => 0
  end.

Definition netSavings (income : option Income) (expenses : list Expense) : JS.number :=
  incomeAmount income - totalExpenses expenses.

Definition previousNetSavings (income : option Income)
    (previousMonthExpenses : list Expense) : JS.number :=
  incomeAmount income - previousTotalExpenses previousMonthExpenses.

Definition savingsTrend (income : option Income)
    (expenses previousMonthExpenses : list Expense) : JS.number :=
  netSavings income expenses - previousNetSavings income previousMonthExpenses.

(** One step of the grouping reducer. *)
Definition groupStep (acc : Obj) (expense : Expense) : Obj :=
  let category := category expense in
  let acc := if falsy_entry acc category then obj_set acc category 0 else acc in
  obj_set acc category (obj_read acc category + amount expense).

Definition expensesByCategory (expenses : list Expense) : Obj :=
  fold_left groupStep expenses [].

(** [incomeAmount > 0 ? Math.round((x / incomeAmount) * 100) : 0]. *)
Definition percentOf (x incomeAmount : JS.number) : JS.number :=
  if 0 <? incomeAmount then JS.Math_round ((x / incomeAmount) * 100) else 0.

Definition percentOfIncome (income : option Income) (expenses : list Expense) :=
  percentOf (totalExpenses expenses) (incomeAmount income).

Definition savingsPercentOfIncome (income : option Income) (expenses : list Expense) :=
  percentOf (netSavings income expenses) (incomeAmount income).

(** The loop over [Object.entries(expensesByCategory)]; the state is the
    pair [(highestCategory, highestAmount)], initially [('', 0)]. *)
Definition highestStep (h : string * JS.number) (entry : Category * JS.number)
  : string * JS.number :=
  let '(category, amount) := entry in
  if snd h <? amount then (category_name category, amount) else h.

Definition highest (byCategory : Obj) : string * JS.number :=
  fold_left highestStep byCategory (EmptyString, 0).

Definition highestCategory (expenses : list Expense) : string :=
  fst (highest (expensesByCategory expenses)).
Definition highestAmount (expenses : list Expense) : JS.number :=
  snd (highest (expensesByCategory expenses)).

(** *** Goal pacing: the body of [if (savingsGoal) { ... }] *)

Definition percentComplete (saved targetAmount : JS.number) : JS.number :=
  JS.Math_min 100 (JS.Math_floor ((saved / targetAmount) * 100)).

(** [1000 * 60 * 60 * 24]. *)
Definition msPerDay : JS.number := 1000 * 60 * 60 * 24.

Definition daysLeft (deadline now : Date) : JS.number :=
  JS.Math_floor ((getTime deadline - getTime now) / msPerDay).

Definition monthsLeft (deadline now : Date) : JS.number :=
  JS.Math_max 1 (JS.Math_ceil (daysLeft deadline now / 30)).

Definition monthlySavingsNeeded (saved targetAmount : JS.number)
    (deadline now : Date) : JS.number :=
  (targetAmount - saved) / monthsLeft deadline now.

Record GoalProgress := {
  description : string;
  savedAmount : JS.number;
  gp_targetAmount : JS.number;
  gp_percentComplete : JS.number;
  gp_daysLeft : JS.number;
  gp_monthlySavingsNeeded : JS.number;
  onTrack : bool
}.

Record Payload := {
  month_label : string;
  p_incomeAmount : JS.number;
  p_updatedAt : option Date;
  p_total : JS.number;
  p_percentOfIncome : JS.number;
  categoriesCount : nat;
  p_highestCategory : string;
  p_highestAmount : JS.number;
  byCategory : Obj;
  savings_amount : JS.number;
  savings_percentOfIncome : JS.number;
  trend : JS.number;
  monthlyAverage : JS.number;
  goal : option GoalProgress
}.

(** What the handler sends: the JSON payload, or status 500 from its
    [catch] block. *)
Inductive Response : Type :=
| Json (p : Payload)
| Status500.

Section Handler.
(** [format] of date-fns: a date and a pattern to a string. *)
Variable format : Date -> string -> string.

(** [savingsGoal.name || 'Savings Goal']: [null] and [''] are falsy. *)
Definition goalName (g : SavingsGoal) : string :=
  match name g with
  | Some EmptyString | None => "Savings Goal"
  | Some s => s
  end%string.

Definition goalBlock (g : SavingsGoal) (netSavings : JS.number) (now : Date)
  : GoalProgress :=
  let saved := netSavings in
  let targetAmount := targetAmount g in
  let percentComplete := percentComplete saved targetAmount in
  let deadline := deadline g in
  let daysLeft := daysLeft deadline now in
  let monthlySavingsNeeded := monthlySavingsNeeded saved targetAmount deadline now in
  {| description := (goalName g ++ " by " ++ format deadline "MMMM d, yyyy")%string;
     savedAmount := saved;
     gp_targetAmount := targetAmount;
     gp_percentComplete := percentComplete;
     gp_daysLeft := daysLeft;
     gp_monthlySavingsNeeded := monthlySavingsNeeded;
     onTrack := monthlySavingsNeeded <=? netSavings |}.

(** [let goalProgress = null; if (savingsGoal) { ... }]: inside the
    block the members of [savingsGoal] are read without a check. *)
Definition goalProgress (savingsGoal : option SavingsGoal)
    (netSavings : JS.number) (now : Date) : JS.completion (option GoalProgress) :=
  if JS.is_object savingsGoal then
    g <- JS.member savingsGoal (fun g => g) ;;
    JS.Normal (Some (goalBlock g netSavings now))
  else JS.Normal None.

Definition dashboardBody (month : Date) (income : option Income)
    (expenses previousMonthExpenses : list Expense)
    (savingsGoal : option SavingsGoal) (now : Date) : JS.completion Payload :=
  let totalExpenses := totalExpenses expenses in
  let incomeAmount := incomeAmount income in
  let netSavings := netSavings income expenses in
  let savingsTrend := savingsTrend income expenses previousMonthExpenses in
  let expensesByCategory := expensesByCategory expenses in
  let percentOfIncome := percentOfIncome income expenses in
  let savingsPercentOfIncome := savingsPercentOfIncome income expenses in
  let h := highest expensesByCategory in
  goalProgress <- goalProgress savingsGoal netSavings now ;;
  JS.Normal
    {| month_label := format month "MMMM yyyy";
       p_incomeAmount := incomeAmount;
       p_updatedAt := JS.opt_member income updatedAt;
       p_total := totalExpenses;
       p_percentOfIncome := percentOfIncome;
       categoriesCount := List.length expensesByCategory;
       p_highestCategory := fst h;
       p_highestAmount := snd h;
       byCategory := expensesByCategory;
       savings_amount := netSavings;
       savings_percentOfIncome := savingsPercentOfIncome;
       trend := savingsTrend;
       monthlyAverage := netSavings;
       goal := goalProgress |}.

(** [try { ...; res.json(...) } catch (error) { res.status(500)... }]. *)
Definition dashboard (month : Date) (income : option Income)
    (expenses previousMonthExpenses : list Expense)
    (savingsGoal : option SavingsGoal) (now : Date) : Response :=
  match dashboardBody month income expenses previousMonthExpenses savingsGoal now with
  | JS.Normal p => Json p
  | JS.Throw => Status500
  end.

End Handler.


End Dashboard.


(** * Vocabulary of the proofs *)

(** ** Binary64 values

    [Prim2SF] maps a primitive float to its sign, mantissa and exponent
    ([spec_float]); the operations on [spec_float] specify the primitive
    ones. *)

Module F64.

Local Open Scope Z_scope.

(** The binary64 value of an integer ([ToNumber] of an integer literal). *)
Definition Z2SF (z : Z) : spec_float := binary_normalize prec emax z 0 false.

(** JavaScript's safe integers: [|z| <= Number.MAX_SAFE_INTEGER]. *)
Definition safe (z : Z) : Prop := Z.abs z < 2 ^ 53.

(** The mantissa of a non-zero integer below [2^53], scaled to 53 bits. *)
Definition mant53 (q : positive) : positive :=
  Z.to_pos (Zpos q * 2 ^ (53 - Zpos (Pos.size q))).

(** Every value but [NaN] is a number. *)
Definition is_num (x : spec_float) : Prop :=
  match x with S754_nan => False | _ => True end.

(** The order of the numbers: each gets a key in [Z * Z * Z], ordered
    lexicographically, that [SFcompare] follows. *)
Definition key (x : spec_float) : Z * Z * Z :=
  match x with
  | S754_zero _ => (0, 0, 0)
  | S754_infinity false => (2, 0, 0)
  | S754_infinity true => (-2, 0, 0)
  | S754_finite false m e => (1, e, Zpos m)
  | S754_finite true m e => (-1, - e, Zneg m)
  | S754_nan => (0, 0, 0)
  end.

Definition klt (k1 k2 : Z * Z * Z) : Prop :=
  let '(a1, b1, c1) := k1 in
  let '(a2, b2, c2) := k2 in
  a1 < a2 \/ (a1 = a2 /\ (b1 < b2 \/ (b1 = b2 /\ c1 < c2))).

Definition kle (k1 k2 : Z * Z * Z) : Prop :=
  let '(a1, b1, c1) := k1 in
  let '(a2, b2, c2) := k2 in
  a1 < a2 \/ (a1 = a2 /\ (b1 < b2 \/ (b1 = b2 /\ c1 <= c2))).

(** A zero, a finite number or an infinity of sign [s]. *)
Definition signed (s : bool) (x : spec_float) : Prop :=
  match x with
  | S754_zero s' | S754_infinity s' | S754_finite s' _ _ => s' = s
  | S754_nan => False
  end.

Definition positive_sf (x : spec_float) : Prop :=
  match x with
  | S754_infinity false | S754_finite false _ _ => True
  | _ => False
  end.

Definition finite_sf (x : spec_float) : Prop :=
  match x with
  | S754_zero _ | S754_finite _ _ _ => True
  | _ => False
  end.

Definition fnum (x : float) : Prop := is_num (Prim2SF x).
Definition fkey (x : float) : Z * Z * Z := key (Prim2SF x).
Definition fpos (x : float) : Prop := (0 <? x)%float = true.

(** A finite, non-zero float. *)
Definition is_finite_nonzero (c : float) : bool :=
  match Prim2SF c with S754_finite _ _ _ => true | _ => false end.

(** The real number [m * 2^e]. *)
Definition val (m : positive) (e : Z) : R := (IZR (Zpos m) * powerRZ 2 e)%R.

(** The bound on the relative error of one rounding used below: [2^-52]. *)
Definition u52 : R := (/ 4503599627370496)%R.

(** A normal positive number with its mantissa and exponent. *)
Definition nrepr (f : float) (m : positive) (e : Z) : Prop :=
  Prim2SF f = S754_finite false m e /\ Zpos (Pos.size m) = 53.

(** Not below zero: a zero of either sign, a positive finite number or
    [+Infinity]. *)
Definition nonneg_sf (x : spec_float) : Prop :=
  match x with
  | S754_zero _ | S754_infinity false | S754_finite false _ _ => True
  | _ => False
  end.

(** The real number a float stands for ([0] for what is not finite). *)
Definition F2R (x : float) : R :=
  match Prim2SF x with
  | S754_finite s m e => if s then (- val m e)%R else val m e
  | _ => 0%R
  end.

End F64.

(** ** Statements about the dashboard and the currency table *)

Import Schema Dashboard CurrencyLib.

(** Sample records. *)
Definition sample_expense (c : Category) (a : JS.number) : Expense :=
  {| expense_id := 1%Z; expense_userId := 1%Z; amount := a; category := c;
     date := 1700000000000%Z; expense_currency := USD; note := None |}.

Definition sample_income (a : JS.number) : Income :=
  {| income_id := 1%Z; income_userId := 1%Z; income_amount := a;
     income_currency := USD; updatedAt := 1700000000000%Z |}.

Definition sample_goal (target : JS.number) (deadline : Date) : SavingsGoal :=
  {| goal_id := 1%Z; goal_userId := 1%Z; name := Some "Car"%string;
     targetAmount := target; deadline := deadline; goal_currency := USD |}.

Definition sample_format (d : Date) (pattern : string) : string := pattern.


(** A whole-number amount: the binary64 number of a non-negative integer.
    Sums and differences of such numbers are exact while they stay safe
    integers. *)
Definition whole (x : JS.number) (k : Z) : Prop := (0 <= k)%Z /\ x = JS.of_int k.

Definition zsum (l : list Z) : Z := fold_right Z.add 0%Z l.

Definition income_whole (income : option Income) (i : Z) : Prop :=
  match income with
  | Some inc => whole (income_amount inc) i
  | None => i = 0%Z
  end.



(** [n] is the integer closest to [100 * m * 2^e], the larger one on a tie:
    [n / 100] is [m * 2^e] rounded to two decimal places. *)
Definition nearest_hundredth (m : positive) (e n : Z) : Prop :=
  ((0 <= e)%Z /\ n = (100 * Zpos m * 2 ^ e)%Z) \/
  ((e < 0)%Z /\
   (- 2 ^ (- e) < 2 * n * 2 ^ (- e) - 200 * Zpos m <= 2 ^ (- e))%Z).

(** The amount of [k] hundredths, as [JSON.parse] reads its two-decimal
    numeral: the binary64 number nearest to [k / 100]. *)
Definition cents (k : Z) : JS.number := JS.of_int k / 100.

(** [convertCurrency(convertCurrency(x, a, b), b, a)]. *)
Definition roundTrip (x : JS.number) (a b : Currency) : JS.number :=
  convertCurrency (convertCurrency x a b) b a.

(** * Binary64 arithmetic: facts about the specification of the operators *)

(** ** Library objects of the store: [Map], [Array.prototype.sort], [c++] *)

Module JSData.

Local Open Scope Z_scope.

(** [c++] on a counter that holds the integer [c], [0 <= c <= 2^53]: the
    binary64 sum [c + 1] is exact below [2^53], and [2^53 + 1] rounds back
    to [2^53]. *)
Definition post_increment (c : Z) : Z := if c <? 2 ^ 53 then c + 1 else c.

(** A [Map] with number keys, as the list of its entries in insertion
    order. *)
Definition JSMap (V : Type) := list (Z * V).

Fixpoint map_get {V : Type} (m : JSMap V) (k : Z) : option V :=
  match m with
  | [] => None
  | (k', v) :: m' => if k' =? k then Some v else map_get m' k
  end.

Definition map_has {V : Type} (m : JSMap V) (k : Z) : bool :=
  match map_get m k with Some _ => true | None => false end.

(** [m.set(k, v)]: an existing key keeps its place, a new one is added
    last. *)
Fixpoint map_set {V : Type} (m : JSMap V) (k : Z) (v : V) : JSMap V :=
  match m with
  | [] => [(k, v)]
  | (k', v') :: m' =>
      if k' =? k then (k', v) :: m' else (k', v') :: map_set m' k v
  end.

Fixpoint map_delete {V : Type} (m : JSMap V) (k : Z) : JSMap V :=
  match m with
  | [] => []
  | (k', v') :: m' => if k' =? k then m' else (k', v') :: map_delete m' k
  end.

(** [m.values()], in insertion order. *)
Definition map_values {V : Type} (m : JSMap V) : list V := map snd m.

(** [for (const v of m.values()) if (p(v)) return v; return undefined]. *)
Fixpoint find_value {V : Type} (p : V -> bool) (m : JSMap V) : option V :=
  match m with
  | [] => None
  | (_, v) :: m' => if p v then Some v else find_value p m'
  end.

(** An assignment to members of the first value that satisfies [p],
    made on the object the map holds. *)
Fixpoint mutate_first {V : Type} (p : V -> bool) (f : V -> V) (m : JSMap V) : JSMap V :=
  match m with
  | [] => []
  | (k, v) :: m' => if p v then (k, f v) :: m' else (k, v) :: mutate_first p f m'
  end.



(** [ToIntegerOrInfinity]: [NaN] and the zeros give [0], any other finite
    number its integral part towards zero. *)
Inductive integer_or_infinity : Type :=
| Finite (z : Z)
| PlusInfinity
| MinusInfinity.

Definition ToIntegerOrInfinity (x : JS.number) : integer_or_infinity :=
  match Prim2SF x with
  | S754_nan | S754_zero _ => Finite 0
  | S754_infinity s => if s then MinusInfinity else PlusInfinity
  | S754_finite s m e =>
      let t := if 0 <=? e then Z.shiftl (Zpos m) e else JS.int_part m e in
      Finite (if s then - t else t)
  end.

(** An index argument of [slice] on an array of length [len]: counted
    from the end when negative, and kept within [0 .. len]. *)
Definition relative_index (len : Z) (i : integer_or_infinity) : Z :=
  match i with
  | MinusInfinity => 0
  | PlusInfinity => len
  | Finite r => if r <? 0 then Z.max (len + r) 0 else Z.min r len
  end.

(** [l.slice(start, end)]. *)
Definition Array_slice {A : Type} (l : list A) (start end_ : JS.number) : list A :=
  let len := Z.of_nat (List.length l) in
  let k := relative_index len (ToIntegerOrInfinity start) in
  let final := relative_index len (ToIntegerOrInfinity end_) in
  firstn (Z.to_nat (Z.max (final - k) 0)) (skipn (Z.to_nat k) l).

End JSData.

(** ** server/storage.ts: [MemStorage] *)

Module MemStorage.
Import Schema JSData.

Local Open Scope Z_scope.

Record User := {
  user_id : Z;
  email : string;
  password : string;
  user_currency : Currency;
  isPremium : bool
}.

(** [InsertUser], [InsertIncome], [InsertExpense], [InsertSavingsGoal]: the
    records without their [id]. *)
Record InsertUser := {
  iu_email : string;
  iu_password : string;
  iu_currency : Currency;
  iu_isPremium : bool
}.

Record InsertIncome := {
  ii_userId : Z;
  ii_amount : JS.number;
  ii_currency : Currency;
  ii_updatedAt : Date
}.

Record InsertExpense := {
  ie_userId : Z;
  ie_amount : JS.number;
  ie_category : Category;
  ie_date : Date;
  ie_currency : Currency;
  ie_note : option string
}.

Record InsertSavingsGoal := {
  ig_userId : Z;
  ig_name : option string;
  ig_targetAmount : JS.number;
  ig_deadline : Date;
  ig_currency : Currency
}.

(** [Partial<Expense>] and [Partial<SavingsGoal>]: each property is there
    or not. *)
Record PartialExpense := {
  pe_id : option Z;
  pe_userId : option Z;
  pe_amount : option JS.number;
  pe_category : option Category;
  pe_date : option Date;
  pe_currency : option Currency;
  pe_note : option (option string)
}.

Record PartialSavingsGoal := {
  pg_id : option Z;
  pg_userId : option Z;
  pg_name : option (option string);
  pg_targetAmount : option JS.number;
  pg_deadline : option Date;
  pg_currency : option Currency
}.

(** A property of a spread [{...a, ...b}]: that of [b] where [b] has it. *)
Definition over {A : Type} (a : A) (b : option A) : A :=
  match b with Some x => x | None => a end.

(** [{ ...expense, ...updatedExpense }]. *)
Definition spread_expense (expense : Expense) (updatedExpense : PartialExpense) : Expense :=
  {| expense_id := over (expense_id expense) (pe_id updatedExpense);
     expense_userId := over (expense_userId expense) (pe_userId updatedExpense);
     amount := over (amount expense) (pe_amount updatedExpense);
     category := over (category expense) (pe_category updatedExpense);
     date := over (date expense) (pe_date updatedExpense);
     expense_currency := over (expense_currency expense) (pe_currency updatedExpense);
     note := over (note expense) (pe_note updatedExpense) |}.

(** [{ ...goal, ...updatedGoal }]. *)
Definition spread_goal (goal : SavingsGoal) (updatedGoal : PartialSavingsGoal) : SavingsGoal :=
  {| goal_id := over (goal_id goal) (pg_id updatedGoal);
     goal_userId := over (goal_userId goal) (pg_userId updatedGoal);
     name := over (name goal) (pg_name updatedGoal);
     targetAmount := over (targetAmount goal) (pg_targetAmount updatedGoal);
     deadline := over (deadline goal) (pg_deadline updatedGoal);
     goal_currency := over (goal_currency goal) (pg_currency updatedGoal) |}.

(** The fields of a [MemStorage] (the session store apart). *)
Record Store := {
  users : JSMap User;
  incomes : JSMap Income;
  expenses : JSMap Expense;
  savingsGoals : JSMap SavingsGoal;
  userIdCounter : Z;
  incomeIdCounter : Z;
  expenseIdCounter : Z;
  savingsGoalIdCounter : Z
}.

(** [new MemStorage()]. *)
Definition constructor : Store :=
  {| users := []; incomes := []; expenses := []; savingsGoals := [];
     userIdCounter := 1; incomeIdCounter := 1; expenseIdCounter := 1;
     savingsGoalIdCounter := 1 |}.

(** The settled promise of an [async] method: resolved with a value, or
    rejected with the [Error] thrown. *)
Inductive Outcome (A : Type) : Type :=
| Resolved (a : A)
| Rejected (message : string).
Arguments Resolved {A} a.
Arguments Rejected {A} message.

(** A method: from the store before the call to its outcome and the store
    after it. *)
Definition Method (A : Type) := Store -> Outcome A * Store.

Definition with_users (s : Store) (m : JSMap User) (c : Z) : Store :=
  {| users := m; incomes := incomes s; expenses := expenses s;
     savingsGoals := savingsGoals s; userIdCounter := c;
     incomeIdCounter := incomeIdCounter s; expenseIdCounter := expenseIdCounter s;
     savingsGoalIdCounter := savingsGoalIdCounter s |}.

Definition with_incomes (s : Store) (m : JSMap Income) (c : Z) : Store :=
  {| users := users s; incomes := m; expenses := expenses s;
     savingsGoals := savingsGoals s; userIdCounter := userIdCounter s;
     incomeIdCounter := c; expenseIdCounter := expenseIdCounter s;
     savingsGoalIdCounter := savingsGoalIdCounter s |}.

Definition with_expenses (s : Store) (m : JSMap Expense) (c : Z) : Store :=
  {| users := users s; incomes := incomes s; expenses := m;
     savingsGoals := savingsGoals s; userIdCounter := userIdCounter s;
     incomeIdCounter := incomeIdCounter s; expenseIdCounter := c;
     savingsGoalIdCounter := savingsGoalIdCounter s |}.

Definition with_savingsGoals (s : Store) (m : JSMap SavingsGoal) (c : Z) : Store :=
  {| users := users s; incomes := incomes s; expenses := expenses s;
     savingsGoals := m; userIdCounter := userIdCounter s;
     incomeIdCounter := incomeIdCounter s; expenseIdCounter := expenseIdCounter s;
     savingsGoalIdCounter := c |}.

(** *** User operations *)

Definition getUser (id : Z) : Method (option User) :=
  fun s => (Resolved (map_get (users s) id), s).

Definition createUser (userData : InsertUser) : Method User :=
  fun s =>
    let id := userIdCounter s in
    let user := {| user_id := id; email := iu_email userData;
                   password := iu_password userData;
                   user_currency := iu_currency userData;
                   isPremium := iu_isPremium userData |} in
    (Resolved user, with_users s (map_set (users s) id user) (post_increment id)).

Definition updateUserCurrency (userId : Z) (currency : Currency) : Method unit :=
  fun s =>
    match map_get (users s) userId with
    | None => (Rejected "User not found", s)
    | Some user =>
        let user := {| user_id := user_id user; email := email user;
                       password := password user; user_currency := currency;
                       isPremium := isPremium user |} in
        (Resolved tt, with_users s (map_set (users s) userId user) (userIdCounter s))
    end.

Definition updateUserPremiumStatus (userId : Z) (isPremium' : bool) : Method unit :=
  fun s =>
    match map_get (users s) userId with
    | None => (Rejected "User not found", s)
    | Some user =>
        let user := {| user_id := user_id user; email := email user;
                       password := password user; user_currency := user_currency user;
                       isPremium := isPremium' |} in
        (Resolved tt, with_users s (map_set (users s) userId user) (userIdCounter s))
    end.

(** *** Income operations *)

Definition getIncome (userId : Z) : Method (option Income) :=
  fun s => (Resolved (find_value (fun income => income_userId income =? userId) (incomes s)), s).

(** [now] is the time value of the [new Date()] of the method. *)
Definition createIncome (incomeData : InsertIncome) (now : Date) : Method Income :=
  fun s =>
    let id := incomeIdCounter s in
    let income := {| income_id := id; income_userId := ii_userId incomeData;
                     income_amount := ii_amount incomeData;
                     income_currency := ii_currency incomeData;
                     updatedAt := now |} in
    (Resolved income, with_incomes s (map_set (incomes s) id income) (post_increment id)).

(** [now] is the [new Date()] that [updateIncome] takes, [now'] the one
    [createIncome] takes after it when the user has no income yet. An
    income found is changed where the map holds it and then set under its
    own [id]. *)
Definition updateIncome (userId : Z) (amount : JS.number) (currency : Currency)
    (now now' : Date) : Method Income :=
  fun s =>
    let mine := fun income => income_userId income =? userId in
    match find_value mine (incomes s) with
    | Some income =>
        let assign := fun income =>
          {| income_id := income_id income; income_userId := income_userId income;
             income_amount := amount; income_currency := currency;
             updatedAt := now |} in
        let income := assign income in
        (Resolved income,
         with_incomes s
           (map_set (mutate_first mine assign (incomes s)) (income_id income) income)
           (incomeIdCounter s))
    | None =>
        createIncome {| ii_userId := userId; ii_amount := amount;
                        ii_currency := currency; ii_updatedAt := now |} now' s
    end.

(** *** Expense operations *)

Section Calendar.
(** [Date.prototype.getMonth] and [getFullYear], in the time zone of the
    host. *)
Variables getMonth getFullYear : Date -> Z.




End Calendar.

Definition getExpense (id : Z) : Method (option Expense) :=
  fun s => (Resolved (map_get (expenses s) id), s).

Definition createExpense (expenseData : InsertExpense) : Method Expense :=
  fun s =>
    let id := expenseIdCounter s in
    let expense := {| expense_id := id; expense_userId := ie_userId expenseData;
                      amount := ie_amount expenseData;
                      category := ie_category expenseData;
                      date := ie_date expenseData;
                      expense_currency := ie_currency expenseData;
                      note := ie_note expenseData |} in
    (Resolved expense,
     with_expenses s (map_set (expenses s) id expense) (post_increment id)).

Definition updateExpense (id : Z) (updatedExpense : PartialExpense) : Method Expense :=
  fun s =>
    match map_get (expenses s) id with
    | None => (Rejected "Expense not found", s)
    | Some expense =>
        let updated := spread_expense expense updatedExpense in
        (Resolved updated,
         with_expenses s (map_set (expenses s) id updated) (expenseIdCounter s))
    end.

Definition deleteExpense (id : Z) : Method unit :=
  fun s =>
    let exists_ := map_has (expenses s) id in
    if negb exists_ then (Rejected "Expense not found", s)
    else (Resolved tt, with_expenses s (map_delete (expenses s) id) (expenseIdCounter s)).

(** *** Savings goal operations *)

Definition getSavingsGoal (userId : Z) : Method (option SavingsGoal) :=
  fun s => (Resolved (find_value (fun goal => goal_userId goal =? userId) (savingsGoals s)), s).

Definition createSavingsGoal (goalData : InsertSavingsGoal) : Method SavingsGoal :=
  fun s =>
    let id := savingsGoalIdCounter s in
    let goal := {| goal_id := id; goal_userId := ig_userId goalData;
                   name := ig_name goalData;
                   targetAmount := ig_targetAmount goalData;
                   deadline := ig_deadline goalData;
                   goal_currency := ig_currency goalData |} in
    (Resolved goal,
     with_savingsGoals s (map_set (savingsGoals s) id goal) (post_increment id)).

(** [updatedGoal.name || ""]. *)
Definition name_or_empty (n : option (option string)) : string :=
  match n with
  | Some (Some s) => s
  | _ => EmptyString
  end.

(** A goal found is replaced by its spread with the patch, set under the
    [id] the spread has. Without one, [!updatedGoal.targetAmount ||
    !updatedGoal.deadline || !updatedGoal.currency] rejects a patch where
    one of the three is missing or the amount is [0] or [NaN]. *)
Definition updateSavingsGoal (userId : Z) (updatedGoal : PartialSavingsGoal)
  : Method SavingsGoal :=
  fun s =>
    match find_value (fun goal => goal_userId goal =? userId) (savingsGoals s) with
    | Some goal =>
        let goal := spread_goal goal updatedGoal in
        (Resolved goal,
         with_savingsGoals s (map_set (savingsGoals s) (goal_id goal) goal)
           (savingsGoalIdCounter s))
    | None =>
        match pg_targetAmount updatedGoal, pg_deadline updatedGoal,
              pg_currency updatedGoal with
        | Some targetAmount, Some deadline, Some currency =>
            if negb (JS.ToBoolean targetAmount)
            then (Rejected "Missing required fields for savings goal", s)
            else
              createSavingsGoal
                {| ig_userId := userId;
                   ig_name := Some (name_or_empty (pg_name updatedGoal));
                   ig_targetAmount := targetAmount;
                   ig_deadline := deadline;
                   ig_currency := currency |} s
        | _, _, _ => (Rejected "Missing required fields for savings goal", s)
        end
    end.

(** *** The shape of a store

    Every record sits under its own [id], the keys of a map are distinct,
    and an id is below the counter that hands the next one out. *)
Definition keyed {V : Type} (id : V -> Z) (m : JSMap V) (counter : Z) : Prop :=
  NoDup (map fst m) /\
  Forall (fun entry => id (snd entry) = fst entry /\ fst entry < counter) m.

Definition well_formed (s : Store) : Prop :=
  keyed user_id (users s) (userIdCounter s) /\
  keyed income_id (incomes s) (incomeIdCounter s) /\
  keyed expense_id (expenses s) (expenseIdCounter s) /\
  keyed goal_id (savingsGoals s) (savingsGoalIdCounter s).

(** No user has two incomes, or two savings goals. *)
Definition one_per_user (s : Store) : Prop :=
  NoDup (map income_userId (map_values (incomes s))) /\
  NoDup (map goal_userId (map_values (savingsGoals s))).

(** The calls on the store, and the store after one. *)
Inductive Call : Type :=
| CreateUser (userData : InsertUser)
| UpdateUserCurrency (userId : Z) (currency : Currency)
| UpdateUserPremiumStatus (userId : Z) (isPremium : bool)
| UpdateIncome (userId : Z) (amount : JS.number) (currency : Currency) (now now' : Date)
| CreateExpense (expenseData : InsertExpense)
| UpdateExpense (id : Z) (updatedExpense : PartialExpense)
| DeleteExpense (id : Z)
| UpdateSavingsGoal (userId : Z) (updatedGoal : PartialSavingsGoal).

Definition run (s : Store) (c : Call) : Store :=
  match c with
  | CreateUser userData => snd (createUser userData s)
  | UpdateUserCurrency userId currency => snd (updateUserCurrency userId currency s)
  | UpdateUserPremiumStatus userId p => snd (updateUserPremiumStatus userId p s)
  | UpdateIncome userId amount currency now now' =>
      snd (updateIncome userId amount currency now now' s)
  | CreateExpense expenseData => snd (createExpense expenseData s)
  | UpdateExpense id updatedExpense => snd (updateExpense id updatedExpense s)
  | DeleteExpense id => snd (deleteExpense id s)
  | UpdateSavingsGoal userId updatedGoal => snd (updateSavingsGoal userId updatedGoal s)
  end.


End MemStorage.

(** ** server/routes.ts: the handlers on the store *)

Module Routes.
Import Schema JSData MemStorage Dashboard.

Local Open Scope Z_scope.

(** What a handler sends: [res.status(s).json(body)] ([res.json] has
    status 200), [res.status(s).json({ message })] or
    [res.status(s).send()]. *)
Inductive Reply (A : Type) : Type :=
| Sent (status : Z) (body : A)
| Failed (status : Z) (message : string)
| NoContent (status : Z).
Arguments Sent {A} status body.
Arguments Failed {A} status message.
Arguments NoContent {A} status.

(** The middleware [isAuthenticated]: [req.user] is there once the session
    is authenticated. *)
Definition isAuthenticated {A : Type} (user : option User)
    (next : User -> Store -> Reply A * Store) : Store -> Reply A * Store :=
  fun s =>
    match user with
    | Some user => next user s
    | None => (Failed 401 "Not authenticated", s)
    end.

(** [GET /api/income] and [GET /api/savings-goal]. *)
Definition getIncomeRoute (user : option User) : Store -> Reply (option Income) * Store :=
  isAuthenticated user (fun user s =>
    match getIncome (user_id user) s with
    | (Resolved income, s') => (Sent 200 income, s')
    | (Rejected _, s') => (Failed 500 "Failed to fetch income", s')
    end).

Definition getSavingsGoalRoute (user : option User)
  : Store -> Reply (option SavingsGoal) * Store :=
  isAuthenticated user (fun user s =>
    match getSavingsGoal (user_id user) s with
    | (Resolved goal, s') => (Sent 200 goal, s')
    | (Rejected _, s') => (Failed 500 "Failed to fetch savings goal", s')
    end).

(** [DELETE /api/expenses/:id]. [id] is [parseInt(req.params.id)], [None]
    where that is [NaN], which is no key of the map. *)
Definition deleteExpenseRoute (user : option User) (id : option Z)
  : Store -> Reply unit * Store :=
  isAuthenticated user (fun user s =>
    let expense := match id with Some id => map_get (expenses s) id | None => None end in
    match expense, id with
    | Some expense, Some id =>
        if negb (expense_userId expense =? user_id user)
        then (Failed 404 "Expense not found", s)
        else
          match deleteExpense id s with
          | (Resolved _, s') => (NoContent 204, s')
          | (Rejected _, s') => (Failed 500 "Failed to delete expense", s')
          end
    | _, _ => (Failed 404 "Expense not found", s)
    end).

(** [isPremium]: the session is authenticated and its user is premium. *)
Definition isPremium_middleware {A : Type} (user : option User)
    (next : User -> Store -> Reply A * Store) : Store -> Reply A * Store :=
  fun s =>
    match user with
    | Some user =>
        if isPremium user then next user s
        else (Failed 403 "Premium subscription required", s)
    | None => (Failed 403 "Premium subscription required", s)
    end.

(** [passport.deserializeUser]: [req.user] of a request whose session
    holds [id]. *)
Definition deserializeUser (id : Z) (s : Store) : option User :=
  match getUser id s with
  | (Resolved user, _) => user
  | (Rejected _, _) => None
  end.

(** [const { password, ...userWithoutPassword } = user]. *)
Record PublicUser := {
  public_id : Z;
  public_email : string;
  public_currency : Currency;
  public_isPremium : bool
}.

Definition userWithoutPassword (user : User) : PublicUser :=
  {| public_id := user_id user; public_email := email user;
     public_currency := user_currency user; public_isPremium := isPremium user |}.

(** [POST /api/subscribe]. *)
Definition subscribeRoute (user : option User) : Store -> Reply PublicUser * Store :=
  isAuthenticated user (fun user s =>
    let failed := Failed 500 "Failed to process subscription" in
    match updateUserPremiumStatus (user_id user) true s with
    | (Rejected _, s) => (failed, s)
    | (Resolved _, s) =>
    match getUser (user_id user) s with
    | (Rejected _, s) => (failed, s)
    | (Resolved None, s) => (Failed 404 "User not found", s)
    | (Resolved (Some updatedUser), s) => (Sent 200 (userWithoutPassword updatedUser), s)
    end end).

Section DashboardRoute.
Variables getMonth getFullYear : Date -> Z.
(** [subMonths] and [format] of date-fns. *)
Variable subMonths : Date -> Z -> Date.
Variable format : Date -> string -> string.


End DashboardRoute.


End Routes.

(** ** The pages of [ExpenseTable] *)

Module ExpenseTable.
Import Schema JSData.

Definition pageSize : JS.number := 5.

(** [expenses?.length || 0]; [expenses] is [None] while the query has no
    data. *)
Definition totalItems (expenses : option (list Expense)) : JS.number :=
  match expenses with
  | Some l => JS.or_else (JS.of_int (Z.of_nat (List.length l))) 0
  | None => 0
  end.

Definition totalPages (expenses : option (list Expense)) : JS.number :=
  JS.Math_ceil (totalItems expenses / pageSize).

Definition startIndex (page : JS.number) : JS.number := (page - 1) * pageSize.

Definition endIndex (page : JS.number) : JS.number := startIndex page + pageSize.

(** [expenses?.slice(startIndex, endIndex) || []]. *)
Definition currentExpenses (expenses : option (list Expense)) (page : JS.number)
  : list Expense :=
  match expenses with
  | Some l => Array_slice l (startIndex page) (endIndex page)
  | None => []
  end.

End ExpenseTable.

(** ** Vocabulary of the statements about the store and the handlers *)



(** The whole days from [now] to [deadline], rounded down (negative once
    the deadline has passed), and the months goal pacing counts for a
    number of days: [days / 30] rounded up, and at least one. *)
Definition whole_days (deadline now : Date) : Z := ((deadline - now) / 86400000)%Z.

Definition whole_months (days : Z) : Z := Z.max 1 (- ((- days) / 30))%Z.

(** Not above zero: a zero of either sign, a negative finite number or
    [-Infinity]. *)
Definition nonpos_sf (x : spec_float) : Prop :=
  match x with
  | S754_zero _ | S754_infinity true | S754_finite true _ _ => True
  | _ => False
  end.

(** ** Sample data for the store and the handlers *)

Module Samples.
Import Schema JSData MemStorage.

Local Open Scope Z_scope.

Definition sample_user (id : Z) : User :=
  {| user_id := id; email := "user@example.com"; password := "secret12";
     user_currency := USD; isPremium := false |}.

Definition sample_insert_user : InsertUser :=
  {| iu_email := "user@example.com"; iu_password := "secret12";
     iu_currency := USD; iu_isPremium := false |}.

Definition sample_insert_expense (userId : Z) (c : Category) (a : JS.number) (d : Date)
  : InsertExpense :=
  {| ie_userId := userId; ie_amount := a; ie_category := c; ie_date := d;
     ie_currency := USD; ie_note := None |}.

(** The patch of [PUT /api/expenses/:id] (its [note] is [null] here). *)
Definition sample_patch (a : JS.number) (c : Category) (d : Date) : PartialExpense :=
  {| pe_id := None; pe_userId := None; pe_amount := Some a; pe_category := Some c;
     pe_date := Some d; pe_currency := Some USD; pe_note := Some None |}.

(** The patch of [POST /api/savings-goal]. *)
Definition sample_goal_patch (target : JS.number) (d : Date) : PartialSavingsGoal :=
  {| pg_id := None; pg_userId := None; pg_name := Some (Some "Car"%string);
     pg_targetAmount := Some target; pg_deadline := Some d; pg_currency := Some USD |}.

(** Two users; the first has an income, a goal and the expenses 1 and 3,
    the second the expense 2. *)
Definition sample_calls : list Call :=
  [CreateUser sample_insert_user;
   CreateUser sample_insert_user;
   UpdateIncome 1 5000%float USD 1700000000000 1700000000000;
   CreateExpense (sample_insert_expense 1 Food 800%float 1700000000000);
   CreateExpense (sample_insert_expense 2 Rent 1500%float 1700000100000);
   CreateExpense (sample_insert_expense 1 Transportation 200%float 1700000200000);
   UpdateSavingsGoal 1 (sample_goal_patch 12000%float (1700000000000 + 90 * 86400000))].

Definition sample_store : Store := fold_left run sample_calls constructor.


End Samples.

(** ** The strings of [formatCurrency] *)

Module JSString.

Local Open Scope string_scope.

(** [\d] and [\w] on a character of a string without the [u] flag. *)
Definition is_digit (c : ascii) : bool :=
  let n := nat_of_ascii c in (48 <=? n)%nat && (n <=? 57)%nat.

Definition is_word (c : ascii) : bool :=
  let n := nat_of_ascii c in
  is_digit c || ((65 <=? n)%nat && (n <=? 90)%nat) ||
  ((97 <=? n)%nat && (n <=? 122)%nat) || (n =? 95)%nat.

(** Whether the character before a position, and the one at it, is a word
    character; there is none before the first position and at the end. *)
Definition word_before (prev : option ascii) : bool :=
  match prev with Some c => is_word c | None => false end.

Definition word_at (s : string) : bool :=
  match s with String c _ => is_word c | EmptyString => false end.

(** The digits at the head of [s]. *)
Fixpoint leading_digits (s : string) : nat :=
  match s with
  | String c s' => if is_digit c then S (leading_digits s') else 0%nat
  | EmptyString => 0%nat
  end.

(** The lookahead [(?=(\d{3})+(?!\d))] before [s]: some positive multiple
    of three digits and then no digit, that is, all the digits at the head
    of [s] and their number a positive multiple of three. *)
Definition groups_ahead (s : string) : bool :=
  let d := leading_digits s in (3 <=? d)%nat && (d mod 3 =? 0)%nat.

(** [s.replace(/\B(?=(\d{3})+(?!\d))/g, ",")]: the pattern matches the empty
    string, so every position is tried once, from the first to the one at
    the end, and a comma is put in where it matches: where [\B] holds (the
    characters on both sides are word characters, or neither is) and the
    lookahead succeeds. [prev] is the character before the position. *)
Fixpoint replace_from (prev : option ascii) (s : string) : string :=
  let here :=
    if Bool.eqb (word_before prev) (word_at s) && groups_ahead s then "," else "" in
  match s with
  | EmptyString => here
  | String c s' => here ++ String c (replace_from (Some c) s')
  end.

Definition replace_thousands (s : string) : string := replace_from None s.

(** The decimal digits of an integer [n >= 0], and the two digits of
    [0 <= r < 100]. *)
Definition decimal (n : Z) : string := NilZero.string_of_uint (N.to_uint (Z.to_N n)).

Definition digit (k : Z) : ascii := ascii_of_nat (48 + Z.to_nat k).

Definition two_digits (r : Z) : string :=
  String (digit (r / 10)) (String (digit (r mod 10)) "").

(** The sign [toFixed] prints. *)
Definition minus (s : bool) : string := if s then "-" else "".

Section ToFixed.
(** [Number::toString], which [toFixed] falls back to from [1e21] on. *)
Variable ToString : JS.number -> string.

(** [x.toFixed(2)]: [NaN] and the infinities print as [ToString] does; a
    negative [x] prints its sign and then its magnitude, which from
    [1e21] on is left to [ToString] and below it is the integer [n] of
    [hundredths] with a point before its last two digits. *)
Definition toFixed2 (x : JS.number) : string :=
  match Prim2SF x with
  | S754_finite s m e =>
      minus s ++
      (if (1e21 <=? abs x)%float then ToString (abs x)
       else
         let n := JS.hundredths m e in
         decimal (n / 100) ++ "." ++ two_digits (n mod 100))
  | S754_zero _ => "0.00"
  | S754_infinity s => minus s ++ "Infinity"
  | S754_nan => "NaN"
  end.

End ToFixed.

(** Groups of digits, each after a comma. *)
Fixpoint with_commas (groups : list string) : string :=
  match groups with
  | [] => ""
  | g :: groups' => "," ++ g ++ with_commas groups'
  end.

Fixpoint all_digits (s : string) : bool :=
  match s with
  | String c s' => is_digit c && all_digits s'
  | EmptyString => true
  end.

End JSString.

(** ** [formatCurrency] (in the sources after [server/storage.ts], and in
    the PDF generator) *)

Module CurrencyFormat.
Import Schema JSString.

Local Open Scope string_scope.

(** [CURRENCY_OPTIONS[currency].symbol], as the bytes of the source file. *)
Definition symbol (currency : Currency) : string :=
  match currency with
  | USD => "$"
  | EUR => "â‚¬"
  | LKR => "Rs"
  end.

Section Format.
Variable ToString : JS.number -> string.

(** [currency] is [None] where the argument is left out; the default is
    ["USD"]. *)
Definition formatCurrency (amount : JS.number) (currency : option Currency) : string :=
  let currency := match currency with Some c => c | None => USD end in
  symbol currency ++ replace_thousands (toFixed2 ToString amount).

End Format.

(** A [ToString] for the examples; it is reached from [1e21] on only. *)
Definition sample_ToString (x : JS.number) : string := "1e+21".

End CurrencyFormat.

Module F64Facts.
Import F64.

Local Open Scope Z_scope.

Lemma iter_pos_iter {A : Type} (f : A -> A) (p : positive) (x : A) :
  SpecFloat.iter_pos f p x = Pos.iter f x p.
Proof.
  revert x. induction p as [p IH | p IH | ]; intro x; simpl.
  - rewrite !IH. now rewrite <- !Pos.iter_swap.
  - now rewrite !IH.
  - reflexivity.
Qed.

Lemma digits2_size (p : positive) : digits2_pos p = Pos.size p.
Proof. induction p; simpl; congruence. Qed.

Lemma size_bounds (p : positive) :
  2 ^ (Zpos (Pos.size p) - 1) <= Zpos p < 2 ^ Zpos (Pos.size p).
Proof.
  induction p as [p IH | p IH | ]; simpl Pos.size.
  - rewrite Pos2Z.inj_succ.
    replace (Z.succ (Zpos (Pos.size p)) - 1) with (Z.succ (Zpos (Pos.size p) - 1)) by lia.
    rewrite !Z.pow_succ_r by lia. lia.
  - rewrite Pos2Z.inj_succ.
    replace (Z.succ (Zpos (Pos.size p)) - 1) with (Z.succ (Zpos (Pos.size p) - 1)) by lia.
    rewrite !Z.pow_succ_r by lia. lia.
  - simpl. lia.
Qed.

(** The size of a positive number is fixed by the powers of two around it. *)
Lemma size_unique (p : positive) (d : Z) :
  2 ^ (d - 1) <= Zpos p < 2 ^ d -> Zpos (Pos.size p) = d.
Proof.
  intros [Hl Hu]. pose proof (size_bounds p) as [Sl Su].
  assert (0 < d).
  { destruct (Z_lt_le_dec 0 d) as [|Hd]; [assumption|].
    assert (2 ^ d <= 2 ^ 0) by (apply Z.pow_le_mono_r; lia).
    simpl in *. lia. }
  destruct (Z_lt_le_dec (Zpos (Pos.size p)) d) as [Hlt|Hge].
  - assert (2 ^ Zpos (Pos.size p) <= 2 ^ (d - 1)) by (apply Z.pow_le_mono_r; lia). lia.
  - destruct (Z_lt_le_dec d (Zpos (Pos.size p))) as [Hlt|Hge'].
    + assert (2 ^ d <= 2 ^ (Zpos (Pos.size p) - 1)) by (apply Z.pow_le_mono_r; lia). lia.
    + lia.
Qed.

Lemma size_shift (p q : positive) (k : Z) :
  0 <= k -> Zpos p = Zpos q * 2 ^ k -> Zpos (Pos.size p) = Zpos (Pos.size q) + k.
Proof.
  intros Hk E. apply size_unique. rewrite E.
  pose proof (size_bounds q) as [Sl Su].
  replace (Zpos (Pos.size q) + k - 1) with ((Zpos (Pos.size q) - 1) + k) by lia.
  rewrite !Z.pow_add_r by lia.
  assert (0 < 2 ^ k) by (apply Z.pow_pos_nonneg; lia).
  split; nia.
Qed.

Lemma iter_xO (m d : positive) : Zpos (Pos.iter xO m d) = Zpos m * 2 ^ Zpos d.
Proof.
  induction d as [ | d IH] using Pos.peano_ind.
  - simpl. lia.
  - rewrite Pos.iter_succ, Pos2Z.inj_succ, Z.pow_succ_r by lia.
    rewrite Pos2Z.inj_xO, IH. lia.
Qed.

(** Shifting out [p] zero bits is exact. *)
Lemma shr_exact (p : positive) (M' : positive) (M : Z) :
  M = Zpos M' * 2 ^ Zpos p ->
  SpecFloat.iter_pos shr_1 p (Build_shr_record M false false) =
  Build_shr_record (Zpos M') false false.
Proof.
  rewrite iter_pos_iter. revert M.
  induction p as [ | p IH] using Pos.peano_ind; intros M E.
  - simpl. subst M. change (2 ^ 1) with 2.
    replace (Zpos M' * 2) with (Zpos (M'~0)) by lia. reflexivity.
  - rewrite Pos.iter_succ, <- Pos.iter_swap.
    rewrite Pos2Z.inj_succ, Z.pow_succ_r in E by lia.
    assert (HK : 0 < Zpos M' * 2 ^ Zpos p)
      by (apply Z.mul_pos_pos; [lia | apply Z.pow_pos_nonneg; lia]).
    rewrite <- (IH (Zpos M' * 2 ^ Zpos p) eq_refl).
    f_equal.
    remember (Zpos M' * 2 ^ Zpos p) as K.
    destruct K as [ | k | k]; try lia.
    subst M. replace (Zpos M' * (2 * 2 ^ Zpos p)) with (Zpos (k~0)) by lia.
    reflexivity.
Qed.

Lemma fexp_53 (x : Z) : fexp prec emax x = Z.max (x - 53) (-1074).
Proof. reflexivity. Qed.

(** Rounding a mantissa that is a 53-bit mantissa followed by [n] zero bits
    drops the zeros and changes nothing else. *)
Lemma binary_round_aux_exact (s : bool) (M M' : positive) (E n : Z) :
  0 <= n -> Zpos M = Zpos M' * 2 ^ n -> Zpos (Pos.size M') = 53 ->
  -1074 <= E + n <= 971 ->
  binary_round_aux prec emax s (Zpos M) E loc_Exact = S754_finite s M' (E + n).
Proof.
  intros Hn HM HS HE.
  assert (HdM : Zpos (digits2_pos M) = 53 + n)
    by (rewrite digits2_size, (size_shift M M' n Hn HM); lia).
  assert (HdM' : Zpos (digits2_pos M') = 53) by (now rewrite digits2_size).
  assert (Hstep1 : shr_fexp prec emax (Zpos M) E loc_Exact =
                   (Build_shr_record (Zpos M') false false, E + n)).
  { unfold shr_fexp. cbn [Zdigits2 shr_record_of_loc]. rewrite HdM, fexp_53.
    replace (Z.max (53 + n + E - 53) (-1074) - E) with n by lia.
    destruct n as [ | p | p]; try lia.
    - cbn [shr]. rewrite Z.pow_0_r in HM. f_equal; [ | lia].
      f_equal. lia.
    - cbn [shr]. f_equal. now apply shr_exact. }
  assert (Hstep2 : shr_fexp prec emax (Zpos M') (E + n) loc_Exact =
                   (Build_shr_record (Zpos M') false false, E + n)).
  { unfold shr_fexp. cbn [Zdigits2 shr_record_of_loc]. rewrite HdM', fexp_53.
    replace (Z.max (53 + (E + n) - 53) (-1074) - (E + n)) with 0 by lia.
    reflexivity. }
  unfold binary_round_aux. rewrite Hstep1.
  cbn [shr_m loc_of_shr_record round_nearest_even]. rewrite Hstep2.
  cbn [shr_m].
  replace (E + n <=? emax - prec) with true; [reflexivity | ].
  symmetry. apply Z.leb_le. unfold emax, prec. lia.
Qed.

Lemma mant53_spec (q : positive) :
  Zpos (Pos.size q) <= 53 ->
  Zpos (mant53 q) = Zpos q * 2 ^ (53 - Zpos (Pos.size q)) /\
  Zpos (Pos.size (mant53 q)) = 53.
Proof.
  intro Hq. unfold mant53.
  assert (0 < Zpos q * 2 ^ (53 - Zpos (Pos.size q)))
    by (apply Z.mul_pos_pos; [lia | apply Z.pow_pos_nonneg; lia]).
  assert (E : Zpos (Z.to_pos (Zpos q * 2 ^ (53 - Zpos (Pos.size q)))) =
              Zpos q * 2 ^ (53 - Zpos (Pos.size q)))
    by (apply Z2Pos.id; assumption).
  split; [exact E | ].
  rewrite (size_shift _ q (53 - Zpos (Pos.size q))); [lia | lia | exact E].
Qed.

(** [binary_round] of an integer below [2^53] written with [K] trailing
    zero bits at exponent [-K]. *)
Lemma binary_round_shifted (s : bool) (M q : positive) (K : Z) :
  0 <= K -> Zpos M = Zpos q * 2 ^ K -> Zpos (Pos.size q) <= 53 ->
  binary_round prec emax s M (- K) =
  S754_finite s (mant53 q) (Zpos (Pos.size q) - 53).
Proof.
  intros HK HM Hq.
  destruct (mant53_spec q Hq) as [Hm Hs].
  pose proof (size_shift M q K HK HM) as HsM.
  assert (Hsq : 0 < Zpos (Pos.size q)) by lia.
  unfold binary_round. rewrite digits2_size, HsM, fexp_53.
  replace (Z.max (Zpos (Pos.size q) + K + - K - 53) (-1074))
    with (Zpos (Pos.size q) - 53) by lia.
  unfold shl_align.
  destruct (Zpos (Pos.size q) - 53 - - K) as [ | d | d] eqn:Hd.
  - (* the mantissa has 53 bits already *)
    replace (Zpos (Pos.size q) - 53) with (- K + 0) by lia.
    apply binary_round_aux_exact; try lia.
    rewrite Hm, HM, Z.pow_0_r, Z.mul_1_r.
    replace (53 - Zpos (Pos.size q)) with K by lia. reflexivity.
  - (* more than 53 bits: the zeros are shifted out *)
    replace (Zpos (Pos.size q) - 53) with (- K + Zpos d) by lia.
    apply binary_round_aux_exact; try lia.
    rewrite Hm, HM.
    replace K with ((53 - Zpos (Pos.size q)) + Zpos d) at 1 by lia.
    rewrite Z.pow_add_r by lia. ring.
  - (* fewer than 53 bits: the mantissa is aligned first *)
    replace (Zpos (Pos.size q) - 53) with ((Zpos (Pos.size q) - 53) + 0) at 2 by lia.
    apply binary_round_aux_exact; try lia.
    rewrite iter_xO, Hm, HM, Z.pow_0_r.
    replace (53 - Zpos (Pos.size q)) with (K + Zpos d) by lia.
    rewrite Z.pow_add_r by lia. ring.
Qed.

Lemma safe_size (q : positive) : Zpos q < 2 ^ 53 -> Zpos (Pos.size q) <= 53.
Proof.
  intro H. pose proof (size_bounds q) as [Sl _].
  destruct (Z_le_gt_dec (Zpos (Pos.size q)) 53) as [ | Hgt]; [assumption | ].
  assert (2 ^ 53 <= 2 ^ (Zpos (Pos.size q) - 1)) by (apply Z.pow_le_mono_r; lia).
  lia.
Qed.

Lemma normalize_scaled (c K : Z) :
  0 <= K -> safe c ->
  binary_normalize prec emax (c * 2 ^ K) (- K) false = Z2SF c.
Proof.
  intros HK Hc. unfold safe in Hc. unfold Z2SF.
  assert (HP : 0 < 2 ^ K) by (apply Z.pow_pos_nonneg; lia).
  destruct c as [ | q | q].
  - reflexivity.
  - assert (Hq : Zpos (Pos.size q) <= 53) by (apply safe_size; lia).
    destruct (Zpos q * 2 ^ K) as [ | M | M] eqn:E; try lia.
    cbn [binary_normalize].
    rewrite (binary_round_shifted false M q K HK (eq_sym E) Hq).
    change 0 with (- 0).
    rewrite (binary_round_shifted false q q 0); try lia. reflexivity.
  - assert (Hq : Zpos (Pos.size q) <= 53) by (apply safe_size; lia).
    destruct (Zneg q * 2 ^ K) as [ | M | M] eqn:E; try lia.
    cbn [binary_normalize].
    assert (E' : Zpos M = Zpos q * 2 ^ K) by lia.
    rewrite (binary_round_shifted true M q K HK E' Hq).
    change 0 with (- 0).
    rewrite (binary_round_shifted true q q 0); try lia. reflexivity.
Qed.

(** The shape of the binary64 value of a non-zero safe integer. *)
Lemma Z2SF_finite (a : Z) :
  a <> 0 -> safe a ->
  exists m e, Z2SF a = S754_finite (a <? 0) m e /\ -52 <= e <= 0 /\
              Zpos m = Z.abs a * 2 ^ (- e) /\ Zpos (Pos.size m) = 53.
Proof.
  intros Ha Hs. unfold safe in Hs. unfold Z2SF.
  destruct a as [ | q | q]; [congruence | | ];
    assert (Hq : Zpos (Pos.size q) <= 53) by (apply safe_size; lia);
    destruct (mant53_spec q Hq) as [Hm Hsz];
    cbn [binary_normalize]; change 0 with (- 0);
    rewrite (binary_round_shifted _ q q 0) by lia;
    exists (mant53 q), (Zpos (Pos.size q) - 53);
    (split; [reflexivity | ]); (split; [lia | ]); (split; [ | assumption]);
    rewrite Hm; cbn [Z.abs]; f_equal; f_equal; lia.
Qed.

Lemma shl_align_value (mx : positive) (ex ez : Z) :
  ez <= ex -> Zpos (fst (shl_align mx ex ez)) = Zpos mx * 2 ^ (ex - ez).
Proof.
  intro H. unfold shl_align.
  destruct (ez - ex) as [ | d | d] eqn:E; cbn [fst]; try lia.
  - replace (ex - ez) with 0 by lia. rewrite Z.pow_0_r. lia.
  - rewrite iter_xO. f_equal. f_equal. lia.
Qed.

Lemma cond_Zopp_abs (a : Z) : cond_Zopp (a <? 0) (Z.abs a) = a.
Proof.
  unfold cond_Zopp. destruct (Z.ltb_spec a 0); lia.
Qed.

(** The aligned signed mantissa of a safe integer is the integer, scaled. *)
Lemma aligned_mantissa (a : Z) (m : positive) (e ez : Z) :
  Zpos m = Z.abs a * 2 ^ (- e) -> ez <= e -> e <= 0 ->
  cond_Zopp (a <? 0) (Zpos (fst (shl_align m e ez))) = a * 2 ^ (- ez).
Proof.
  intros Hm Hz He. rewrite shl_align_value, Hm by assumption.
  replace (- ez) with (- e + (e - ez)) by lia.
  rewrite Z.pow_add_r by lia.
  unfold cond_Zopp. destruct (Z.ltb_spec a 0).
  - replace (Z.abs a) with (- a) by lia. ring.
  - replace (Z.abs a) with a by lia. ring.
Qed.

(** Addition and subtraction of safe integers are exact in binary64 when
    the result is a safe integer. *)
Theorem SFadd_exact (a b : Z) :
  safe a -> safe b -> safe (a + b) ->
  SF64add (Z2SF a) (Z2SF b) = Z2SF (a + b).
Proof.
  intros Ha Hb Hab.
  destruct (Z.eq_dec a 0) as [-> | Na].
  { destruct (Z.eq_dec b 0) as [-> | Nb]; [reflexivity | ].
    rewrite Z.add_0_l.
    destruct (Z2SF_finite b Nb Hb) as (m & e & E & _). rewrite E. reflexivity. }
  destruct (Z.eq_dec b 0) as [-> | Nb].
  { rewrite Z.add_0_r.
    destruct (Z2SF_finite a Na Ha) as (m & e & E & _). rewrite E. reflexivity. }
  destruct (Z2SF_finite a Na Ha) as (ma & ea & Ea & Hea & Hma & _).
  destruct (Z2SF_finite b Nb Hb) as (mb & eb & Eb & Heb & Hmb & _).
  rewrite Ea, Eb. unfold SF64add, SFadd.
  rewrite (aligned_mantissa a ma ea _ Hma) by lia.
  rewrite (aligned_mantissa b mb eb _ Hmb) by lia.
  rewrite <- Z.mul_add_distr_r.
  pose proof (normalize_scaled (a + b) (- Z.min ea eb)) as N.
  rewrite Z.opp_involutive in N. apply N; [lia | assumption].
Qed.

Lemma Z2SF_opp (b : Z) : b <> 0 -> safe b -> Z2SF (- b) = SFopp (Z2SF b).
Proof.
  intros Nb Hb. unfold safe in Hb. unfold Z2SF.
  destruct b as [ | q | q]; [congruence | | ];
    assert (Hq : Zpos (Pos.size q) <= 53) by (apply safe_size; lia);
    cbn [binary_normalize Z.opp]; change 0 with (- 0);
    rewrite !(binary_round_shifted _ q q 0) by lia; reflexivity.
Qed.

Theorem SFsub_exact (a b : Z) :
  safe a -> safe b -> safe (a - b) ->
  SF64sub (Z2SF a) (Z2SF b) = Z2SF (a - b).
Proof.
  intros Ha Hb Hab.
  destruct (Z.eq_dec a 0) as [-> | Na].
  { destruct (Z.eq_dec b 0) as [-> | Nb]; [reflexivity | ].
    rewrite Z.sub_0_l, (Z2SF_opp b Nb Hb).
    destruct (Z2SF_finite b Nb Hb) as (m & e & E & _). rewrite E. reflexivity. }
  destruct (Z.eq_dec b 0) as [-> | Nb].
  { rewrite Z.sub_0_r.
    destruct (Z2SF_finite a Na Ha) as (m & e & E & _). rewrite E. reflexivity. }
  destruct (Z2SF_finite a Na Ha) as (ma & ea & Ea & Hea & Hma & _).
  destruct (Z2SF_finite b Nb Hb) as (mb & eb & Eb & Heb & Hmb & _).
  rewrite Ea, Eb. unfold SF64sub, SFsub.
  rewrite (aligned_mantissa a ma ea _ Hma) by lia.
  rewrite (aligned_mantissa b mb eb _ Hmb) by lia.
  rewrite <- Z.mul_sub_distr_r.
  pose proof (normalize_scaled (a - b) (- Z.min ea eb)) as N.
  rewrite Z.opp_involutive in N. apply N; [lia | assumption].
Qed.

(** *** Back to primitive floats *)

Lemma of_int_spec (z : Z) : safe z -> Prim2SF (JS.of_int z) = Z2SF z.
Proof.
  intro Hz. unfold safe in Hz.
  assert (Hpos : forall p, Zpos p < 2 ^ 53 ->
            Prim2SF (of_uint63 (Uint63.of_Z (Zpos p))) = Z2SF (Zpos p)).
  { intros p Hp. rewrite of_uint63_spec, Uint63.of_Z_spec.
    rewrite Z.mod_small; [reflexivity | ].
    change wB with (2 ^ 63). split; [lia | ].
    apply Z.lt_trans with (2 ^ 53); [assumption | reflexivity]. }
  destruct z as [ | p | p].
  - reflexivity.
  - apply Hpos. lia.
  - cbn [JS.of_int]. rewrite opp_spec, Hpos by lia.
    change (Zneg p) with (- Zpos p).
    rewrite Z2SF_opp; [reflexivity | lia | unfold safe; lia].
Qed.

Theorem add_of_int (a b : Z) :
  safe a -> safe b -> safe (a + b) ->
  (JS.of_int a + JS.of_int b)%float = JS.of_int (a + b).
Proof.
  intros Ha Hb Hab. apply Prim2SF_inj.
  rewrite add_spec, !of_int_spec by assumption.
  now apply SFadd_exact.
Qed.

Theorem sub_of_int (a b : Z) :
  safe a -> safe b -> safe (a - b) ->
  (JS.of_int a - JS.of_int b)%float = JS.of_int (a - b).
Proof.
  intros Ha Hb Hab. apply Prim2SF_inj.
  rewrite sub_spec, !of_int_spec by assumption.
  now apply SFsub_exact.
Qed.

(** *** The order of binary64 values

    Every value but [NaN] gets a key in [Z * Z * Z], ordered
    lexicographically, that [SFcompare] follows. *)

Ltac key_cases :=
  repeat match goal with
    | |- context [Z.compare ?a ?b] => destruct (Z.compare_spec a b)
    | |- context [Pos.compare_cont Eq ?a ?b] =>
        change (Pos.compare_cont Eq a b) with (Pos.compare a b);
        destruct (Pos.compare_spec a b)
    end;
  cbn [CompOpp]; split; intro; try discriminate; try reflexivity; try lia.

Lemma SFltb_key (x y : spec_float) :
  is_num x -> is_num y -> (SFltb x y = true <-> klt (key x) (key y)).
Proof.
  destruct x as [sx | sx | | sx mx ex]; destruct y as [sy | sy | | sy my ey];
    cbn [is_num]; intros Hx Hy; try contradiction;
    unfold SFltb, SFcompare, key, klt;
    try destruct sx; try destruct sy; key_cases.
Qed.

Lemma SFleb_key (x y : spec_float) :
  is_num x -> is_num y -> (SFleb x y = true <-> kle (key x) (key y)).
Proof.
  destruct x as [sx | sx | | sx mx ex]; destruct y as [sy | sy | | sy my ey];
    cbn [is_num]; intros Hx Hy; try contradiction;
    unfold SFleb, SFcompare, key, kle;
    try destruct sx; try destruct sy; key_cases.
Qed.


Lemma SFleb_num (x y : spec_float) : SFleb x y = true -> is_num x /\ is_num y.
Proof.
  destruct x, y; cbn; intro H; try discriminate; auto.
Qed.


Lemma not_klt_kle k1 k2 : ~ klt k1 k2 -> kle k2 k1.
Proof. destruct k1 as [[a1 b1] c1], k2 as [[a2 b2] c2]. cbn. lia. Qed.


Lemma kle_refl k : kle k k.
Proof. destruct k as [[a b] c]. cbn. lia. Qed.

Lemma kle_trans k1 k2 k3 : kle k1 k2 -> kle k2 k3 -> kle k1 k3.
Proof.
  destruct k1 as [[a1 b1] c1], k2 as [[a2 b2] c2], k3 as [[a3 b3] c3]. cbn. lia.
Qed.



(** *** Rounding keeps the sign and never invents [NaN] *)

Lemma shr_1_m (mrs : shr_record) :
  0 <= shr_m mrs -> shr_m (shr_1 mrs) = shr_m mrs / 2.
Proof.
  destruct mrs as [m r s]. cbn [shr_m]. intro Hm.
  destruct m as [ | [p | p | ] | p]; cbn [shr_1 shr_m]; try lia.
  - reflexivity.
  - apply Z.div_unique with 1; lia.
  - apply Z.div_unique with 0; lia.
  - reflexivity.
Qed.

Lemma iter_shr_m (p : positive) (mrs : shr_record) :
  0 <= shr_m mrs ->
  shr_m (SpecFloat.iter_pos shr_1 p mrs) = shr_m mrs / 2 ^ Zpos p.
Proof.
  intro Hm. rewrite iter_pos_iter.
  induction p as [ | p IH] using Pos.peano_ind.
  - cbn [Pos.iter]. now rewrite shr_1_m.
  - rewrite Pos.iter_succ, shr_1_m, IH.
    + rewrite Pos2Z.inj_succ, Z.pow_succ_r by lia.
      rewrite Z.div_div by (try apply Z.pow_pos_nonneg; lia).
      f_equal. ring.
    + rewrite IH. apply Z.div_pos; [assumption | apply Z.pow_pos_nonneg; lia].
Qed.

Lemma shr_record_of_loc_m (m : Z) (l : location) :
  shr_m (shr_record_of_loc m l) = m.
Proof. destruct l as [ | [ | | ]]; reflexivity. Qed.

Lemma shr_nonneg (mrs : shr_record) (e n : Z) :
  0 <= shr_m mrs -> 0 <= shr_m (fst (shr mrs e n)).
Proof.
  intro Hm. destruct n as [ | p | p]; cbn [shr fst]; try assumption.
  rewrite iter_shr_m by assumption.
  apply Z.div_pos; [assumption | apply Z.pow_pos_nonneg; lia].
Qed.

Lemma round_nearest_even_bounds (m : Z) (l : location) :
  m <= round_nearest_even m l <= m + 1.
Proof.
  destruct l as [ | [ | | ]]; cbn [round_nearest_even]; try lia.
  destruct (Z.even m); lia.
Qed.

Lemma binary_round_aux_signed (s : bool) (m e : Z) (l : location) :
  0 <= m -> signed s (binary_round_aux prec emax s m e l).
Proof.
  intro Hm. unfold binary_round_aux, shr_fexp.
  destruct (shr (shr_record_of_loc m l) e _) as [mrs' e'] eqn:E1.
  assert (H1 : 0 <= shr_m mrs').
  { change mrs' with (fst (mrs', e')). rewrite <- E1.
    apply shr_nonneg. now rewrite shr_record_of_loc_m. }
  pose proof (round_nearest_even_bounds (shr_m mrs') (loc_of_shr_record mrs')) as H2.
  destruct (shr (shr_record_of_loc _ loc_Exact) e' _) as [mrs'' e''] eqn:E2.
  assert (H3 : 0 <= shr_m mrs'').
  { change mrs'' with (fst (mrs'', e'')). rewrite <- E2.
    apply shr_nonneg. cbn [shr_record_of_loc shr_m]. lia. }
  destruct (shr_m mrs'') as [ | p | p]; cbn [signed]; try lia.
  - reflexivity.
  - destruct (e'' <=? emax - prec); reflexivity.
Qed.

Lemma signed_num (s : bool) (x : spec_float) : signed s x -> is_num x.
Proof. destruct x; cbn; auto. Qed.



Lemma binary_round_signed (s : bool) (m : positive) (e : Z) :
  signed s (binary_round prec emax s m e).
Proof.
  unfold binary_round. destruct (shl_align m e _) as [mz ez].
  apply binary_round_aux_signed. lia.
Qed.

Lemma binary_normalize_num (m e : Z) (sz : bool) :
  is_num (binary_normalize prec emax m e sz).
Proof.
  destruct m; cbn [binary_normalize]; [exact I | | ];
    eapply signed_num; apply binary_round_signed.
Qed.

Lemma SFadd_num (x y : spec_float) :
  finite_sf x -> finite_sf y -> is_num (SF64add x y).
Proof.
  destruct x as [sx | sx | | sx mx ex]; destruct y as [sy | sy | | sy my ey];
    cbn [finite_sf]; intros Hx Hy; try contradiction;
    unfold SF64add, SFadd; try exact I.
  - destruct sx, sy; exact I.
  - apply binary_normalize_num.
Qed.


Lemma SFdiv_core_nonneg (m1 m2 : positive) (e1 e2 : Z) :
  0 <= fst (fst (SFdiv_core_binary prec emax (Zpos m1) e1 (Zpos m2) e2)).
Proof.
  unfold SFdiv_core_binary.
  set (s := _ - _ - Z.min _ _).
  set (m' := match s with Z0 => Zpos m1 | Zpos _ => Z.shiftl (Zpos m1) s | Zneg _ => 0 end).
  assert (Hm' : 0 <= m').
  { unfold m'. destruct s; try lia. apply Z.shiftl_nonneg. lia. }
  pose proof (Z_div_mod m' (Zpos m2) eq_refl) as Hdiv.
  destruct (Z.div_eucl m' (Zpos m2)) as [q r]. cbn [fst].
  destruct Hdiv as [Hq Hr]. nia.
Qed.

(** Dividing a number by a finite non-zero number gives a number. *)
Lemma SFdiv_num (x : spec_float) (sy : bool) (my : positive) (ey : Z) :
  is_num x -> is_num (SF64div x (S754_finite sy my ey)).
Proof.
  destruct x as [sx | sx | | sx mx ex]; cbn [is_num]; intro Hx;
    try contradiction; unfold SF64div, SFdiv; try exact I.
  pose proof (SFdiv_core_nonneg mx my ex ey) as Hq.
  destruct (SFdiv_core_binary prec emax (Zpos mx) ex (Zpos my) ey) as [[mz ez] lz].
  cbn [fst] in Hq. eapply signed_num. now apply binary_round_aux_signed.
Qed.


(** *** Primitive floats: numbers and their order *)

Lemma SFeqb_refl (x : spec_float) : is_num x -> SFeqb x x = true.
Proof.
  destruct x as [s | s | | s m e]; cbn [is_num]; intro H; try contradiction;
    unfold SFeqb, SFcompare; try destruct s; try reflexivity;
    rewrite Z.compare_refl, Pos.compare_cont_refl; reflexivity.
Qed.

Lemma is_nan_fnum (x : float) : is_nan x = false <-> fnum x.
Proof.
  unfold is_nan, fnum. rewrite eqb_spec. split.
  - intro H. destruct (Prim2SF x); cbn in *; try exact I. discriminate.
  - intro H. now rewrite SFeqb_refl.
Qed.

Lemma ltb_key (x y : float) :
  fnum x -> fnum y -> ((x <? y)%float = true <-> klt (fkey x) (fkey y)).
Proof. intros. rewrite ltb_spec. now apply SFltb_key. Qed.

Lemma leb_key (x y : float) :
  fnum x -> fnum y -> ((x <=? y)%float = true <-> kle (fkey x) (fkey y)).
Proof. intros. rewrite leb_spec. now apply SFleb_key. Qed.


Lemma leb_fnum (x y : float) : (x <=? y)%float = true -> fnum x /\ fnum y.
Proof. rewrite leb_spec. apply SFleb_num. Qed.


Lemma not_ltb_leb (x y : float) :
  fnum x -> fnum y -> (x <? y)%float = false -> (y <=? x)%float = true.
Proof.
  intros Hx Hy H. apply leb_key; try assumption. apply not_klt_kle.
  intro K. apply ltb_key in K; try assumption. congruence.
Qed.

Lemma of_int_num (z : Z) : fnum (JS.of_int z).
Proof.
  unfold fnum. destruct z as [ | p | p]; cbn [JS.of_int].
  - exact I.
  - rewrite of_uint63_spec. apply binary_normalize_num.
  - rewrite opp_spec, of_uint63_spec.
    pose proof (binary_normalize_num (Uint63.to_Z (Uint63.of_Z (Zpos p))) 0 false) as H.
    destruct (binary_normalize _ _ _ _ _); cbn in *; auto.
Qed.


Lemma Math_floor_num (x : float) : fnum x -> fnum (JS.Math_floor x).
Proof.
  intro Hx. unfold JS.Math_floor.
  destruct (Prim2SF x) as [s | s | | s m e] eqn:E; try assumption.
  destruct (0 <=? e); [assumption | ].
  destruct (JS.is_integral m e); [assumption | ].
  destruct s; apply of_int_num.
Qed.


Lemma div_num (x c : float) :
  is_finite_nonzero c = true -> fnum x -> fnum (x / c).
Proof.
  unfold is_finite_nonzero, fnum. intros Hc Hx. rewrite div_spec.
  destruct (Prim2SF c) as [ | | | s m e]; try discriminate.
  now apply SFdiv_num.
Qed.



(** *** Positive numbers *)

Lemma fpos_iff (x : float) : fpos x <-> positive_sf (Prim2SF x).
Proof.
  unfold fpos. rewrite ltb_spec. change (Prim2SF 0) with (S754_zero false).
  destruct (Prim2SF x) as [s | [ | ] | | [ | ] m e]; cbn; intuition discriminate.
Qed.











Lemma div_pow2_bounds (p : positive) (n : Z) :
  0 <= n -> n = Zpos (Pos.size p) - 53 ->
  2 ^ 52 <= Zpos p / 2 ^ n < 2 ^ 53 /\
  Zpos p / 2 ^ n * 2 ^ n <= Zpos p < (Zpos p / 2 ^ n + 1) * 2 ^ n.
Proof.
  intros Hn En. pose proof (size_bounds p) as [Sl Su].
  assert (P : 0 < 2 ^ n) by (apply Z.pow_pos_nonneg; lia).
  split; [split | ].
  - apply Z.div_le_lower_bound; [assumption | ].
    rewrite <- Z.pow_add_r by lia.
    replace (n + 52) with (Zpos (Pos.size p) - 1) by lia. assumption.
  - apply Z.div_lt_upper_bound; [assumption | ].
    rewrite <- Z.pow_add_r by lia.
    replace (n + 53) with (Zpos (Pos.size p)) by lia. assumption.
  - pose proof (Z_div_mod_eq_full (Zpos p) (2 ^ n)) as D.
    pose proof (Z.mod_pos_bound (Zpos p) (2 ^ n) P) as B. nia.
Qed.

Lemma shr_fexp_normal (p : positive) (e : Z) (l : location) :
  53 <= Zpos (Pos.size p) -> -1074 <= e + (Zpos (Pos.size p) - 53) ->
  shr_m (fst (shr_fexp prec emax (Zpos p) e l)) = Zpos p / 2 ^ (Zpos (Pos.size p) - 53) /\
  snd (shr_fexp prec emax (Zpos p) e l) = e + (Zpos (Pos.size p) - 53).
Proof.
  intros Hd He. unfold shr_fexp. cbn [Zdigits2]. rewrite digits2_size, fexp_53.
  set (d := Zpos (Pos.size p)) in *.
  replace (Z.max (d + e - 53) (-1074) - e) with (d - 53) by lia.
  destruct (d - 53) as [ | q | q] eqn:E; try lia; cbn [shr fst snd].
  - rewrite shr_record_of_loc_m, Z.pow_0_r, Z.div_1_r. split; [reflexivity | lia].
  - rewrite iter_shr_m by (rewrite shr_record_of_loc_m; lia).
    rewrite shr_record_of_loc_m. split; reflexivity.
Qed.

(** Rounding a mantissa of at least 53 bits, away from the ends of the
    exponent range: the result is a normal number within one unit in the
    last place of every value between the mantissa and its successor. *)
Lemma binary_round_aux_near (p : positive) (e : Z) (l : location) :
  53 <= Zpos (Pos.size p) ->
  -1074 <= e + (Zpos (Pos.size p) - 53) -> e + (Zpos (Pos.size p) - 53) + 1 <= 971 ->
  exists m' e',
    binary_round_aux prec emax false (Zpos p) e l = S754_finite false m' e' /\
    Zpos (Pos.size m') = 53 /\
    e + (Zpos (Pos.size p) - 53) <= e' <= e + (Zpos (Pos.size p) - 53) + 1 /\
    Zpos m' * 2 ^ (e' - e) - 2 ^ (Zpos (Pos.size p) - 53) <= Zpos p /\
    Zpos p + 1 <= Zpos m' * 2 ^ (e' - e) + 2 ^ (Zpos (Pos.size p) - 53).
Proof.
  intros Hd Hlo Hhi. set (n := Zpos (Pos.size p) - 53) in *.
  assert (Hn : 0 <= n) by lia.
  destruct (shr_fexp_normal p e l Hd Hlo) as [E1 E1e]. fold n in E1, E1e.
  destruct (div_pow2_bounds p n Hn eq_refl) as [[M1l M1u] [V1 V2]].
  unfold binary_round_aux.
  destruct (shr_fexp prec emax (Zpos p) e l) as [mrs1 e1]. cbn [fst snd] in E1, E1e.
  subst e1.
  pose proof (round_nearest_even_bounds (shr_m mrs1) (loc_of_shr_record mrs1)) as [R1 R2].
  set (rn := round_nearest_even (shr_m mrs1) (loc_of_shr_record mrs1)) in *.
  rewrite E1 in R1, R2.
  set (m1 := Zpos p / 2 ^ n) in *.
  assert (P : 0 < 2 ^ n) by (apply Z.pow_pos_nonneg; lia).
  destruct rn as [ | r | r]; try lia.
  destruct (Z.eq_dec (Zpos r) (2 ^ 53)) as [Er | Nr].
  - (* the mantissa rounded up to [2^53] *)
    assert (Sr : Zpos (Pos.size r) = 54) by (apply size_unique; rewrite Er; split; [reflexivity | reflexivity]).
    assert (E2 : shr_fexp prec emax (Zpos r) (e + n) loc_Exact =
                 (Build_shr_record (Zpos 4503599627370496) false false, e + n + 1)).
    { unfold shr_fexp. cbn [Zdigits2 shr_record_of_loc]. rewrite digits2_size, Sr, fexp_53.
      replace (Z.max (54 + (e + n) - 53) (-1074) - (e + n)) with 1 by lia.
      cbn [shr]. f_equal. apply shr_exact. rewrite Er. reflexivity. }
    rewrite E2. cbn [shr_m].
    replace (e + n + 1 <=? emax - prec) with true
      by (symmetry; apply Z.leb_le; unfold emax, prec; lia).
    exists 4503599627370496%positive, (e + n + 1). split; [reflexivity | ].
    split; [reflexivity | ]. split; [lia | ].
    replace (e + n + 1 - e) with (Z.succ n) by lia. rewrite Z.pow_succ_r by lia.
    change (Zpos 4503599627370496) with (2 ^ 52).
    assert (E53 : 2 ^ 53 = 2 * 2 ^ 52) by reflexivity. nia.
  - assert (Sr : Zpos (Pos.size r) = 53) by (apply size_unique; lia).
    assert (E2 : shr_fexp prec emax (Zpos r) (e + n) loc_Exact =
                 (Build_shr_record (Zpos r) false false, e + n)).
    { unfold shr_fexp. cbn [Zdigits2 shr_record_of_loc]. rewrite digits2_size, Sr, fexp_53.
      replace (Z.max (53 + (e + n) - 53) (-1074) - (e + n)) with 0 by lia.
      reflexivity. }
    rewrite E2. cbn [shr_m].
    replace (e + n <=? emax - prec) with true
      by (symmetry; apply Z.leb_le; unfold emax, prec; lia).
    exists r, (e + n). split; [reflexivity | ]. split; [assumption | ].
    split; [lia | ].
    replace (e + n - e) with n by lia. nia.
Qed.

(** *** Exact values and relative error *)

Lemma powerRZ_2_pos (e : Z) : (0 < powerRZ 2 e)%R.
Proof. apply powerRZ_lt. lra. Qed.

Lemma val_pos (m : positive) (e : Z) : (0 < val m e)%R.
Proof.
  unfold val. apply Rmult_lt_0_compat; [ | apply powerRZ_2_pos].
  apply IZR_lt. lia.
Qed.

Lemma IZR_pow2 (n : Z) : 0 <= n -> IZR (2 ^ n) = powerRZ 2 n.
Proof.
  intro Hn. rewrite <- (Z2Nat.id n Hn) at 1 2.
  rewrite <- pow_IZR, <- pow_powerRZ. reflexivity.
Qed.

Lemma val_shift (m : positive) (e e' : Z) :
  e <= e' -> val m e' = (IZR (Zpos m * 2 ^ (e' - e)) * powerRZ 2 e)%R.
Proof.
  intro H. unfold val. rewrite mult_IZR, IZR_pow2 by lia.
  rewrite Rmult_assoc, <- powerRZ_add by lra.
  f_equal. f_equal. lia.
Qed.

(** From the integer inequalities of [binary_round_aux_near] to the relative
    error of the rounded value. *)
Lemma near_val (p m' : positive) (e e' n : Z) (V : R) :
  0 <= n -> e <= e' -> 2 ^ (n + 52) <= Zpos p ->
  Zpos m' * 2 ^ (e' - e) - 2 ^ n <= Zpos p ->
  Zpos p + 1 <= Zpos m' * 2 ^ (e' - e) + 2 ^ n ->
  (IZR (Zpos p) * powerRZ 2 e <= V <= (IZR (Zpos p) + 1) * powerRZ 2 e)%R ->
  (V * (1 - u52) <= val m' e' <= V * (1 + u52))%R.
Proof.
  intros Hn He Hp H1 H2 [V1 V2]. rewrite (val_shift m' e e' He).
  pose proof (powerRZ_2_pos e) as S. set (s := powerRZ 2 e) in *.
  set (A := Zpos m' * 2 ^ (e' - e)) in *.
  rewrite Z.pow_add_r in Hp by lia. change (2 ^ 52) with 4503599627370496 in Hp.
  apply IZR_le in Hp, H1, H2.
  rewrite mult_IZR in Hp. rewrite minus_IZR in H1. rewrite !plus_IZR in H2.
  set (T := IZR (2 ^ n)) in *. set (a := IZR A) in *. set (q := IZR (Zpos p)) in *.
  assert (B1 : ((a - T) * s <= q * s)%R) by (apply Rmult_le_compat_r; lra).
  assert (B2 : ((q + 1) * s <= (a + T) * s)%R) by (apply Rmult_le_compat_r; lra).
  assert (B3 : (T * 4503599627370496 * s <= q * s)%R) by (apply Rmult_le_compat_r; lra).
  unfold u52. split; lra.
Qed.

Lemma size_53_bounds (m : positive) :
  Zpos (Pos.size m) = 53 -> 2 ^ 52 <= Zpos m < 2 ^ 53.
Proof. intro H. pose proof (size_bounds m) as B. rewrite H in B. exact B. Qed.

Theorem mul_rel (f g : float) (mx my : positive) (ex ey : Z) :
  nrepr f mx ex -> nrepr g my ey -> -1126 <= ex + ey <= 916 ->
  exists m e,
    nrepr (f * g) m e /\ ex + ey + 52 <= e <= ex + ey + 54 /\
    (val mx ex * val my ey * (1 - u52) <= val m e <= val mx ex * val my ey * (1 + u52))%R.
Proof.
  intros [Ef Sf] [Eg Sg] He.
  pose proof (size_53_bounds mx Sf) as Bx. pose proof (size_53_bounds my Sg) as By.
  change (2 ^ 52) with 4503599627370496 in *.
  change (2 ^ 53) with 9007199254740992 in *.
  assert (Bp : 2 ^ 104 <= Zpos (mx * my) < 2 ^ 106).
  { rewrite Pos2Z.inj_mul.
    change (2 ^ 104) with (4503599627370496 * 4503599627370496).
    change (2 ^ 106) with (9007199254740992 * 9007199254740992). nia. }
  assert (Sp : Zpos (Pos.size (mx * my)) = 105 \/ Zpos (Pos.size (mx * my)) = 106).
  { destruct (Z_lt_le_dec (Zpos (mx * my)) (2 ^ 105)).
    - left. apply size_unique. lia.
    - right. apply size_unique. lia. }
  pose proof (size_bounds (mx * my)) as [Sl _].
  destruct (binary_round_aux_near (mx * my) (ex + ey) loc_Exact)
    as (m & e & E & Sm & Be & V1 & V2); try lia.
  exists m, e. split; [split; [ | assumption] | split; [lia | ]].
  - rewrite mul_spec, Ef, Eg. exact E.
  - apply (near_val (mx * my) m (ex + ey) e (Zpos (Pos.size (mx * my)) - 53));
      try lia.
    + replace (Zpos (Pos.size (mx * my)) - 53 + 52)
        with (Zpos (Pos.size (mx * my)) - 1) by lia. assumption.
    + unfold val. rewrite Pos2Z.inj_mul, mult_IZR, powerRZ_add by lra.
      pose proof (powerRZ_2_pos ex). pose proof (powerRZ_2_pos ey).
      assert (0 < powerRZ 2 ex * powerRZ 2 ey)%R by (now apply Rmult_lt_0_compat).
      split; [right; ring | ].
      rewrite Rmult_plus_distr_r. lra.
Qed.

Lemma SFdiv_core_53 (mx my : positive) (ex ey : Z) :
  Zpos (Pos.size mx) = 53 -> Zpos (Pos.size my) = 53 -> -1074 <= ex - ey - 53 ->
  exists q r l,
    SFdiv_core_binary prec emax (Zpos mx) ex (Zpos my) ey = (Zpos q, ex - ey - 53, l) /\
    Zpos mx * 2 ^ 53 = Zpos my * Zpos q + r /\ 0 <= r < Zpos my /\
    2 ^ 52 <= Zpos q < 2 ^ 54.
Proof.
  intros Sx Sy He.
  pose proof (size_53_bounds mx Sx) as Bx. pose proof (size_53_bounds my Sy) as By.
  assert (E : SFdiv_core_binary prec emax (Zpos mx) ex (Zpos my) ey =
              let '(q, r) := Z.div_eucl (Zpos mx * 2 ^ 53) (Zpos my) in
              (q, ex - ey - 53, new_location (Zpos my) r)).
  { unfold SFdiv_core_binary. cbn [Zdigits2].
    rewrite (digits2_size mx), (digits2_size my), Sx, Sy, fexp_53.
    rewrite Z.min_l by lia.
    replace (Z.max (53 + ex - (53 + ey) - 53) (-1074)) with (ex - ey - 53) by lia.
    replace (ex - ey - (ex - ey - 53)) with 53 by lia.
    rewrite Z.shiftl_mul_pow2 by lia. reflexivity. }
  rewrite E. clear E.
  pose proof (Z_div_mod (Zpos mx * 2 ^ 53) (Zpos my) eq_refl) as D.
  destruct (Z.div_eucl (Zpos mx * 2 ^ 53) (Zpos my)) as [q r].
  destruct D as [D1 D2].
  change (2 ^ 52) with 4503599627370496 in *.
  change (2 ^ 53) with 9007199254740992 in *.
  change (2 ^ 54) with 18014398509481984 in *.
  assert (Bq : 4503599627370496 <= q < 18014398509481984) by nia.
  destruct q as [ | q | q]; try lia.
  exists q, r, (new_location (Zpos my) r). repeat split; try lia.
Qed.

Theorem div_rel (f g : float) (mx my : positive) (ex ey : Z) :
  nrepr f mx ex -> nrepr g my ey -> -1021 <= ex - ey <= 1022 ->
  exists m e,
    nrepr (f / g) m e /\ ex - ey - 53 <= e <= ex - ey - 51 /\
    (val mx ex / val my ey * (1 - u52) <= val m e <= val mx ex / val my ey * (1 + u52))%R.
Proof.
  intros [Ef Sf] [Eg Sg] He.
  destruct (SFdiv_core_53 mx my ex ey Sf Sg) as (q & r & l & E & D & Br & Bq); [lia | ].
  assert (Sq : Zpos (Pos.size q) = 53 \/ Zpos (Pos.size q) = 54).
  { destruct (Z_lt_le_dec (Zpos q) (2 ^ 53)).
    - left. apply size_unique. lia.
    - right. apply size_unique. lia. }
  pose proof (size_bounds q) as [Sl _].
  destruct (binary_round_aux_near q (ex - ey - 53) l)
    as (m & e & E' & Sm & Be & V1 & V2); try lia.
  exists m, e. split; [split; [ | assumption] | split; [lia | ]].
  - rewrite div_spec, Ef, Eg. unfold SF64div, SFdiv. rewrite E. exact E'.
  - apply (near_val q m (ex - ey - 53) e (Zpos (Pos.size q) - 53)); try lia.
    + replace (Zpos (Pos.size q) - 53 + 52) with (Zpos (Pos.size q) - 1) by lia.
      assumption.
    + unfold val.
      pose proof (powerRZ_2_pos ex) as Px. pose proof (powerRZ_2_pos ey) as Py.
      assert (Hy : (0 < IZR (Zpos my))%R) by (apply IZR_lt; lia).
      replace (powerRZ 2 (ex - ey - 53))
        with (powerRZ 2 ex / powerRZ 2 ey / IZR (2 ^ 53))%R.
      2:{ rewrite IZR_pow2 by lia.
          replace (ex - ey - 53) with (ex + (- ey + - (53))) by lia.
          rewrite !powerRZ_add, !powerRZ_neg' by lra.
          pose proof (powerRZ_2_pos 53). field. split; lra. }
      apply (f_equal IZR) in D. rewrite plus_IZR, !mult_IZR in D.
      assert (Hr : (0 <= IZR r < IZR (Zpos my))%R)
        by (split; [apply IZR_le | apply IZR_lt]; lia).
      assert (H53 : (0 < IZR (2 ^ 53))%R) by (apply IZR_lt; reflexivity).
      set (a := IZR (Zpos mx)) in *. set (b := IZR (Zpos my)) in *.
      set (c := IZR (Zpos q)) in *. set (t := IZR (2 ^ 53)) in *.
      set (sx := powerRZ 2 ex) in *. set (sy := powerRZ 2 ey) in *.
      assert (Ea : (a * sx / (b * sy) = (c + IZR r / b) * (sx / sy / t))%R).
      { replace a with ((b * c + IZR r) / t)%R by (rewrite <- D; field; lra).
        field. repeat split; lra. }
      rewrite Ea.
      assert (Hs : (0 < sx / sy / t)%R).
      { apply Rdiv_lt_0_compat; [apply Rdiv_lt_0_compat | ]; assumption. }
      assert (Hf : (0 <= IZR r / b < 1)%R).
      { split.
        - apply Rmult_le_pos; [lra | left; now apply Rinv_0_lt_compat].
        - apply Rmult_lt_reg_r with b; [assumption | ].
          unfold Rdiv. rewrite Rmult_assoc, Rinv_l by lra. lra. }
      split; apply Rmult_le_compat_r; lra.
Qed.

Lemma of_int_rel (k : Z) (m : positive) (e : Z) :
  0 < k < 2 ^ 53 -> nrepr (JS.of_int k) m e ->
  -52 <= e <= 0 /\ val m e = IZR k.
Proof.
  intros Hk [E S].
  assert (Hs : safe k) by (unfold safe; lia).
  rewrite (of_int_spec k Hs) in E.
  destruct (Z2SF_finite k) as (m' & e' & E' & Be & Hm & _); [lia | assumption | ].
  rewrite E' in E. injection E as _ <- <-.
  split; [assumption | ].
  unfold val. rewrite Hm, mult_IZR, IZR_pow2 by lia.
  replace (Z.abs k) with k by lia.
  rewrite Rmult_assoc, <- powerRZ_add by lra.
  replace (- e' + e') with 0 by lia. cbn [powerRZ]. ring.
Qed.

Lemma of_int_nrepr (k : Z) :
  0 < k < 2 ^ 53 -> exists m e, nrepr (JS.of_int k) m e.
Proof.
  intro Hk. assert (Hs : safe k) by (unfold safe; lia).
  destruct (Z2SF_finite k) as (m & e & E & _ & _ & S); [lia | assumption | ].
  exists m, e. split; [ | assumption].
  rewrite (of_int_spec k Hs), E. now replace (k <? 0) with false by (symmetry; apply Z.ltb_ge; lia).
Qed.

(** ** Signs of quotients and products *)

Lemma nonneg_iff (x : float) : (0 <=? x)%float = true <-> nonneg_sf (Prim2SF x).
Proof.
  rewrite leb_spec. change (Prim2SF 0) with (S754_zero false).
  destruct (Prim2SF x) as [s | [ | ] | | [ | ] m e]; cbn; intuition discriminate.
Qed.

Lemma signed_false_nonneg (x : spec_float) : signed false x -> nonneg_sf x.
Proof. destruct x as [s | s | | s m e]; cbn; intro H; subst; auto. Qed.

Lemma nonneg_num (x : spec_float) : nonneg_sf x -> is_num x.
Proof. destruct x as [s | [ | ] | | [ | ] m e]; cbn; auto. Qed.

Lemma SFdiv_nonneg (x : spec_float) (m : positive) (e : Z) :
  nonneg_sf x -> nonneg_sf (SF64div x (S754_finite false m e)).
Proof.
  destruct x as [s | [ | ] | | [ | ] mx ex]; cbn [nonneg_sf]; intro H;
    try contradiction; unfold SF64div, SFdiv; try exact I.
  pose proof (SFdiv_core_nonneg mx m ex e) as Hq.
  destruct (SFdiv_core_binary prec emax (Zpos mx) ex (Zpos m) e) as [[mz ez] lz].
  cbn [fst] in Hq. apply signed_false_nonneg. now apply binary_round_aux_signed.
Qed.

Lemma SFmul_nonneg (x : spec_float) (m : positive) (e : Z) :
  nonneg_sf x -> nonneg_sf (SF64mul x (S754_finite false m e)).
Proof.
  destruct x as [s | [ | ] | | [ | ] mx ex]; cbn [nonneg_sf]; intro H;
    try contradiction; unfold SF64mul, SFmul; try exact I.
  apply signed_false_nonneg. apply binary_round_aux_signed. lia.
Qed.

Lemma SFmul_num (x : spec_float) (s : bool) (m : positive) (e : Z) :
  is_num x -> is_num (SF64mul x (S754_finite s m e)).
Proof.
  destruct x as [sx | sx | | sx mx ex]; cbn [is_num]; intro H;
    try contradiction; unfold SF64mul, SFmul; try exact I.
  eapply signed_num. apply binary_round_aux_signed. lia.
Qed.

Lemma mul_num (x c : float) :
  is_finite_nonzero c = true -> fnum x -> fnum (x * c).
Proof.
  unfold is_finite_nonzero, fnum. intros Hc Hx. rewrite mul_spec.
  destruct (Prim2SF c) as [ | | | s m e]; try discriminate.
  now apply SFmul_num.
Qed.

Lemma of_int_nonneg (z : Z) : 0 <= z -> nonneg_sf (Prim2SF (JS.of_int z)).
Proof.
  intro Hz. destruct z as [ | p | p]; try lia; cbn [JS.of_int]; [exact I | ].
  rewrite of_uint63_spec.
  pose proof (Uint63.to_Z_bounded (Uint63.of_Z (Zpos p))) as [B _].
  destruct (Uint63.to_Z (Uint63.of_Z (Zpos p))) as [ | q | q]; try lia;
    cbn [binary_normalize]; [exact I | ].
  apply signed_false_nonneg, binary_round_signed.
Qed.

Lemma Math_floor_nonneg (x : float) :
  nonneg_sf (Prim2SF x) -> nonneg_sf (Prim2SF (JS.Math_floor x)).
Proof.
  intro Hx. unfold JS.Math_floor.
  destruct (Prim2SF x) as [s | s | | s m e] eqn:E; try (rewrite E; assumption).
  destruct (0 <=? e); [rewrite E; assumption | ].
  destruct (JS.is_integral m e); [rewrite E; assumption | ].
  destruct s; [contradiction | ].
  apply of_int_nonneg. unfold JS.int_part. apply Z.shiftr_nonneg. lia.
Qed.

(** [Math.min(100, y)] is at most [100] unless [y] is [NaN], and is not
    negative when [y] is not. *)
Lemma Math_min_100 (y : float) :
  fnum y ->
  (JS.Math_min 100 y <=? 100)%float = true /\
  (nonneg_sf (Prim2SF y) -> (0 <=? JS.Math_min 100 y)%float = true).
Proof.
  intro Hy. unfold JS.Math_min.
  assert (H1 : is_nan 100 = false) by reflexivity.
  apply is_nan_fnum in Hy as Hn. rewrite H1, Hn. cbn [orb].
  destruct (100 <? y)%float eqn:L; [split; reflexivity | ].
  assert (Le : (y <=? 100)%float = true) by (apply not_ltb_leb; [exact I | exact Hy | exact L]).
  destruct (y <? 100)%float; split; try assumption; try (intro; now apply nonneg_iff).
Qed.

(** ** Ordered floats as ordered reals *)

Lemma nrepr_F2R (f : float) (m : positive) (e : Z) : nrepr f m e -> F2R f = val m e.
Proof. intros [E _]. unfold F2R. now rewrite E. Qed.

Lemma powerRZ_2_mono (a b : Z) : a <= b -> (powerRZ 2 a <= powerRZ 2 b)%R.
Proof.
  intro H. replace b with (a + (b - a)) by lia. rewrite powerRZ_add by lra.
  rewrite <- (IZR_pow2 (b - a)) by lia.
  pose proof (powerRZ_2_pos a).
  assert (1 <= IZR (2 ^ (b - a)))%R.
  { apply IZR_le. assert (0 < 2 ^ (b - a)) by (apply Z.pow_pos_nonneg; lia). lia. }
  rewrite <- (Rmult_1_r (powerRZ 2 a)) at 1.
  apply Rmult_le_compat_l; lra.
Qed.

Lemma val_le (m1 m2 : positive) (e1 e2 : Z) :
  Zpos (Pos.size m1) = 53 -> Zpos (Pos.size m2) = 53 ->
  e1 < e2 \/ (e1 = e2 /\ Zpos m1 <= Zpos m2) ->
  (val m1 e1 <= val m2 e2)%R.
Proof.
  intros S1 S2 H. unfold val.
  pose proof (size_53_bounds m1 S1) as [_ B1]. pose proof (size_53_bounds m2 S2) as [B2 _].
  pose proof (powerRZ_2_pos e1) as P1. pose proof (powerRZ_2_pos e2) as P2.
  destruct H as [L | [-> L]].
  - apply Rle_trans with (IZR (2 ^ 53) * powerRZ 2 e1)%R.
    + apply Rmult_le_compat_r; [lra | apply IZR_le; lia].
    + apply Rle_trans with (IZR (2 ^ 52) * powerRZ 2 e2)%R.
      * rewrite !IZR_pow2, <- !powerRZ_add by (lia || lra).
        apply powerRZ_2_mono. lia.
      * apply Rmult_le_compat_r; [lra | now apply IZR_le].
  - apply Rmult_le_compat_r; [lra | now apply IZR_le].
Qed.

(** A float between two normal positive numbers is one, and its value lies
    between theirs. *)
Lemma between_normal (lo hi x : float) (ml mh : positive) (el eh : Z) :
  nrepr lo ml el -> nrepr hi mh eh -> -1074 < el ->
  (lo <=? x)%float = true -> (x <=? hi)%float = true ->
  exists m e, nrepr x m e /\ el <= e <= eh /\
              (val ml el <= val m e <= val mh eh)%R.
Proof.
  intros [El Sl] [Eh Sh] Hel L U.
  destruct (leb_fnum _ _ L) as [Nl Nx]. destruct (leb_fnum _ _ U) as [_ Nh].
  apply leb_key in L; try assumption. apply leb_key in U; try assumption.
  unfold fkey in L, U. rewrite El in L. rewrite Eh in U.
  pose proof (Prim2SF_valid x) as V.
  destruct (Prim2SF x) as [s | [ | ] | | [ | ] m e] eqn:E; cbn in L, U; try lia.
  assert (S : Zpos (Pos.size m) = 53).
  { cbn [SpecFloat.valid_binary] in V.
    unfold SpecFloat.bounded, SpecFloat.canonical_mantissa in V.
    rewrite fexp_53, digits2_size in V. apply andb_prop in V as [V _].
    apply Z.eqb_eq in V. lia. }
  exists m, e. split; [split; [exact E | exact S] | ]. split; [lia | ].
  split; apply val_le; try assumption; lia.
Qed.

End F64Facts.

(** * The claims *)

(** ** Percentages of income *)

Lemma incomeAmount_cases (income : option Income) :
  incomeAmount income = 0 \/ is_zero (incomeAmount income) = false.
Proof.
  destruct income as [i | ]; [ | now left].
  unfold incomeAmount, JS.opt_member, JS.or_else, JS.ToBoolean.
  destruct (is_nan (income_amount i)); [now left | ].
  destruct (is_zero (income_amount i)) eqn:Z; [now left | right; exact Z].
Qed.

Lemma percentOf_zero_income (x incomeAmount : JS.number) :
  incomeAmount = 0 \/ is_zero incomeAmount = false ->
  (incomeAmount =? 0) = true -> percentOf x incomeAmount = 0.
Proof.
  intros [-> | Hz] H.
  - reflexivity.
  - unfold is_zero in Hz. change zero with 0 in Hz. congruence.
Qed.

(** C4. Whenever [incomeAmount == 0] (the income is absent, or its amount is
    zero), the dashboard reports [percentOfIncome = 0] and
    [savingsPercentOfIncome = 0] for every list of expenses: the conditional
    takes its literal [0] branch, and no quotient by [incomeAmount] is
    formed. *)
Theorem C4_zero_income_percentages
    (format : Date -> string -> string) (month now : Date)
    (income : option Income) (expenses previousMonthExpenses : list Expense)
    (savingsGoal : option SavingsGoal) :
  (incomeAmount income =? 0) = true ->
  percentOfIncome income expenses = 0 /\
  savingsPercentOfIncome income expenses = 0 /\
  exists p,
    dashboard format month income expenses previousMonthExpenses savingsGoal now = Json p /\
    p_percentOfIncome p = 0 /\ savings_percentOfIncome p = 0.
Proof.
  intro H.
  assert (P1 : percentOfIncome income expenses = 0)
    by (apply percentOf_zero_income; [apply incomeAmount_cases | exact H]).
  assert (P2 : savingsPercentOfIncome income expenses = 0)
    by (apply percentOf_zero_income; [apply incomeAmount_cases | exact H]).
  repeat split; try assumption.
  unfold dashboard, dashboardBody, goalProgress.
  destruct savingsGoal as [g | ]; cbn [JS.is_object JS.member JS.bind];
    eexists; (split; [reflexivity | ]); cbn [p_percentOfIncome savings_percentOfIncome];
    split; assumption.
Qed.

Lemma C4_zero_income_percentages_witness :
  percentOfIncome (Some (sample_income 0)) [sample_expense Food 800] = 0 /\
  savingsPercentOfIncome (Some (sample_income 0)) [sample_expense Food 800] = 0 /\
  exists p,
    dashboard sample_format 0%Z (Some (sample_income 0)) [sample_expense Food 800] []
      None 0%Z = Json p /\
    p_percentOfIncome p = 0 /\ savings_percentOfIncome p = 0.
Proof.
  apply (C4_zero_income_percentages sample_format 0%Z 0%Z
           (Some (sample_income 0)) [sample_expense Food 800] [] None).
  reflexivity.
Defined.

(** ** Goal pacing *)

Lemma valid_time_safe (t : Date) : valid_time t -> F64.safe t.
Proof.
  unfold valid_time, max_time, F64.safe. intro H.
  apply Z.le_lt_trans with 8640000000000000%Z; [lia | reflexivity].
Qed.




(** C6. Scenario 3: a goal of 12000, net savings of 1000 this month and a
    deadline exactly 90 days after [now] give [monthsLeft = 3],
    [monthlySavingsNeeded = (12000 - 1000) / 3], which is 3666.67 to two
    decimal places, and [onTrack = false]. In general [onTrack] is the test
    [netSavings >= monthlySavingsNeeded]. *)
Theorem C6_scenario_ninety_days
    (format : Date -> string -> string) (g : SavingsGoal) (now : Date) :
  valid_time now -> valid_time (deadline g) ->
  targetAmount g = 12000 ->
  deadline g = (now + 90 * 86400000)%Z ->
  (exists gp,
      goalProgress format (Some g) 1000 now = JS.Normal (Some gp) /\
      monthsLeft (deadline g) now = 3 /\
      gp_daysLeft gp = 90 /\
      gp_monthlySavingsNeeded gp = (12000 - 1000) / 3 /\
      JS.parseFloat_toFixed2 (gp_monthlySavingsNeeded gp) = 3666.67 /\
      onTrack gp = false) /\
  (forall (g' : SavingsGoal) (netSavings : JS.number) (now' : Date),
      onTrack (goalBlock format g' netSavings now') = true <->
      (monthlySavingsNeeded netSavings (targetAmount g') (deadline g') now'
         <=? netSavings) = true).
Proof.
  intros Hn Hd Ht Hdl. split; [ | intros; reflexivity].
  assert (Hdays : daysLeft (deadline g) now = 90).
  { unfold daysLeft, getTime. rewrite F64Facts.sub_of_int.
    - rewrite Hdl. replace (now + 90 * 86400000 - now)%Z with 7776000000%Z by lia.
      reflexivity.
    - now apply valid_time_safe.
    - now apply valid_time_safe.
    - rewrite Hdl. replace (now + 90 * 86400000 - now)%Z with 7776000000%Z by lia.
      reflexivity. }
  assert (Hm : monthsLeft (deadline g) now = 3)
    by (unfold monthsLeft; rewrite Hdays; reflexivity).
  eexists. split; [reflexivity | ].
  cbn [goalBlock gp_daysLeft gp_monthlySavingsNeeded onTrack].
  unfold monthlySavingsNeeded. rewrite Hm, Hdays, Ht.
  repeat split; reflexivity.
Qed.

Lemma C6_scenario_ninety_days_witness :
  (exists gp,
      goalProgress sample_format
        (Some (sample_goal 12000 (1700000000000 + 90 * 86400000)%Z)) 1000
        1700000000000%Z = JS.Normal (Some gp) /\
      monthsLeft (1700000000000 + 90 * 86400000)%Z 1700000000000%Z = 3 /\
      gp_daysLeft gp = 90 /\
      gp_monthlySavingsNeeded gp = (12000 - 1000) / 3 /\
      JS.parseFloat_toFixed2 (gp_monthlySavingsNeeded gp) = 3666.67 /\
      onTrack gp = false) /\
  (forall (g' : SavingsGoal) (netSavings : JS.number) (now' : Date),
      onTrack (goalBlock sample_format g' netSavings now') = true <->
      (monthlySavingsNeeded netSavings (targetAmount g') (deadline g') now'
         <=? netSavings) = true).
Proof.
  apply (C6_scenario_ninety_days sample_format
           (sample_goal 12000 (1700000000000 + 90 * 86400000)%Z) 1700000000000%Z).
  - unfold valid_time, max_time. lia.
  - unfold valid_time, max_time. simpl. lia.
  - reflexivity.
  - reflexivity.
Defined.

(** ** Totality *)


(** ** Grouping by category and the highest category *)














(** The payload the handler sends: its body never throws. *)
Lemma dashboard_payload
    (format : Date -> string -> string) (month now : Date)
    (income : option Income) (expenses previousMonthExpenses : list Expense)
    (savingsGoal : option SavingsGoal) :
  dashboard format month income expenses previousMonthExpenses savingsGoal now =
  Json {| month_label := format month "MMMM yyyy"%string;
          p_incomeAmount := incomeAmount income;
          p_updatedAt := JS.opt_member income updatedAt;
          p_total := totalExpenses expenses;
          p_percentOfIncome := percentOfIncome income expenses;
          categoriesCount := List.length (expensesByCategory expenses);
          p_highestCategory := highestCategory expenses;
          p_highestAmount := highestAmount expenses;
          byCategory := expensesByCategory expenses;
          savings_amount := netSavings income expenses;
          savings_percentOfIncome := savingsPercentOfIncome income expenses;
          trend := savingsTrend income expenses previousMonthExpenses;
          monthlyAverage := netSavings income expenses;
          goal := match savingsGoal with
                  | Some g => Some (goalBlock format g (netSavings income expenses) now)
                  | None => None
                  end |}.
Proof. destruct savingsGoal; reflexivity. Qed.



(** ** Whole-number amounts

    A binary64 number that is a safe non-negative integer; sums and
    differences of such numbers are exact while they stay safe. *)

Lemma zsum_nonneg (es : list Expense) (ks : list Z) :
  Forall2 (fun e k => whole (amount e) k) es ks -> (0 <= zsum ks)%Z.
Proof.
  induction 1 as [ | e k es ks [Hk _] _ IH]; cbn [zsum fold_right]; [lia | ].
  fold (zsum ks). lia.
Qed.

Lemma safe_nonneg (z : Z) : (0 <= z < 2 ^ 53)%Z -> F64.safe z.
Proof. unfold F64.safe. lia. Qed.

Lemma sumAmounts_whole_from (es : list Expense) (ks : list Z) (s : Z) :
  Forall2 (fun e k => whole (amount e) k) es ks ->
  (0 <= s)%Z -> (s + zsum ks < 2 ^ 53)%Z ->
  fold_left (fun sum e => sum + amount e) es (JS.of_int s) = JS.of_int (s + zsum ks).
Proof.
  intro H. revert s.
  induction H as [ | e k es ks [Hk Ek] Hr IH]; intros s Hs Hb;
    cbn [fold_left zsum fold_right] in *.
  - f_equal. lia.
  - fold (zsum ks) in *. pose proof (zsum_nonneg es ks Hr).
    rewrite Ek, F64Facts.add_of_int by (apply safe_nonneg; lia).
    rewrite IH by lia. f_equal. lia.
Qed.

Lemma sumAmounts_whole (es : list Expense) (ks : list Z) :
  Forall2 (fun e k => whole (amount e) k) es ks -> (zsum ks < 2 ^ 53)%Z ->
  sumAmounts es = JS.of_int (zsum ks).
Proof.
  intros H Hb. unfold sumAmounts.
  change 0 with (JS.of_int 0). now rewrite (sumAmounts_whole_from es ks 0 H).
Qed.

Lemma of_int_falsy (z : Z) :
  F64.safe z -> JS.ToBoolean (JS.of_int z) = false -> z = 0%Z.
Proof.
  intros Hz T. destruct (Z.eq_dec z 0) as [ | Nz]; [assumption | exfalso].
  unfold JS.ToBoolean in T.
  replace (is_nan (JS.of_int z)) with false in T
    by (symmetry; apply F64Facts.is_nan_fnum, F64Facts.of_int_num).
  unfold is_zero in T. rewrite eqb_spec, F64Facts.of_int_spec in T by assumption.
  destruct (F64Facts.Z2SF_finite z Nz Hz) as (m & e & E & _). rewrite E in T.
  change (Prim2SF zero) with (S754_zero false) in T.
  destruct (z <? 0)%Z; discriminate.
Qed.

Lemma or_else_of_int (z : Z) :
  F64.safe z -> JS.or_else (JS.of_int z) 0 = JS.of_int z.
Proof.
  intro Hz. unfold JS.or_else.
  destruct (JS.ToBoolean (JS.of_int z)) eqn:T; [reflexivity | ].
  now rewrite (of_int_falsy z Hz T).
Qed.

Lemma incomeAmount_whole (income : option Income) (i : Z) :
  income_whole income i -> (i < 2 ^ 53)%Z ->
  (0 <= i)%Z /\ incomeAmount income = JS.of_int i.
Proof.
  destruct income as [inc | ]; cbn [income_whole incomeAmount JS.opt_member].
  - intros [Hi E] Hb. split; [assumption | ].
    rewrite E. apply or_else_of_int, safe_nonneg. lia.
  - intros -> _. split; [lia | reflexivity].
Qed.

(** C10, amended. When the income and every expense amount are whole
    numbers and the income and both totals are safe integers, no subtraction
    rounds: [savingsTrend] is [previousTotalExpenses - totalExpenses], and
    the income, used for both months, has no effect on it. *)
Theorem C10_trend_whole_amounts
    (income : option Income) (expenses previousMonthExpenses : list Expense)
    (i : Z) (ks js : list Z) :
  income_whole income i -> (i < 2 ^ 53)%Z ->
  Forall2 (fun e k => whole (amount e) k) expenses ks -> (zsum ks < 2 ^ 53)%Z ->
  Forall2 (fun e k => whole (amount e) k) previousMonthExpenses js ->
  (zsum js < 2 ^ 53)%Z ->
  savingsTrend income expenses previousMonthExpenses =
    previousTotalExpenses previousMonthExpenses - totalExpenses expenses /\
  savingsTrend income expenses previousMonthExpenses =
    savingsTrend None expenses previousMonthExpenses.
Proof.
  intros Hi Bi Hk Bk Hj Bj.
  destruct (incomeAmount_whole income i Hi Bi) as [Pi Ei].
  pose proof (zsum_nonneg _ _ Hk) as Pk. pose proof (zsum_nonneg _ _ Hj) as Pj.
  assert (T : forall (inc : option Income) (n : Z),
             (0 <= n < 2 ^ 53)%Z -> incomeAmount inc = JS.of_int n ->
             savingsTrend inc expenses previousMonthExpenses =
             JS.of_int (zsum js - zsum ks)).
  { intros inc n Hn En.
    unfold savingsTrend, netSavings, previousNetSavings,
      totalExpenses, previousTotalExpenses.
    rewrite En, (sumAmounts_whole _ _ Hk Bk), (sumAmounts_whole _ _ Hj Bj).
    rewrite !F64Facts.sub_of_int by (unfold F64.safe; lia).
    f_equal. lia. }
  rewrite (T income i) by (try assumption; lia).
  rewrite (T None 0%Z) by (try reflexivity; lia).
  split; [ | reflexivity].
  unfold totalExpenses, previousTotalExpenses.
  rewrite (sumAmounts_whole _ _ Hk Bk), (sumAmounts_whole _ _ Hj Bj).
  rewrite F64Facts.sub_of_int by (unfold F64.safe; lia). reflexivity.
Qed.

Lemma C10_trend_whole_amounts_witness :
  savingsTrend (Some (sample_income 5000))
    [sample_expense Food 800; sample_expense Rent 1500] [sample_expense Food 700] =
  previousTotalExpenses [sample_expense Food 700] -
  totalExpenses [sample_expense Food 800; sample_expense Rent 1500] /\
  savingsTrend (Some (sample_income 5000))
    [sample_expense Food 800; sample_expense Rent 1500] [sample_expense Food 700] =
  savingsTrend None
    [sample_expense Food 800; sample_expense Rent 1500] [sample_expense Food 700].
Proof.
  apply (C10_trend_whole_amounts (Some (sample_income 5000))
           [sample_expense Food 800; sample_expense Rent 1500]
           [sample_expense Food 700] 5000%Z [800; 1500]%Z [700]%Z).
  - split; [lia | reflexivity].
  - reflexivity.
  - repeat constructor; lia.
  - reflexivity.
  - repeat constructor; lia.
  - reflexivity.
Defined.

(** With fractional amounts the subtractions round, and the income shows in
    the trend: an income of 5000.1 against none, for expenses of 0.1 this
    month and 0.2 the month before. *)
Lemma C10_counterexample :
  let expenses := [sample_expense Food 0.1] in
  let previousMonthExpenses := [sample_expense Food 0.2] in
  savingsTrend (Some (sample_income 5000.1)) expenses previousMonthExpenses
    = 0.099999999999454303 /\
  previousTotalExpenses previousMonthExpenses - totalExpenses expenses = 0.1 /\
  savingsTrend None expenses previousMonthExpenses = 0.1 /\
  (savingsTrend (Some (sample_income 5000.1)) expenses previousMonthExpenses
     =? previousTotalExpenses previousMonthExpenses - totalExpenses expenses) = false.
Proof. repeat split. Qed.










(** ** Currency conversion *)

Lemma hundredths_nearest (m : positive) (e : Z) :
  (0 <= JS.hundredths m e)%Z /\ nearest_hundredth m e (JS.hundredths m e).
Proof.
  unfold JS.hundredths, nearest_hundredth.
  destruct (Z.leb_spec 0 e) as [He | He].
  - rewrite Z.shiftl_mul_pow2 by assumption.
    assert (0 < 2 ^ e)%Z by (apply Z.pow_pos_nonneg; lia).
    split; [nia | left; split; [assumption | reflexivity]].
  - rewrite Z.shiftr_div_pow2, Z.shiftl_mul_pow2 by lia.
    replace (1 - e)%Z with (Z.succ (- e)) by lia.
    rewrite Z.pow_succ_r by lia. rewrite Z.mul_1_l.
    assert (P : (0 < 2 ^ (- e))%Z) by (apply Z.pow_pos_nonneg; lia).
    set (p := (2 ^ (- e))%Z) in *.
    pose proof (Z_div_mod_eq_full (200 * Zpos m + p) (2 * p)) as D.
    pose proof (Z.mod_pos_bound (200 * Zpos m + p) (2 * p)) as B.
    set (q := ((200 * Zpos m + p) / (2 * p))%Z) in *.
    split; [apply Z.div_pos; lia | right; split; [assumption | nia]].
Qed.

Lemma convertCurrency_same (amount : JS.number) (c : Currency) :
  convertCurrency amount c c = amount.
Proof. unfold convertCurrency. now destruct c. Qed.

Lemma convertCurrency_other (amount : JS.number) (fromCurrency toCurrency : Currency) :
  fromCurrency <> toCurrency ->
  convertCurrency amount fromCurrency toCurrency =
  JS.parseFloat_toFixed2 (amount * conversionRate fromCurrency toCurrency).
Proof.
  intro H. unfold convertCurrency.
  destruct fromCurrency, toCurrency; cbn [currency_eqb]; congruence.
Qed.

(** C8, amended. Between two different supported currencies,
    [convertCurrency] returns [parseFloat((amount * rate).toFixed(2))]: for a
    finite product below 1e21 that is the binary64 number nearest to
    [n / 100], with [n] the integer nearest to a hundred times the product,
    the sign apart. From a currency to itself the amount is returned as it
    is, not rounded. *)
Theorem C8_convert_rounds_between_currencies
    (amount : JS.number) (fromCurrency toCurrency : Currency) :
  (fromCurrency = toCurrency ->
   convertCurrency amount fromCurrency toCurrency = amount) /\
  (fromCurrency <> toCurrency ->
   convertCurrency amount fromCurrency toCurrency =
     JS.parseFloat_toFixed2 (amount * conversionRate fromCurrency toCurrency) /\
   forall s m e,
     Prim2SF (amount * conversionRate fromCurrency toCurrency) = S754_finite s m e ->
     (1e21 <=? abs (amount * conversionRate fromCurrency toCurrency)) = false ->
     exists n,
       (0 <= n)%Z /\ nearest_hundredth m e n /\
       convertCurrency amount fromCurrency toCurrency =
         if s then - JS.parse_hundredths n else JS.parse_hundredths n).
Proof.
  split.
  - intros ->. apply convertCurrency_same.
  - intro H. rewrite (convertCurrency_other _ _ _ H). split; [reflexivity | ].
    intros s m e E B. exists (JS.hundredths m e).
    destruct (hundredths_nearest m e) as [H0 H1].
    repeat split; try assumption.
    unfold JS.parseFloat_toFixed2. now rewrite E, B.
Qed.

Lemma C8_convert_rounds_between_currencies_witness :
  convertCurrency 12.34 USD USD = 12.34 /\
  convertCurrency 1.2345 USD LKR = 370.35 /\
  exists n,
    (0 <= n)%Z /\ nearest_hundredth 6515266101549465 (-44) n /\
    convertCurrency 1.2345 USD LKR = JS.parse_hundredths n.
Proof.
  destruct (C8_convert_rounds_between_currencies 1.2345 USD LKR) as [_ H].
  destruct H as [H1 H2]; [discriminate | ].
  destruct (C8_convert_rounds_between_currencies 12.34 USD USD) as [H3 _].
  split; [apply H3; reflexivity | ]. split; [reflexivity | ].
  apply (H2 false 6515266101549465%positive (-44)%Z); reflexivity.
Defined.

(** From a currency to itself nothing is rounded: 1.234 comes back as 1.234,
    while rounding it to two decimal places gives 1.23. *)
Lemma C8_counterexample :
  convertCurrency 1.234 USD USD = 1.234 /\
  JS.parseFloat_toFixed2 1.234 = 1.23 /\
  (convertCurrency 1.234 USD USD =? JS.parseFloat_toFixed2 (convertCurrency 1.234 USD USD))
    = false.
Proof. repeat split. Qed.

(** ** Percent complete *)

(** C1 at a month that ends in the red: no income, one expense of 500 and a
    goal of 1000. [saved = netSavings = -500], and
    [Math.min(100, Math.floor(-500 / 1000 * 100))] is [-50]: only the upper
    end of the interval is clamped. *)
Theorem C1_percentComplete_below_zero :
  netSavings None [sample_expense Food 500] = -500 /\
  percentComplete (-500) 1000 = -50 /\
  (percentComplete (-500) 1000 <? 0) = true /\
  exists p gp,
    dashboard sample_format 1700000000000%Z None [sample_expense Food 500] []
      (Some (sample_goal 1000 1800000000000%Z)) 1700000000000%Z = Json p /\
    goal p = Some gp /\ gp_percentComplete gp = -50.
Proof.
  repeat split. eexists. eexists. rewrite dashboard_payload. cbn [goal goalBlock].
  repeat split.
Qed.

(** With a positive finite target and a saved amount that is a number,
    [percentComplete] is never above [100]; and it is not below [0] when
    the saved amount is not. *)
Theorem percentComplete_range (saved targetAmount : JS.number) :
  (0 <? targetAmount)%float = true -> (targetAmount <? infinity)%float = true ->
  is_nan saved = false ->
  (percentComplete saved targetAmount <=? 100)%float = true /\
  ((0 <=? saved)%float = true -> (0 <=? percentComplete saved targetAmount)%float = true).
Proof.
  intros Ht Hf Hs. apply F64Facts.is_nan_fnum in Hs.
  assert (E : exists m e, Prim2SF targetAmount = S754_finite false m e).
  { apply F64Facts.fpos_iff in Ht. rewrite ltb_spec in Hf.
    change (Prim2SF infinity) with (S754_infinity false) in Hf.
    destruct (Prim2SF targetAmount) as [s | [ | ] | | [ | ] m e]; cbn in *;
      try contradiction; try discriminate. now exists m, e. }
  destruct E as (m & e & E).
  assert (Fn : F64.is_finite_nonzero targetAmount = true)
    by (unfold F64.is_finite_nonzero; now rewrite E).
  unfold percentComplete.
  set (y := JS.Math_floor (saved / targetAmount * 100)%float).
  assert (Hy : F64.fnum y).
  { apply F64Facts.Math_floor_num, F64Facts.mul_num; [reflexivity | ]. now apply F64Facts.div_num. }
  destruct (F64Facts.Math_min_100 y Hy) as [U L]. split; [exact U | ].
  intro Hp. apply L. apply F64Facts.Math_floor_nonneg.
  rewrite mul_spec, div_spec, E.
  change (Prim2SF 100) with (S754_finite false 7036874417766400 (-46)).
  apply F64Facts.SFmul_nonneg, F64Facts.SFdiv_nonneg. now apply F64Facts.nonneg_iff.
Qed.

Lemma percentComplete_range_witness :
  (percentComplete 1500 1000 <=? 100) = true /\
  (0 <=? percentComplete 1500 1000) = true.
Proof.
  destruct (percentComplete_range 1500 1000) as [U L]; try reflexivity.
  split; [exact U | apply L; reflexivity].
Defined.

(** ** Round trips through the currency table *)

Module RoundTrip.
Import F64 F64Facts.

Local Open Scope Z_scope.

Lemma hundredths_val (m : positive) (e N : Z) :
  (IZR N - / 2 <= 100 * val m e < IZR N + / 2)%R -> JS.hundredths m e = N.
Proof.
  intros [H1 H2]. destruct (hundredths_nearest m e) as [_ [[He En] | [He Bn]]].
  - rewrite En. unfold val in H1, H2. rewrite <- IZR_pow2 in H1, H2 by assumption.
    rewrite <- mult_IZR in H1, H2.
    set (t := Zpos m * 2 ^ e) in *. replace (100 * Zpos m * 2 ^ e) with (100 * t) by (unfold t; ring).
    assert (A1 : (IZR (2 * N - 1) <= IZR (2 * (100 * t)))%R)
      by (rewrite minus_IZR, !mult_IZR; lra).
    assert (A2 : (IZR (2 * (100 * t)) < IZR (2 * N + 1))%R)
      by (rewrite plus_IZR, !mult_IZR; lra).
    apply le_IZR in A1. apply lt_IZR in A2. lia.
  - set (n := JS.hundredths m e) in *.
    assert (P : 0 < 2 ^ (- e)) by (apply Z.pow_pos_nonneg; lia).
    unfold val in H1, H2.
    replace e with (- (- e)) in H1, H2 by lia.
    rewrite powerRZ_neg', <- IZR_pow2 in H1, H2 by lia.
    set (p := 2 ^ (- e)) in *.
    assert (Pr : (0 < IZR p)%R) by (apply IZR_lt; assumption).
    assert (A1 : (IZR ((2 * N - 1) * p) <= IZR (200 * Zpos m))%R).
    { rewrite !mult_IZR, minus_IZR, mult_IZR.
      apply Rmult_le_reg_r with (/ IZR p)%R; [now apply Rinv_0_lt_compat | ].
      rewrite Rmult_assoc, Rinv_r by lra. lra. }
    assert (A2 : (IZR (200 * Zpos m) < IZR ((2 * N + 1) * p))%R).
    { rewrite !mult_IZR, plus_IZR, mult_IZR.
      apply Rmult_lt_reg_r with (/ IZR p)%R; [now apply Rinv_0_lt_compat | ].
      rewrite (Rmult_assoc _ (IZR p)), Rinv_r by lra. lra. }
    apply le_IZR in A1. apply lt_IZR in A2. nia.
Qed.

Lemma toFixed2_small (f : float) (m : positive) (e : Z) :
  nrepr f m e -> e <= 16 ->
  JS.parseFloat_toFixed2 f = JS.parse_hundredths (JS.hundredths m e).
Proof.
  intros [E _] He. unfold JS.parseFloat_toFixed2. rewrite E.
  replace (1e21 <=? abs f)%float with false; [reflexivity | ].
  rewrite leb_spec, abs_spec, E. cbn [SFabs].
  change (Prim2SF 1e21) with (S754_finite false 7629394531250000 17).
  unfold SFleb, SFcompare.
  replace (17 ?= e) with Gt by (symmetry; apply Z.compare_gt_iff; lia).
  reflexivity.
Qed.

Lemma parse_hundredths_safe (n : Z) :
  n < 2 ^ 53 -> JS.parse_hundredths n = (JS.of_int n / 100)%float.
Proof.
  intro H. unfold JS.parse_hundredths.
  now replace (n <? 2 ^ 53) with true by (symmetry; apply Z.ltb_lt; assumption).
Qed.

(** One conversion between different currencies whose rounded result is the
    numeral [N / 100]. *)
Lemma convert_leg (x c : float) (mx mc : positive) (ex ec N : Z) :
  nrepr x mx ex -> nrepr c mc ec ->
  -1126 <= ex + ec <= -38 -> 0 <= N < 2 ^ 53 ->
  (IZR N - / 2 <= 100 * (val mx ex * val mc ec * (1 - u52)))%R ->
  (100 * (val mx ex * val mc ec * (1 + u52)) < IZR N + / 2)%R ->
  JS.parseFloat_toFixed2 (x * c)%float = (JS.of_int N / 100)%float.
Proof.
  intros Hx Hc He HN L U.
  destruct (mul_rel x c mx mc ex ec Hx Hc) as (m & e & Hm & Be & Err); [lia | ].
  rewrite (toFixed2_small _ m e Hm) by lia.
  rewrite (hundredths_val m e N) by lra.
  apply parse_hundredths_safe. lia.
Qed.

Lemma cents_rel (k : Z) :
  0 < k < 2 ^ 53 ->
  exists m e, nrepr (cents k) m e /\ -59 <= e <= -5 /\
              (IZR k / 100 * (1 - u52) <= val m e <= IZR k / 100 * (1 + u52))%R.
Proof.
  intro Hk. destruct (of_int_nrepr k Hk) as (mk & ek & Nk).
  destruct (of_int_rel k mk ek Hk Nk) as [Bk Vk].
  assert (N100 : nrepr (JS.of_int 100) 7036874417766400 (-46)) by (split; reflexivity).
  destruct (of_int_rel 100 _ _ ltac:(split; reflexivity) N100) as [_ V100].
  destruct (div_rel (JS.of_int k) (JS.of_int 100) mk _ ek _ Nk N100)
    as (m & e & Hm & Be & Err); [lia | ].
  rewrite Vk, V100 in Err.
  exists m, e. split; [exact Hm | ]. split; [lia | exact Err].
Qed.

Lemma round_trip_rate (rate : float) (Rz : Z) (mr : positive) (k : Z) :
  Rz = 300 \/ Rz = 330 -> rate = JS.of_int Rz -> nrepr rate mr (-44) ->
  1 <= k <= 10 ^ 12 ->
  JS.parseFloat_toFixed2 (JS.parseFloat_toFixed2 (cents k * rate) * (1 / rate))%float
  = cents k.
Proof.
  intros HR Erate Nr Hk.
  assert (K53 : 10 ^ 12 * 330 < 2 ^ 53) by reflexivity.
  assert (Hk' : (1 <= IZR k <= 1000000000000)%R)
    by (split; apply IZR_le; [ | change 1000000000000 with (10 ^ 12)]; lia).
  assert (HRz : 0 < Rz < 2 ^ 53) by (destruct HR; subst Rz; split; reflexivity).
  assert (Vr : val mr (-44) = IZR Rz).
  { rewrite Erate in Nr. apply (of_int_rel Rz mr (-44) HRz Nr). }
  (* the inverse rate *)
  assert (N1 : nrepr (JS.of_int 1) 4503599627370496 (-52)) by (split; reflexivity).
  destruct (of_int_rel 1 _ _ ltac:(split; reflexivity) N1) as [_ V1].
  destruct (div_rel (JS.of_int 1) rate _ mr _ _ N1 Nr)
    as (mi & ei & Ni & Bi & Erri); [lia | ].
  rewrite V1, Vr in Erri.
  (* first leg *)
  destruct (cents_rel k) as (mx & ex & Nx & Bx & Vx); [lia | ].
  assert (L1 : JS.parseFloat_toFixed2 (cents k * rate)%float = cents (Rz * k)).
  { apply (convert_leg _ _ mx mr ex (-44)); try assumption; try lia.
    - rewrite Vr, mult_IZR. unfold u52 in *.
      destruct HR; subst Rz; lra.
    - rewrite Vr, mult_IZR. unfold u52 in *.
      destruct HR; subst Rz; lra. }
  rewrite L1.
  (* second leg *)
  destruct (cents_rel (Rz * k)) as (my & ey & Ny & By & Vy);
    [destruct HR; subst Rz; lia | ].
  rewrite mult_IZR in Vy.
  change (1 / rate)%float with (JS.of_int 1 / rate)%float.
  pose proof (val_pos my ey) as Py. pose proof (val_pos mi ei) as Pi.
  assert (P1 : (val my ey * val mi ei <= val my ey * (1 / IZR Rz * (1 + u52)))%R)
    by (apply Rmult_le_compat_l; lra).
  assert (P2 : (val my ey * (1 / IZR Rz * (1 - u52)) <= val my ey * val mi ei)%R)
    by (apply Rmult_le_compat_l; lra).
  apply (convert_leg _ _ my mi ey ei); try assumption; try lia.
  - unfold u52 in *. destruct HR; subst Rz; lra.
  - unfold u52 in *. destruct HR; subst Rz; lra.
Qed.

Lemma hundredths_real (m : positive) (e : Z) :
  (IZR (JS.hundredths m e) - / 2 <= 100 * val m e <= IZR (JS.hundredths m e) + / 2)%R.
Proof.
  destruct (hundredths_nearest m e) as [_ [[He En] | [He Bn]]].
  - rewrite En. unfold val. rewrite !mult_IZR, IZR_pow2 by assumption. lra.
  - set (n := JS.hundredths m e) in *.
    assert (P : 0 < 2 ^ (- e)) by (apply Z.pow_pos_nonneg; lia).
    assert (Ev : powerRZ 2 e = (/ IZR (2 ^ (- e)))%R).
    { rewrite IZR_pow2, <- powerRZ_neg' by lia. f_equal. lia. }
    unfold val. rewrite Ev.
    set (p := 2 ^ (- e)) in *.
    assert (Pr : (0 < IZR p)%R) by (apply IZR_lt; assumption).
    destruct Bn as [B1 B2].
    apply IZR_lt in B1. apply IZR_le in B2.
    rewrite opp_IZR in B1. rewrite minus_IZR, !mult_IZR in B1, B2.
    set (a := IZR (Zpos m)) in *. set (t := IZR p) in *. set (r := IZR n) in *.
    assert (Hinv : (0 < / t)%R) by now apply Rinv_0_lt_compat.
    assert (E1 : (100 * (a * / t) = (200 * a) * / t * / 2)%R) by (field; lra).
    assert (C1 : ((2 * r * t - t) * / t <= 200 * a * / t)%R)
      by (apply Rmult_le_compat_r; lra).
    assert (C2 : (200 * a * / t <= (2 * r * t + t) * / t)%R)
      by (apply Rmult_le_compat_r; lra).
    assert (E2 : ((2 * r * t - t) * / t = 2 * r - 1)%R) by (field; lra).
    assert (E3 : ((2 * r * t + t) * / t = 2 * r + 1)%R) by (field; lra).
    lra.
Qed.

Lemma val_001 : (1 / 100 <= val 5764607523034235 (-59))%R.
Proof.
  unfold val. cbn [powerRZ]. rewrite pow_IZR.
  change (2 ^ Z.of_nat (Pos.to_nat 59))%Z with 576460752303423488%Z. lra.
Qed.

Lemma val_1e10 : (val 5242880000000000 (-19) = 10000000000)%R.
Proof.
  unfold val. cbn [powerRZ]. rewrite pow_IZR.
  change (2 ^ Z.of_nat (Pos.to_nat 19))%Z with 524288%Z. lra.
Qed.

Lemma round_trip_near (rate : float) (Rz : Z) (mr : positive) (x : float) :
  Rz = 300 \/ Rz = 330 -> rate = JS.of_int Rz -> nrepr rate mr (-44) ->
  (0.01 <=? x)%float = true -> (x <=? 1e10)%float = true ->
  (Rabs (F2R (JS.parseFloat_toFixed2
                (JS.parseFloat_toFixed2 (x * rate) * (1 / rate))%float) - F2R x)
     <= 51 / 10000)%R.
Proof.
  intros HR Erate Nr Lo Hi.
  assert (HRz : 0 < Rz < 2 ^ 53) by (destruct HR; subst Rz; split; reflexivity).
  assert (Vr : val mr (-44) = IZR Rz).
  { rewrite Erate in Nr. apply (of_int_rel Rz mr (-44) HRz Nr). }
  (* the amount *)
  destruct (between_normal 0.01 1e10 x 5764607523034235 5242880000000000 (-59) (-19))
    as (mx & ex & Nx & Bx & Vx); try assumption; try (split; reflexivity); try lia.
  pose proof val_001 as V001. rewrite val_1e10 in Vx.
  rewrite (nrepr_F2R x mx ex Nx). set (X := val mx ex) in *.
  (* the inverse rate *)
  assert (N1 : nrepr (JS.of_int 1) 4503599627370496 (-52)) by (split; reflexivity).
  destruct (of_int_rel 1 _ _ ltac:(split; reflexivity) N1) as [_ V1].
  destruct (div_rel (JS.of_int 1) rate _ mr _ _ N1 Nr)
    as (mi & ei & Ni & Bi & Erri); [lia | ].
  rewrite V1, Vr in Erri.
  change (1 / rate)%float with (JS.of_int 1 / rate)%float.
  (* first conversion *)
  destruct (mul_rel x rate mx mr ex (-44) Nx Nr) as (m1 & e1 & Nm1 & Be1 & Err1); [lia | ].
  rewrite Vr in Err1. fold X in Err1.
  rewrite (toFixed2_small _ m1 e1 Nm1) by lia.
  pose proof (hundredths_real m1 e1) as H1.
  destruct (hundredths_nearest m1 e1) as [P1 _].
  set (n1 := JS.hundredths m1 e1) in *. set (W1 := val m1 e1) in *.
  assert (B1 : 1 <= n1 < 2 ^ 53).
  { unfold u52 in *. split.
    - apply Z.lt_pred_le. change (0 < n1). apply lt_IZR.
      destruct HR; subst Rz; lra.
    - apply lt_IZR. change (2 ^ 53) with 9007199254740992.
      destruct HR; subst Rz; lra. }
  rewrite (parse_hundredths_safe n1) by lia. fold (cents n1).
  destruct (cents_rel n1) as (my & ey & Ny & By & Vy); [lia | ].
  set (Y := val my ey) in *.
  (* second conversion *)
  destruct (mul_rel (cents n1) (JS.of_int 1 / rate) my mi ey ei Ny Ni)
    as (m2 & e2 & Nm2 & Be2 & Err2); [lia | ].
  fold Y in Err2.
  pose proof (val_pos my ey) as Py. fold Y in Py. pose proof (val_pos mi ei) as Pi.
  assert (Q1 : (Y * val mi ei <= Y * (1 / IZR Rz * (1 + u52)))%R)
    by (apply Rmult_le_compat_l; lra).
  assert (Q2 : (Y * (1 / IZR Rz * (1 - u52)) <= Y * val mi ei)%R)
    by (apply Rmult_le_compat_l; lra).
  set (Q := (Y * val mi ei)%R) in *.
  rewrite (toFixed2_small _ m2 e2 Nm2) by lia.
  pose proof (hundredths_real m2 e2) as H2.
  destruct (hundredths_nearest m2 e2) as [P2 _].
  set (n2 := JS.hundredths m2 e2) in *. set (W2 := val m2 e2) in *.
  assert (B2 : 1 <= n2 < 2 ^ 53).
  { unfold u52 in *. split.
    - apply Z.lt_pred_le. change (0 < n2). apply lt_IZR.
      destruct HR; subst Rz; lra.
    - apply lt_IZR. change (2 ^ 53) with 9007199254740992.
      destruct HR; subst Rz; lra. }
  rewrite (parse_hundredths_safe n2) by lia. fold (cents n2).
  destruct (cents_rel n2) as (mz & ez & Nz & Bz & Vz); [lia | ].
  rewrite (nrepr_F2R _ mz ez Nz).
  unfold u52 in *. apply Rabs_le.
  destruct HR; subst Rz; split; lra.
Qed.

End RoundTrip.

(** C3, amended. From a currency to itself and back the amount is returned
    unchanged. From USD or EUR to LKR and back, every amount of whole
    hundredths up to ten thousand million comes back exactly: both
    conversions round to two decimal places, and the rupee amount is fine
    enough to determine the hundredths it came from. Any other amount
    between 0.01 and ten thousand million comes back within 0.0051 of
    itself. *)
Theorem C3_round_trip_through_LKR :
  (forall (x : JS.number) (c : Currency), roundTrip x c c = x) /\
  (forall k : Z, (0 <= k <= 10 ^ 12)%Z ->
     roundTrip (cents k) USD LKR = cents k /\
     roundTrip (cents k) EUR LKR = cents k) /\
  (forall x : JS.number, (0.01 <=? x) = true -> (x <=? 1e10) = true ->
     (Rabs (F64.F2R (roundTrip x USD LKR) - F64.F2R x) <= 51 / 10000)%R /\
     (Rabs (F64.F2R (roundTrip x EUR LKR) - F64.F2R x) <= 51 / 10000)%R).
Proof.
  split; [ | split].
  - intros x c. unfold roundTrip. now rewrite !convertCurrency_same.
  - intros k Hk. destruct (Z.eq_dec k 0) as [-> | Nk]; [split; reflexivity | ].
    unfold roundTrip.
    rewrite !convertCurrency_other by discriminate.
    split.
    + apply (RoundTrip.round_trip_rate 300 300 5277655813324800 k);
        [now left | reflexivity | split; reflexivity | lia].
    + apply (RoundTrip.round_trip_rate 330 330 5805421394657280 k);
        [now right | reflexivity | split; reflexivity | lia].
  - intros x Lo Hi. unfold roundTrip.
    rewrite !convertCurrency_other by discriminate.
    split.
    + apply (RoundTrip.round_trip_near 300 300 5277655813324800 x);
        [now left | reflexivity | split; reflexivity | exact Lo | exact Hi].
    + apply (RoundTrip.round_trip_near 330 330 5805421394657280 x);
        [now right | reflexivity | split; reflexivity | exact Lo | exact Hi].
Qed.

Lemma C3_round_trip_through_LKR_witness :
  roundTrip 1.234 EUR EUR = 1.234 /\
  (roundTrip (cents 1999) USD LKR = cents 1999 /\
   roundTrip (cents 1999) EUR LKR = cents 1999) /\
  ((Rabs (F64.F2R (roundTrip 1.2345%float USD LKR) - F64.F2R 1.2345%float) <= 51 / 10000)%R /\
   (Rabs (F64.F2R (roundTrip 1.2345%float EUR LKR) - F64.F2R 1.2345%float) <= 51 / 10000)%R).
Proof.
  destruct C3_round_trip_through_LKR as (H1 & H2 & H3).
  split; [apply H1 | split; [apply (H2 1999%Z); lia | apply (H3 1.2345); reflexivity]].
Defined.

(** Between USD and EUR the two rates multiply to 0.9975, not to 1: a
    hundred dollars come back as 99.75. From LKR the first conversion rounds
    away more than the second can restore: a hundred rupees come back as
    99. *)
Lemma C3_counterexample :
  conversionRate USD EUR * conversionRate EUR USD = 0.9974999999999999 /\
  roundTrip 100 USD EUR = 99.75 /\
  (0.01 <? abs (roundTrip 100 USD EUR - 100)) = true /\
  roundTrip 100 LKR USD = 99 /\
  (0.01 <? abs (roundTrip 100 LKR USD - 100)) = true.
Proof. repeat split. Qed.

(** * The record store *)

Module MapFacts.
Import JSData.

Local Open Scope Z_scope.

Section Maps.
Context {V : Type}.
Implicit Types (m : JSMap V) (k : Z) (v : V).

Lemma map_get_set_same m k v : map_get (map_set m k v) k = Some v.
Proof.
  induction m as [ | [k' v'] m IH]; cbn.
  - now rewrite Z.eqb_refl.
  - destruct (k' =? k) eqn:E; cbn; rewrite E; [reflexivity | exact IH].
Qed.

Lemma map_get_set_other m k k' v :
  k' <> k -> map_get (map_set m k v) k' = map_get m k'.
Proof.
  intro N. induction m as [ | [k0 v0] m IH]; cbn.
  - destruct (k =? k') eqn:E; [apply Z.eqb_eq in E; congruence | reflexivity].
  - destruct (k0 =? k) eqn:E; cbn.
    + apply Z.eqb_eq in E. subst k0.
      destruct (k =? k') eqn:E'; [apply Z.eqb_eq in E'; congruence | reflexivity].
    + destruct (k0 =? k'); [reflexivity | exact IH].
Qed.

Lemma map_get_None m k : map_get m k = None <-> ~ In k (map fst m).
Proof.
  induction m as [ | [k' v'] m IH]; cbn.
  - tauto.
  - destruct (k' =? k) eqn:E.
    + apply Z.eqb_eq in E. split; [discriminate | intro H; exfalso; apply H; now left].
    + apply Z.eqb_neq in E. rewrite IH. tauto.
Qed.

Lemma map_get_In m k v : map_get m k = Some v -> In (k, v) m.
Proof.
  induction m as [ | [k' v'] m IH]; cbn; [discriminate | ].
  destruct (k' =? k) eqn:E.
  - apply Z.eqb_eq in E. intro H. injection H as ->. left. now subst.
  - intro H. right. now apply IH.
Qed.

Lemma In_map_get m k v : NoDup (map fst m) -> In (k, v) m -> map_get m k = Some v.
Proof.
  induction m as [ | [k' v'] m IH]; cbn; [tauto | ].
  intros ND [H | H].
  - injection H as -> ->. now rewrite Z.eqb_refl.
  - inversion ND as [ | ? ? Hn ND']. subst.
    destruct (k' =? k) eqn:E; [ | now apply IH].
    apply Z.eqb_eq in E. subst k'. exfalso. apply Hn.
    change k with (fst (k, v)). now apply in_map.
Qed.

(** [set] on a key that is there leaves the keys and their order alone;
    on a new key it adds the entry last. *)
Lemma map_set_present m k v v0 :
  map_get m k = Some v0 ->
  map fst (map_set m k v) = map fst m /\
  exists pre post, m = pre ++ (k, v0) :: post /\ map_set m k v = pre ++ (k, v) :: post /\
                   ~ In k (map fst pre).
Proof.
  induction m as [ | [k' v'] m IH]; cbn; [discriminate | ].
  destruct (k' =? k) eqn:E.
  - apply Z.eqb_eq in E. subst k'. intro H. injection H as ->. split; [reflexivity | ].
    exists [], m. repeat split. intros [].
  - intro H. destruct (IH H) as (K & pre & post & E1 & E2 & Hn). cbn. split; [now rewrite K | ].
    exists ((k', v') :: pre), post. rewrite E1 at 1. rewrite E2. repeat split.
    cbn. apply Z.eqb_neq in E. intros [F | F]; [congruence | now apply Hn].
Qed.

Lemma map_set_absent m k v : map_get m k = None -> map_set m k v = m ++ [(k, v)].
Proof.
  induction m as [ | [k' v'] m IH]; cbn; [reflexivity | ].
  destruct (k' =? k); [discriminate | ]. intro H. now rewrite IH.
Qed.

Lemma map_delete_absent m k : map_get m k = None -> map_delete m k = m.
Proof.
  induction m as [ | [k' v'] m IH]; cbn; [reflexivity | ].
  destruct (k' =? k); [discriminate | ]. intro H. now rewrite IH.
Qed.

Lemma map_delete_present m k v0 :
  map_get m k = Some v0 ->
  exists pre post, m = pre ++ (k, v0) :: post /\ map_delete m k = pre ++ post /\
                   ~ In k (map fst pre).
Proof.
  induction m as [ | [k' v'] m IH]; cbn; [discriminate | ].
  destruct (k' =? k) eqn:E.
  - apply Z.eqb_eq in E. subst k'. intro H. injection H as ->.
    exists [], m. repeat split. intros [].
  - intro H. destruct (IH H) as (pre & post & E1 & E2 & Hn).
    exists ((k', v') :: pre), post. rewrite E1 at 1. rewrite E2. repeat split.
    cbn. apply Z.eqb_neq in E. intros [F | F]; [congruence | now apply Hn].
Qed.

Lemma map_get_delete_other m k k' :
  k' <> k -> map_get (map_delete m k) k' = map_get m k'.
Proof.
  intro N. induction m as [ | [k0 v0] m IH]; cbn; [reflexivity | ].
  destruct (k0 =? k) eqn:E; cbn.
  - apply Z.eqb_eq in E. subst k0.
    destruct (k =? k') eqn:E'; [apply Z.eqb_eq in E'; congruence | reflexivity].
  - destruct (k0 =? k'); [reflexivity | exact IH].
Qed.

Lemma map_get_delete_same m k :
  NoDup (map fst m) -> map_get (map_delete m k) k = None.
Proof.
  intro ND. destruct (map_get m k) as [v0 | ] eqn:G.
  - destruct (map_delete_present m k v0 G) as (pre & post & E1 & E2 & Hn).
    rewrite E2. apply map_get_None. rewrite E1, map_app in ND. cbn in ND.
    apply NoDup_remove_2 in ND. now rewrite map_app.
  - now rewrite map_delete_absent.
Qed.

Lemma find_value_In (p : V -> bool) m v :
  find_value p m = Some v -> p v = true /\ In v (map_values m).
Proof.
  induction m as [ | [k' v'] m IH]; cbn; [discriminate | ].
  destruct (p v') eqn:E.
  - intro H. injection H as ->. split; [assumption | now left].
  - intro H. destruct (IH H). split; [assumption | now right].
Qed.

Lemma find_value_None (p : V -> bool) m :
  find_value p m = None <-> Forall (fun v => p v = false) (map_values m).
Proof.
  induction m as [ | [k' v'] m IH]; cbn.
  - split; [constructor | reflexivity].
  - destruct (p v') eqn:E.
    + split; [discriminate | ]. intro H. inversion H. congruence.
    + rewrite IH. split; [now constructor | ]. intro H. now inversion H.
Qed.

Lemma find_value_split (p : V -> bool) m v :
  find_value p m = Some v ->
  exists pre k post, m = pre ++ (k, v) :: post /\ p v = true /\
                     Forall (fun entry => p (snd entry) = false) pre.
Proof.
  induction m as [ | [k' v'] m IH]; cbn; [discriminate | ].
  destruct (p v') eqn:E.
  - intro H. injection H as ->. exists [], k', m. repeat split; [assumption | constructor].
  - intro H. destruct (IH H) as (pre & k & post & E1 & Hp & F).
    exists ((k', v') :: pre), k, post. rewrite E1. repeat split; [assumption | ].
    now constructor.
Qed.

Lemma find_value_skip (p : V -> bool) (pre l : JSMap V) :
  Forall (fun entry => p (snd entry) = false) pre ->
  find_value p (pre ++ l) = find_value p l.
Proof.
  induction 1 as [ | [k v] pre H F IH]; cbn; [reflexivity | ].
  cbn in H. now rewrite H.
Qed.

(** A value that fails the test can be changed, added or removed without
    changing what is found. *)
Lemma find_value_replace (p : V -> bool) (pre post : JSMap V) k v v' :
  p v = false -> p v' = false ->
  find_value p (pre ++ (k, v') :: post) = find_value p (pre ++ (k, v) :: post).
Proof.
  intros H H'. induction pre as [ | [k0 v0] pre IH]; cbn.
  - now rewrite H, H'.
  - now rewrite IH.
Qed.

Lemma find_value_remove (p : V -> bool) (pre post : JSMap V) k v :
  p v = false ->
  find_value p (pre ++ post) = find_value p (pre ++ (k, v) :: post).
Proof.
  intros H. induction pre as [ | [k0 v0] pre IH]; cbn.
  - now rewrite H.
  - now rewrite IH.
Qed.

Lemma map_set_at (pre post : JSMap V) k v0 v :
  ~ In k (map fst pre) ->
  map_set (pre ++ (k, v0) :: post) k v = pre ++ (k, v) :: post.
Proof.
  induction pre as [ | [k' v'] pre IH]; cbn; intro Hn.
  - now rewrite Z.eqb_refl.
  - destruct (k' =? k) eqn:E; [apply Z.eqb_eq in E; tauto | ].
    rewrite IH by tauto. reflexivity.
Qed.

Lemma NoDup_mid (pre post : JSMap V) k v :
  NoDup (map fst (pre ++ (k, v) :: post)) -> ~ In k (map fst pre).
Proof.
  rewrite map_app. cbn. intros ND Hin. apply NoDup_remove_2 in ND.
  apply ND, in_or_app. now left.
Qed.

End Maps.
End MapFacts.


Module StoreFacts.
Import Schema JSData MemStorage MapFacts Samples.

Local Open Scope Z_scope.

Ltac conjs := repeat match goal with |- _ /\ _ => split end.

Lemma post_increment_next (c : Z) : c < 2 ^ 53 -> post_increment c = c + 1.
Proof. intro H. unfold post_increment. now apply Z.ltb_lt in H as ->. Qed.

Lemma post_increment_le (c : Z) : c <= post_increment c <= c + 1.
Proof. unfold post_increment. destruct (c <? 2 ^ 53); lia. Qed.

Section Keyed.
Context {V : Type} (id : V -> Z).
Implicit Types (m : JSMap V) (v : V).

Lemma keyed_get m c k v : keyed id m c -> map_get m k = Some v -> id v = k /\ k < c.
Proof.
  intros [_ F] G. apply map_get_In in G.
  rewrite Forall_forall in F. apply (F (k, v) G).
Qed.

Lemma keyed_fresh m c k : keyed id m c -> c <= k -> map_get m k = None.
Proof.
  intros K Hk. destruct (map_get m k) as [v | ] eqn:G; [ | reflexivity].
  destruct (keyed_get m c k v K G). lia.
Qed.

Lemma keyed_weaken m c c' : keyed id m c -> c <= c' -> keyed id m c'.
Proof.
  intros [ND F] H. split; [assumption | ].
  eapply Forall_impl; [ | exact F]. cbn. intros a [H1 H2]. split; [assumption | lia].
Qed.

(** A new record under the counter. *)
Lemma keyed_create m c v :
  keyed id m c -> id v = c -> keyed id (map_set m c v) (c + 1).
Proof.
  intros K Hv. rewrite (map_set_absent m c v) by (apply (keyed_fresh m c c K); lia).
  destruct K as [ND F]. split.
  - rewrite map_app. cbn. apply NoDup_app; try assumption.
    + constructor; [intros [] | constructor].
    + intros a Ha [<- | []]. apply in_map_iff in Ha as ([k v'] & E & Hin).
      rewrite Forall_forall in F. specialize (F _ Hin). cbn in *. lia.
  - apply Forall_app. split.
    + eapply Forall_impl; [ | exact F]. cbn. intros a [H1 H2]. split; [assumption | lia].
    + constructor; [ | constructor]. cbn. split; [assumption | lia].
Qed.

(** A record replaced by one of the same [id]. *)
Lemma keyed_replace m c k v :
  keyed id m c -> map_has m k = true -> id v = k -> keyed id (map_set m k v) c.
Proof.
  intros K H Hv. unfold map_has in H. destruct (map_get m k) as [v0 | ] eqn:G; [ | discriminate].
  destruct (keyed_get m c k v0 K G) as [_ Bk].
  destruct (map_set_present m k v v0 G) as (Ek & pre & post & E1 & E2 & _).
  destruct K as [ND F]. split; [now rewrite Ek | ].
  rewrite E2. rewrite E1 in F. apply Forall_app in F as [F1 F2].
  inversion F2 as [ | ? ? _ F3]. subst.
  apply Forall_app. split; [assumption | ]. constructor; [ | assumption].
  cbn. split; [reflexivity | lia].
Qed.

Lemma keyed_delete m c k : keyed id m c -> keyed id (map_delete m k) c.
Proof.
  intros [ND F]. destruct (map_get m k) as [v0 | ] eqn:G.
  - destruct (map_delete_present m k v0 G) as (pre & post & E1 & E2 & _).
    rewrite E2. rewrite E1 in ND, F. split.
    + rewrite map_app in *. cbn in ND. now apply NoDup_remove_1 in ND.
    + apply Forall_app in F as [F1 F2]. inversion F2. subst.
      apply Forall_app. now split.
  - rewrite map_delete_absent by assumption. now split.
Qed.

(** The first value that satisfies [p], changed in place by a function
    that keeps the [id]: the entry under that [id]. *)
Lemma mutate_first_set (p : V -> bool) (f : V -> V) m c v :
  keyed id m c -> find_value p m = Some v -> id (f v) = id v ->
  map_set (mutate_first p f m) (id (f v)) (f v) = map_set m (id v) (f v) /\
  map_get m (id v) = Some v.
Proof.
  intros [ND F] Hf Hid. rewrite Hid.
  induction m as [ | [k' v'] m IH]; cbn in *; [discriminate | ].
  inversion F as [ | ? ? [Hk _] F']. subst. cbn in Hk.
  inversion ND as [ | ? ? Hn ND']. subst.
  destruct (p v') eqn:E.
  - injection Hf as ->. cbn. rewrite !Z.eqb_refl. split; reflexivity.
  - destruct (find_value_In p m v Hf) as [_ Hin].
    assert (Nk : id v' <> id v).
    { intro Ek. apply Hn. unfold map_values in Hin. apply in_map_iff in Hin as ([k1 v1] & E1 & Hin).
      cbn in E1. subst v1. rewrite Forall_forall in F'. destruct (F' _ Hin) as [Hk1 _].
      cbn in Hk1. rewrite Ek, Hk1. change k1 with (fst (k1, v)). now apply in_map. }
    apply Z.eqb_neq in Nk. cbn. rewrite Nk.
    destruct (IH ND' F' Hf) as [I1 I2]. split; [now rewrite I1 | assumption].
Qed.

End Keyed.


Lemma well_formed_incomes (s : Store) (m : JSMap Income) (c : Z) :
  well_formed s -> keyed income_id m c -> well_formed (with_incomes s m c).
Proof. intros (Wu & Wi & We & Wg) K. unfold well_formed. cbn. tauto. Qed.

Lemma well_formed_expenses (s : Store) (m : JSMap Expense) (c : Z) :
  well_formed s -> keyed expense_id m c -> well_formed (with_expenses s m c).
Proof. intros (Wu & Wi & We & Wg) K. unfold well_formed. cbn. tauto. Qed.

Lemma well_formed_savingsGoals (s : Store) (m : JSMap SavingsGoal) (c : Z) :
  well_formed s -> keyed goal_id m c -> well_formed (with_savingsGoals s m c).
Proof. intros (Wu & Wi & We & Wg) K. unfold well_formed. cbn. tauto. Qed.

(** ** Expenses: create, read, update, delete *)

(** The sample store is well formed. *)
Lemma sample_store_well_formed : well_formed sample_store.
Proof.
  unfold well_formed, keyed. vm_compute.
  repeat split; repeat constructor; cbn; intuition discriminate.
Qed.

(** Creating an expense hands it the counter as its [id], an [id] no
    expense had; the expense is then found under that [id] and is the last
    value of the map, and every other [id] holds what it held. *)
Theorem createExpense_fresh (s : Store) (expenseData : InsertExpense) :
  well_formed s -> expenseIdCounter s < 2 ^ 53 ->
  exists expense s',
    createExpense expenseData s = (Resolved expense, s') /\
    expense_id expense = expenseIdCounter s /\
    expense_userId expense = ie_userId expenseData /\
    amount expense = ie_amount expenseData /\
    fst (getExpense (expense_id expense) s) = Resolved None /\
    fst (getExpense (expense_id expense) s') = Resolved (Some expense) /\
    (forall id, id <> expense_id expense ->
       fst (getExpense id s') = fst (getExpense id s)) /\
    map_values (expenses s') = map_values (expenses s) ++ [expense] /\
    expenseIdCounter s' = expenseIdCounter s + 1 /\
    well_formed s'.
Proof.
  intros (Wu & Wi & We & Wg) Hc.
  eexists. eexists. split; [reflexivity | ]. cbn.
  assert (G : map_get (expenses s) (expenseIdCounter s) = None)
    by (apply (keyed_fresh expense_id _ _ _ We); lia).
  rewrite G, map_get_set_same, post_increment_next by assumption.
  conjs; try reflexivity.
  - intros id N. now rewrite map_get_set_other.
  - rewrite map_set_absent by assumption. unfold map_values. now rewrite map_app.
  - apply well_formed_expenses; [unfold well_formed; tauto | ]. now apply keyed_create.
Qed.

Lemma createExpense_fresh_witness :
  exists expense s',
    createExpense (sample_insert_expense 1 Food 50%float 1700000300000) sample_store =
      (Resolved expense, s') /\
    expense_id expense = 4 /\
    fst (getExpense (expense_id expense) s') = Resolved (Some expense) /\
    well_formed s'.
Proof.
  destruct (createExpense_fresh sample_store
              (sample_insert_expense 1 Food 50%float 1700000300000) sample_store_well_formed)
    as (expense & s' & H1 & H2 & _ & _ & _ & H6 & _ & _ & _ & W); [reflexivity | ].
  exists expense, s'. split; [exact H1 | ]. split; [exact H2 | ].
  split; [exact H6 | exact W].
Defined.

(** Updating an expense that is not there is rejected and changes nothing.
    One that is there is replaced, in its place, by its spread with the
    patch; the other expenses stay as they are, and a patch without [id]
    and [userId] leaves the expense under its [id] and with its owner. *)
Theorem updateExpense_merges (s : Store) (id : Z) (updatedExpense : PartialExpense) :
  well_formed s ->
  (fst (getExpense id s) = Resolved None ->
   updateExpense id updatedExpense s = (Rejected "Expense not found", s)) /\
  (forall expense, fst (getExpense id s) = Resolved (Some expense) ->
   exists s',
     updateExpense id updatedExpense s =
       (Resolved (spread_expense expense updatedExpense), s') /\
     fst (getExpense id s') = Resolved (Some (spread_expense expense updatedExpense)) /\
     (forall id', id' <> id -> fst (getExpense id' s') = fst (getExpense id' s)) /\
     map fst (expenses s') = map fst (expenses s) /\
     (pe_id updatedExpense = None -> pe_userId updatedExpense = None ->
      expense_id (spread_expense expense updatedExpense) = id /\
      expense_userId (spread_expense expense updatedExpense) = expense_userId expense /\
      well_formed s')).
Proof.
  intros W. pose proof W as (Wu & Wi & We & Wg). unfold getExpense, updateExpense. cbn [fst]. split.
  - intro H. injection H as ->. reflexivity.
  - intros expense H. injection H as G. rewrite G.
    eexists. split; [reflexivity | ]. cbn.
    rewrite map_get_set_same.
    destruct (map_set_present (expenses s) id (spread_expense expense updatedExpense) expense G)
      as (Ek & _).
    conjs; try reflexivity; try assumption.
    + intros id' N. now rewrite map_get_set_other.
    + intros P1 P2.
      destruct (keyed_get expense_id _ _ _ _ We G) as [Hid _].
      unfold spread_expense. cbn. rewrite P1, P2. cbn. conjs; try assumption; try reflexivity.
      apply well_formed_expenses; [assumption | ].
      apply keyed_replace; [assumption | unfold map_has; now rewrite G | cbn; assumption].
Qed.

Lemma updateExpense_merges_witness :
  updateExpense 9 (sample_patch 75%float Food 1700000300000) sample_store =
    (Rejected "Expense not found", sample_store) /\
  exists s',
    updateExpense 1 (sample_patch 75%float Health 1700000300000) sample_store =
      (Resolved (spread_expense (sample_expense Food 800%float)
                   (sample_patch 75%float Health 1700000300000)), s') /\
    fst (getExpense 1 s') =
      Resolved (Some (spread_expense (sample_expense Food 800%float)
                        (sample_patch 75%float Health 1700000300000))) /\
    well_formed s'.
Proof.
  destruct (updateExpense_merges sample_store 9 (sample_patch 75%float Food 1700000300000)
              sample_store_well_formed) as [H _].
  destruct (updateExpense_merges sample_store 1 (sample_patch 75%float Health 1700000300000)
              sample_store_well_formed) as [_ H'].
  split; [apply H; reflexivity | ].
  destruct (H' (sample_expense Food 800%float) eq_refl) as (s' & A & B & _ & _ & E).
  exists s'. split; [exact A | ]. split; [exact B | ].
  apply E; reflexivity.
Defined.

(** Deleting an expense that is not there is rejected and changes nothing.
    One that is there is taken out of the map: it is no longer found, and
    the other expenses stay as they are, in their order. *)
Theorem deleteExpense_removes (s : Store) (id : Z) :
  well_formed s ->
  (fst (getExpense id s) = Resolved None ->
   deleteExpense id s = (Rejected "Expense not found", s)) /\
  (forall expense, fst (getExpense id s) = Resolved (Some expense) ->
   exists s',
     deleteExpense id s = (Resolved tt, s') /\
     fst (getExpense id s') = Resolved None /\
     (forall id', id' <> id -> fst (getExpense id' s') = fst (getExpense id' s)) /\
     (exists pre post,
        map_values (expenses s) = pre ++ expense :: post /\
        map_values (expenses s') = pre ++ post) /\
     well_formed s').
Proof.
  intros W. pose proof W as (Wu & Wi & We & Wg).
  unfold getExpense, deleteExpense, map_has. cbn [fst]. split.
  - intro H. injection H as ->. reflexivity.
  - intros expense H. injection H as G. rewrite G.
    eexists. split; [reflexivity | ]. cbn.
    rewrite map_get_delete_same by apply We.
    conjs; try reflexivity.
    + intros id' N. now rewrite map_get_delete_other.
    + destruct (map_delete_present _ _ _ G) as (pre & post & E1 & E2 & _).
      exists (map snd pre), (map snd post). unfold map_values.
      rewrite E2, E1, !map_app. split; reflexivity.
    + apply well_formed_expenses; [assumption | ]. now apply keyed_delete.
Qed.

Lemma deleteExpense_removes_witness :
  deleteExpense 9 sample_store = (Rejected "Expense not found", sample_store) /\
  exists s',
    deleteExpense 1 sample_store = (Resolved tt, s') /\
    fst (getExpense 1 s') = Resolved None /\
    well_formed s'.
Proof.
  destruct (deleteExpense_removes sample_store 9 sample_store_well_formed) as [H _].
  destruct (deleteExpense_removes sample_store 1 sample_store_well_formed) as [_ H'].
  split; [apply H; reflexivity | ].
  destruct (H' (sample_expense Food 800%float) eq_refl) as (s' & A & B & _ & _ & W).
  exists s'. split; [exact A | ]. split; [exact B | exact W].
Defined.

End StoreFacts.


Module OwnerFacts.
Import Schema JSData MemStorage MapFacts StoreFacts Samples.

Local Open Scope Z_scope.

Section Owned.
(** Records with an [id] and an owner, found by their owner. *)
Context {V : Type} (id owner : V -> Z).
Implicit Types (m : JSMap V) (v : V).

(** Replacing the first record of [userId] by one of the same [id] and
    owner. *)
Lemma replace_found m c userId v v' :
  keyed id m c -> find_value (fun x => owner x =? userId) m = Some v ->
  id v' = id v -> owner v' = userId ->
  let m' := map_set m (id v) v' in
  find_value (fun x => owner x =? userId) m' = Some v' /\
  (forall u, u <> userId ->
     find_value (fun x => owner x =? u) m' = find_value (fun x => owner x =? u) m) /\
  map fst m' = map fst m /\
  map owner (map_values m') = map owner (map_values m) /\
  keyed id m' c.
Proof.
  intros K Hf Hid Ho m'.
  destruct (find_value_split _ m v Hf) as (pre & k & post & E & Hv & Fpre).
  apply Z.eqb_eq in Hv.
  assert (Hk : id v = k).
  { destruct K as [_ F]. rewrite E in F. apply Forall_app in F as [_ F].
    inversion F as [ | ? ? [H _] _]. exact H. }
  assert (Hn : ~ In k (map fst pre)) by (destruct K as [ND _]; rewrite E in ND; now apply NoDup_mid in ND).
  assert (Em : m' = pre ++ (k, v') :: post).
  { unfold m'. rewrite Hk, E. now apply map_set_at. }
  rewrite Em. conjs.
  - rewrite find_value_skip by assumption. cbn. rewrite Ho, Z.eqb_refl. reflexivity.
  - intros u N. rewrite E. apply find_value_replace.
    + apply Z.eqb_neq. lia.
    + apply Z.eqb_neq. lia.
  - rewrite E, !map_app. reflexivity.
  - unfold map_values. rewrite E, !map_app. cbn. now rewrite Ho, Hv.
  - rewrite <- Em. unfold m'. apply keyed_replace; try assumption.
    unfold map_has. rewrite Hk, E.
    replace (map_get (pre ++ (k, v) :: post) k) with (Some v); [reflexivity | ].
    symmetry. apply In_map_get; [rewrite <- E; apply K | ].
    apply in_or_app. right. now left.
Qed.

(** Adding a record for a user who has none, under the counter. *)
Lemma add_first m c userId v' :
  keyed id m c -> find_value (fun x => owner x =? userId) m = None ->
  id v' = c -> owner v' = userId ->
  let m' := map_set m c v' in
  m' = m ++ [(c, v')] /\
  find_value (fun x => owner x =? userId) m' = Some v' /\
  (forall u, u <> userId ->
     find_value (fun x => owner x =? u) m' = find_value (fun x => owner x =? u) m) /\
  (NoDup (map owner (map_values m)) -> NoDup (map owner (map_values m'))) /\
  keyed id m' (c + 1).
Proof.
  intros K Hf Hid Ho m'.
  assert (Em : m' = m ++ [(c, v')]).
  { unfold m'. apply map_set_absent. apply (keyed_fresh id m c c K). lia. }
  apply find_value_None in Hf.
  split; [exact Em | ]. rewrite Em. conjs.
  - rewrite find_value_skip.
    + cbn. now rewrite Ho, Z.eqb_refl.
    + unfold map_values in Hf. now rewrite Forall_map in Hf.
  - intros u N. rewrite <- (app_nil_r m) at 2.
    rewrite <- (find_value_remove (fun x => owner x =? u) m [] c v'); [reflexivity | ].
    apply Z.eqb_neq. lia.
  - intro ND. unfold map_values. rewrite !map_app. cbn.
    apply NoDup_app; [exact ND | constructor; [intros [] | constructor] | ].
    intros a Ha [<- | []]. rewrite Ho in Ha.
    apply in_map_iff in Ha as (x & Ex & Hx).
    rewrite Forall_forall in Hf. specialize (Hf x Hx). cbn in Hf.
    apply Z.eqb_neq in Hf. contradiction.
  - rewrite <- Em. unfold m'. now apply keyed_create.
Qed.

End Owned.

(** ** One income for each user *)

(** [updateIncome] leaves the user with an income of the amount and
    currency given, which [getIncome] then returns: the income the user
    had, changed in its place and keeping its [id], or else a new one
    carrying the counter as its [id]. The incomes of the other users stay
    as they are, and no user comes to have two. *)
Theorem updateIncome_getIncome (s : Store) (userId : Z) (amount : JS.number)
    (currency : Currency) (now now' : Date) :
  well_formed s -> incomeIdCounter s < 2 ^ 53 ->
  exists income s',
    updateIncome userId amount currency now now' s = (Resolved income, s') /\
    fst (getIncome userId s') = Resolved (Some income) /\
    income_userId income = userId /\
    income_amount income = amount /\
    income_currency income = currency /\
    (forall old, fst (getIncome userId s) = Resolved (Some old) ->
       income_id income = income_id old /\ updatedAt income = now /\
       map fst (incomes s') = map fst (incomes s)) /\
    (fst (getIncome userId s) = Resolved None ->
       income_id income = incomeIdCounter s /\ updatedAt income = now' /\
       map fst (incomes s') = map fst (incomes s) ++ [incomeIdCounter s]) /\
    (forall u, u <> userId -> fst (getIncome u s') = fst (getIncome u s)) /\
    well_formed s' /\
    (one_per_user s -> one_per_user s').
Proof.
  intros W Hc. pose proof W as (Wu & Wi & We & Wg).
  unfold updateIncome, getIncome. cbn [fst].
  destruct (find_value (fun income => income_userId income =? userId) (incomes s))
    as [old | ] eqn:Hf.
  - pose (assign := fun income : Income =>
          {| income_id := income_id income; income_userId := income_userId income;
             income_amount := amount; income_currency := currency; updatedAt := now |}).
    destruct (find_value_In _ _ _ Hf) as [Ho _]. apply Z.eqb_eq in Ho.
    destruct (mutate_first_set income_id _ assign _ _ old Wi Hf eq_refl) as [Em _].
    pose proof (replace_found income_id income_userId (incomes s) _ userId old (assign old)
                  Wi Hf eq_refl Ho) as R.
    cbv beta zeta delta [assign] in Em, R. cbn [income_id] in Em.
    destruct R as (R1 & R2 & R3 & R4 & R5).
    eexists. eexists. split; [reflexivity | ]. cbn [incomes with_incomes fst income_id].
    rewrite Em.
    conjs; try reflexivity.
    + now rewrite R1.
    + assumption.
    + intros old' H. injection H as <-. conjs; try reflexivity. exact R3.
    + discriminate.
    + intros u N. now rewrite R2.
    + now apply well_formed_incomes.
    + intros [O1 O2]. split; [ | exact O2]. cbn [incomes with_incomes]. rewrite R4. exact O1.
  - unfold createIncome.
    eexists. eexists. split; [reflexivity | ].
    cbn [incomes with_incomes fst ii_userId ii_amount ii_currency].
    set (income := {| income_id := incomeIdCounter s; income_userId := userId;
                      income_amount := amount; income_currency := currency;
                      updatedAt := now' |}).
    pose proof (add_first income_id income_userId (incomes s) _ userId income
                  Wi Hf eq_refl eq_refl) as A.
    cbv zeta in A. destruct A as (A0 & A1 & A2 & A3 & A4).
    rewrite post_increment_next by assumption.
    conjs; try reflexivity.
    + now rewrite A1.
    + discriminate.
    + intros _. conjs; try reflexivity. rewrite A0, map_app. reflexivity.
    + intros u N. now rewrite A2.
    + now apply well_formed_incomes.
    + intros [O1 O2]. split; [ | exact O2]. cbn [incomes with_incomes]. now apply A3.
Qed.

Lemma updateIncome_getIncome_witness :
  exists income s',
    updateIncome 2 3000%float EUR 1700000300000 1700000300001 sample_store =
      (Resolved income, s') /\
    fst (getIncome 2 s') = Resolved (Some income) /\
    income_id income = 2 /\
    updatedAt income = 1700000300001 /\
    fst (getIncome 1 s') = fst (getIncome 1 sample_store) /\
    well_formed s'.
Proof.
  destruct (updateIncome_getIncome sample_store 2 3000%float EUR 1700000300000 1700000300001
              sample_store_well_formed)
    as (income & s' & H1 & H2 & _ & _ & _ & _ & H7 & H8 & W & _); [reflexivity | ].
  exists income, s'. destruct (H7 eq_refl) as (I1 & I2 & _).
  split; [exact H1 | ]. split; [exact H2 | ]. split; [exact I1 | ].
  split; [exact I2 | ]. split; [apply H8; discriminate | exact W].
Defined.

(** ** One savings goal for each user *)

(** With a patch that carries neither [id] nor [userId]: a user's goal is
    replaced by its spread with the patch, which [getSavingsGoal] then
    returns. A user without a goal gets one only from a patch with a
    target amount other than [0] and [NaN], a deadline and a currency;
    any other patch is rejected and changes nothing. The goals of the
    other users stay as they are, and no user comes to have two. *)
Theorem updateSavingsGoal_getSavingsGoal (s : Store) (userId : Z)
    (updatedGoal : PartialSavingsGoal) :
  well_formed s -> savingsGoalIdCounter s < 2 ^ 53 ->
  pg_id updatedGoal = None -> pg_userId updatedGoal = None ->
  (forall old, fst (getSavingsGoal userId s) = Resolved (Some old) ->
   exists s',
     updateSavingsGoal userId updatedGoal s =
       (Resolved (spread_goal old updatedGoal), s') /\
     fst (getSavingsGoal userId s') = Resolved (Some (spread_goal old updatedGoal)) /\
     goal_id (spread_goal old updatedGoal) = goal_id old /\
     (forall u, u <> userId -> fst (getSavingsGoal u s') = fst (getSavingsGoal u s)) /\
     well_formed s' /\ (one_per_user s -> one_per_user s')) /\
  (fst (getSavingsGoal userId s) = Resolved None ->
   (match pg_targetAmount updatedGoal with
    | Some targetAmount => JS.ToBoolean targetAmount = false
    | None => True
    end \/ pg_deadline updatedGoal = None \/ pg_currency updatedGoal = None ->
    updateSavingsGoal userId updatedGoal s =
      (Rejected "Missing required fields for savings goal", s)) /\
   (forall targetAmount' deadline' currency',
      pg_targetAmount updatedGoal = Some targetAmount' ->
      JS.ToBoolean targetAmount' = true ->
      pg_deadline updatedGoal = Some deadline' ->
      pg_currency updatedGoal = Some currency' ->
      exists goal s',
        updateSavingsGoal userId updatedGoal s = (Resolved goal, s') /\
        fst (getSavingsGoal userId s') = Resolved (Some goal) /\
        goal = {| goal_id := savingsGoalIdCounter s; goal_userId := userId;
                  name := Some (name_or_empty (pg_name updatedGoal));
                  targetAmount := targetAmount'; deadline := deadline';
                  goal_currency := currency' |} /\
        (forall u, u <> userId ->
           fst (getSavingsGoal u s') = fst (getSavingsGoal u s)) /\
        well_formed s' /\ (one_per_user s -> one_per_user s'))).
Proof.
  intros W Hc P1 P2. pose proof W as (Wu & Wi & We & Wg).
  unfold updateSavingsGoal, getSavingsGoal. cbn [fst]. split.
  - intros old H. injection H as Hf. rewrite Hf.
    destruct (find_value_In _ _ _ Hf) as [Ho _]. apply Z.eqb_eq in Ho.
    assert (Hid : goal_id (spread_goal old updatedGoal) = goal_id old)
      by (unfold spread_goal; cbn; now rewrite P1).
    assert (Hu : goal_userId (spread_goal old updatedGoal) = userId)
      by (unfold spread_goal; cbn; now rewrite P2).
    pose proof (replace_found goal_id goal_userId (savingsGoals s) _ userId old
                  (spread_goal old updatedGoal) Wg Hf Hid Hu) as R.
    cbv zeta in R. destruct R as (R1 & R2 & R3 & R4 & R5).
    eexists. split; [reflexivity | ]. cbn [savingsGoals with_savingsGoals fst].
    rewrite Hid. conjs; try reflexivity.
    + now rewrite R1.
    + intros u N. now rewrite R2.
    + now apply well_formed_savingsGoals.
    + intros [O1 O2]. split; [exact O1 | ]. cbn [savingsGoals with_savingsGoals].
      rewrite R4. exact O2.
  - intro H. injection H as Hf. rewrite Hf. split.
    + intros [H | [H | H]].
      * destruct (pg_targetAmount updatedGoal) as [t | ]; [ | reflexivity].
        rewrite H. cbn [negb].
        destruct (pg_deadline updatedGoal); [ | reflexivity].
        destruct (pg_currency updatedGoal); reflexivity.
      * rewrite H. destruct (pg_targetAmount updatedGoal); reflexivity.
      * rewrite H. destruct (pg_targetAmount updatedGoal); [ | reflexivity].
        destruct (pg_deadline updatedGoal); reflexivity.
    + intros t d c E1 T E2 E3. rewrite E1, E2, E3, T. cbn [negb].
      unfold createSavingsGoal.
      eexists. eexists. split; [reflexivity | ].
      cbn [savingsGoals with_savingsGoals fst ig_userId ig_name ig_targetAmount
           ig_deadline ig_currency].
      set (goal := {| goal_id := savingsGoalIdCounter s; goal_userId := userId;
                      name := Some (name_or_empty (pg_name updatedGoal));
                      targetAmount := t; deadline := d; goal_currency := c |}).
      pose proof (add_first goal_id goal_userId (savingsGoals s) _ userId goal
                    Wg Hf eq_refl eq_refl) as A.
      cbv zeta in A. destruct A as (A0 & A1 & A2 & A3 & A4).
      rewrite post_increment_next by assumption.
      conjs; try reflexivity.
      * now rewrite A1.
      * intros u N. now rewrite A2.
      * now apply well_formed_savingsGoals.
      * intros [O1 O2]. split; [exact O1 | ]. cbn [savingsGoals with_savingsGoals].
        now apply A3.
Qed.

Lemma updateSavingsGoal_getSavingsGoal_witness :
  updateSavingsGoal 2 (sample_goal_patch 0%float 1700000300000) sample_store =
    (Rejected "Missing required fields for savings goal", sample_store) /\
  exists goal s',
    updateSavingsGoal 2 (sample_goal_patch 900%float 1700000300000) sample_store =
      (Resolved goal, s') /\
    fst (getSavingsGoal 2 s') = Resolved (Some goal) /\
    goal_id goal = 2 /\
    well_formed s'.
Proof.
  destruct (updateSavingsGoal_getSavingsGoal sample_store 2
              (sample_goal_patch 0%float 1700000300000) sample_store_well_formed)
    as [_ H]; try reflexivity.
  destruct (updateSavingsGoal_getSavingsGoal sample_store 2
              (sample_goal_patch 900%float 1700000300000) sample_store_well_formed)
    as [_ H']; try reflexivity.
  destruct (H eq_refl) as [R _]. destruct (H' eq_refl) as [_ C].
  split; [apply R; left; reflexivity | ].
  destruct (C 900%float 1700000300000 USD eq_refl eq_refl eq_refl eq_refl)
    as (goal & s' & A & B & E & _ & W & _).
  exists goal, s'. split; [exact A | ]. split; [exact B | ].
  split; [rewrite E; reflexivity | exact W].
Defined.

(** ** The stores that calls can reach *)





End OwnerFacts.


(** * Order of binary64 values *)

Module F64Order.
Import F64 F64Facts.

Local Open Scope Z_scope.



End F64Order.

(** * The expenses of a user *)

Module ExpenseList.
Import Schema JSData MemStorage MapFacts StoreFacts Samples.

Local Open Scope Z_scope.

Section Sorting.
Context {A : Type} (cmp : A -> A -> JS.number) (rank : A -> Z) (ok : A -> Prop).
(** On the elements at hand the comparator is positive exactly where the
    first one ranks below the second. *)
Hypothesis cmp_rank :
  forall x y, ok x -> ok y -> ((0 <? cmp x y)%float = true <-> rank x < rank y).







End Sorting.




End ExpenseList.


(** * The handlers on the store *)

Module RouteFacts.
Import Schema JSData MemStorage MapFacts StoreFacts OwnerFacts Dashboard Routes Samples.

Local Open Scope Z_scope.




(** [DELETE /api/expenses/:id] takes out an expense only for its owner.
    Without a session the answer is 401; for an id that is no number, or
    that names no expense or the expense of another user, it is 404; in
    both cases the store stays as it is. For the owner the answer is 204,
    the expense is gone, and every other expense is where it was. *)
Theorem deleteExpenseRoute_owner_only (s : Store) (id : option Z) :
  well_formed s ->
  deleteExpenseRoute None id s = (Failed 401 "Not authenticated", s) /\
  (forall user,
     (forall k expense, id = Some k -> map_get (expenses s) k = Some expense ->
        expense_userId expense <> user_id user) ->
     deleteExpenseRoute (Some user) id s = (Failed 404 "Expense not found", s)) /\
  (forall user k expense,
     id = Some k -> map_get (expenses s) k = Some expense ->
     expense_userId expense = user_id user ->
     exists s',
       deleteExpenseRoute (Some user) id s = (NoContent 204, s') /\
       map_get (expenses s') k = None /\
       (forall k', k' <> k -> map_get (expenses s') k' = map_get (expenses s) k') /\
       users s' = users s /\ incomes s' = incomes s /\ savingsGoals s' = savingsGoals s).
Proof.
  intros (Wu & Wi & We & Wg). conjs.
  - reflexivity.
  - intros user H. unfold deleteExpenseRoute, isAuthenticated.
    destruct id as [k | ]; [ | reflexivity].
    destruct (map_get (expenses s) k) as [e | ] eqn:G; [ | reflexivity].
    specialize (H k e eq_refl G). apply Z.eqb_neq in H. now rewrite H.
  - intros user k e -> G Ho. unfold deleteExpenseRoute, isAuthenticated.
    rewrite G. apply Z.eqb_eq in Ho. rewrite Ho. cbn [negb].
    unfold deleteExpense, map_has. rewrite G. cbn [negb].
    eexists. split; [reflexivity | ]. cbn. conjs; try reflexivity.
    + apply map_get_delete_same. apply We.
    + intros k' N. now apply map_get_delete_other.
Qed.

Lemma deleteExpenseRoute_owner_only_witness :
  deleteExpenseRoute None (Some 1) sample_store =
    (Failed 401 "Not authenticated", sample_store) /\
  deleteExpenseRoute (Some (sample_user 1)) (Some 2) sample_store =
    (Failed 404 "Expense not found", sample_store) /\
  exists s',
    deleteExpenseRoute (Some (sample_user 1)) (Some 1) sample_store = (NoContent 204, s') /\
    map_get (expenses s') 1 = None /\
    map_get (expenses s') 2 = map_get (expenses sample_store) 2.
Proof.
  destruct (deleteExpenseRoute_owner_only sample_store (Some 1) sample_store_well_formed)
    as (H1 & _ & H3).
  destruct (deleteExpenseRoute_owner_only sample_store (Some 2) sample_store_well_formed)
    as (_ & H2 & _).
  split; [exact H1 | ]. split.
  - apply H2. intros k expense Ek G. injection Ek as <-.
    vm_compute in G. injection G as <-. discriminate.
  - destruct (H3 (sample_user 1) 1 (sample_expense Food 800%float) eq_refl eq_refl eq_refl)
      as (s' & A & B & C & _).
    exists s'. split; [exact A | ]. split; [exact B | ]. apply C. discriminate.
Defined.




(** [POST /api/subscribe] makes the user of the session premium and
    answers with that user, the password left out; every other user and
    all incomes, expenses and goals stay as they are, and the premium
    guard lets the next request of that session through. Without a
    session the answer is 401. Where the store has no such user the
    update throws, so the answer is 500 and the store is unchanged: the
    404 of the route is never sent. *)
Theorem subscribeRoute_premium (s : Store) (user : User) :
  subscribeRoute None s = (Failed 401 "Not authenticated", s) /\
  (map_get (users s) (user_id user) = None ->
   subscribeRoute (Some user) s = (Failed 500 "Failed to process subscription", s)) /\
  (forall stored, map_get (users s) (user_id user) = Some stored ->
   exists s',
     subscribeRoute (Some user) s =
       (Sent 200 {| public_id := user_id stored; public_email := email stored;
                    public_currency := user_currency stored;
                    public_isPremium := true |}, s') /\
     (exists user', deserializeUser (user_id user) s' = Some user' /\
        isPremium user' = true /\ email user' = email stored /\
        password user' = password stored /\
        forall (A : Type) (next : User -> Store -> Reply A * Store),
          isPremium_middleware (deserializeUser (user_id user) s') next s' = next user' s') /\
     (forall id, id <> user_id user -> deserializeUser id s' = deserializeUser id s) /\
     map fst (users s') = map fst (users s) /\
     incomes s' = incomes s /\ expenses s' = expenses s /\
     savingsGoals s' = savingsGoals s) /\
  (forall session, fst (subscribeRoute session s) <> Failed 404 "User not found").
Proof.
  assert (Found : forall u stored, map_get (users s) (user_id u) = Some stored ->
            subscribeRoute (Some u) s =
            (Sent 200 {| public_id := user_id stored; public_email := email stored;
                         public_currency := user_currency stored;
                         public_isPremium := true |},
             with_users s
               (map_set (users s) (user_id u)
                  {| user_id := user_id stored; email := email stored;
                     password := password stored;
                     user_currency := user_currency stored; isPremium := true |})
               (userIdCounter s))).
  { intros u stored G. unfold subscribeRoute, isAuthenticated, updateUserPremiumStatus.
    rewrite G. unfold getUser. cbn [users with_users].
    rewrite map_get_set_same. reflexivity. }
  assert (Missing : forall u, map_get (users s) (user_id u) = None ->
            subscribeRoute (Some u) s =
            (Failed 500 "Failed to process subscription", s)).
  { intros u G. unfold subscribeRoute, isAuthenticated, updateUserPremiumStatus.
    now rewrite G. }
  split; [reflexivity | ]. split; [apply Missing | ]. split.
  - intros stored G. eexists. split; [apply (Found user stored G) | ].
    unfold deserializeUser, getUser. cbn [users incomes expenses savingsGoals with_users].
    split; [ | split; [ | split; [ | repeat split]]].
    + eexists. rewrite map_get_set_same. split; [reflexivity | ].
      cbn [isPremium email password]. repeat split.
    + intros id Hid. now rewrite map_get_set_other by congruence.
    + apply (proj1 (map_set_present _ _ _ _ G)).
  - intros [u | ]; [ | cbn; discriminate].
    destruct (map_get (users s) (user_id u)) as [stored | ] eqn:G.
    + rewrite (Found u stored G). cbn. discriminate.
    + rewrite (Missing u G). cbn. discriminate.
Qed.

End RouteFacts.


(** * The keys of [expensesByCategory] *)

Module CategoryKeys.
Import Schema Dashboard.











End CategoryKeys.


(** * Rounded values on the grid of their last place *)

Module F64Grid.
Import F64 F64Facts.

Local Open Scope Z_scope.

Lemma val_lt (m1 m2 : positive) (e1 e2 : Z) :
  Zpos (Pos.size m1) = 53 -> Zpos (Pos.size m2) = 53 ->
  e1 < e2 \/ (e1 = e2 /\ Zpos m1 < Zpos m2) ->
  (val m1 e1 < val m2 e2)%R.
Proof.
  intros S1 S2 H. unfold val.
  pose proof (size_53_bounds m1 S1) as [_ B1]. pose proof (size_53_bounds m2 S2) as [B2 _].
  pose proof (powerRZ_2_pos e1) as P1. pose proof (powerRZ_2_pos e2) as P2.
  destruct H as [L | [-> L]].
  - apply Rlt_le_trans with (IZR (2 ^ 53) * powerRZ 2 e1)%R.
    + apply Rmult_lt_compat_r; [lra | apply IZR_lt; lia].
    + apply Rle_trans with (IZR (2 ^ 52) * powerRZ 2 e2)%R.
      * rewrite !IZR_pow2, <- !powerRZ_add by (lia || lra).
        apply powerRZ_2_mono. lia.
      * apply Rmult_le_compat_r; [lra | now apply IZR_le].
  - apply Rmult_lt_compat_r; [lra | now apply IZR_lt].
Qed.

(** A normal number is determined by its value. *)
Lemma val_inj (m1 m2 : positive) (e1 e2 : Z) :
  Zpos (Pos.size m1) = 53 -> Zpos (Pos.size m2) = 53 ->
  val m1 e1 = val m2 e2 -> m1 = m2 /\ e1 = e2.
Proof.
  intros S1 S2 E.
  destruct (Z.lt_trichotomy e1 e2) as [L | [-> | L]].
  - pose proof (val_lt m1 m2 e1 e2 S1 S2 (or_introl L)). lra.
  - destruct (Z.lt_trichotomy (Zpos m1) (Zpos m2)) as [L | [L | L]].
    + pose proof (val_lt m1 m2 e2 e2 S1 S2 (or_intror (conj eq_refl L))). lra.
    + split; [lia | reflexivity].
    + pose proof (val_lt m2 m1 e2 e2 S2 S1 (or_intror (conj eq_refl L))). lra.
  - pose proof (val_lt m2 m1 e2 e1 S2 S1 (or_introl L)). lra.
Qed.

Lemma nrepr_eq (x y : float) (m : positive) (e : Z) :
  nrepr x m e -> nrepr y m e -> x = y.
Proof. intros [Ex _] [Ey _]. apply Prim2SF_inj. congruence. Qed.

Lemma nrepr_fnum (x : float) (m : positive) (e : Z) : nrepr x m e -> fnum x.
Proof. intros [E _]. unfold fnum. now rewrite E. Qed.

(** The order of normal numbers is the order of their values. *)
Lemma ltb_val (x y : float) (mx my : positive) (ex ey : Z) :
  nrepr x mx ex -> nrepr y my ey ->
  ((x <? y)%float = true <-> (val mx ex < val my ey)%R).
Proof.
  intros Nx Ny. pose proof Nx as [Ex Sx]. pose proof Ny as [Ey Sy].
  rewrite ltb_key by (eapply nrepr_fnum; eassumption).
  unfold fkey. rewrite Ex, Ey. cbn [key klt]. split.
  - intros [H | [_ H]]; [lia | ]. now apply val_lt.
  - intro H. right. split; [reflexivity | ].
    destruct (Z.lt_trichotomy ex ey) as [L | [-> | L]].
    + now left.
    + right. split; [reflexivity | ].
      destruct (Z_lt_le_dec (Zpos mx) (Zpos my)) as [L | L]; [assumption | ].
      pose proof (val_le my mx ey ey Sy Sx (or_intror (conj eq_refl L))). lra.
    + pose proof (val_lt my mx ey ex Sy Sx (or_introl L)). lra.
Qed.

Lemma leb_val (x y : float) (mx my : positive) (ex ey : Z) :
  nrepr x mx ex -> nrepr y my ey ->
  ((x <=? y)%float = true <-> (val mx ex <= val my ey)%R).
Proof.
  intros Nx Ny. pose proof Nx as [Ex Sx]. pose proof Ny as [Ey Sy].
  rewrite leb_key by (eapply nrepr_fnum; eassumption).
  unfold fkey. rewrite Ex, Ey. cbn [key kle]. split.
  - intros [H | [_ H]]; [lia | ]. now apply val_le.
  - intro H. right. split; [reflexivity | ].
    destruct (Z.lt_trichotomy ex ey) as [L | [-> | L]].
    + now left.
    + right. split; [reflexivity | ].
      destruct (Z_lt_le_dec (Zpos my) (Zpos mx)) as [L | L]; [ | assumption].
      pose proof (val_lt my mx ey ey Sy Sx (or_intror (conj eq_refl L))). lra.
    + pose proof (val_lt my mx ey ex Sy Sx (or_introl L)). lra.
Qed.

(** A normal number whose value is an integer below [2^53] is the number
    of that integer. *)
Lemma nrepr_of_int (x : float) (m : positive) (e k : Z) :
  nrepr x m e -> val m e = IZR k -> 0 < k < 2 ^ 53 -> x = JS.of_int k.
Proof.
  intros Nx V Hk. destruct (of_int_nrepr k Hk) as (m' & e' & Nk).
  destruct (of_int_rel k m' e' Hk Nk) as [_ V'].
  destruct (val_inj m m' e e') as [-> ->]; [apply Nx | apply Nk | congruence | ].
  now apply (nrepr_eq x (JS.of_int k) m' e').
Qed.

(** From the integer inequalities of [binary_round_aux_near] to the grid
    of the rounded value: it is less than one step of its last place away
    from every value between the mantissa and its successor. *)
Lemma grid_val (p m' : positive) (e e' n : Z) (V : R) :
  0 <= n -> e + n <= e' ->
  Zpos m' * 2 ^ (e' - e) - 2 ^ n <= Zpos p ->
  Zpos p + 1 <= Zpos m' * 2 ^ (e' - e) + 2 ^ n ->
  (IZR (Zpos p) * powerRZ 2 e <= V < (IZR (Zpos p) + 1) * powerRZ 2 e)%R ->
  (val m' e' - powerRZ 2 e' <= V < val m' e' + powerRZ 2 e')%R.
Proof.
  intros Hn He H1 H2 [V1 V2].
  rewrite (val_shift m' e e') by lia.
  replace (powerRZ 2 e') with (IZR (2 ^ (e' - e)) * powerRZ 2 e)%R.
  2:{ rewrite IZR_pow2 by lia. rewrite <- powerRZ_add by lra. f_equal. lia. }
  pose proof (powerRZ_2_pos e) as S. set (s := powerRZ 2 e) in *.
  set (A := Zpos m' * 2 ^ (e' - e)) in *.
  assert (HT : 2 ^ n <= 2 ^ (e' - e)) by (apply Z.pow_le_mono_r; lia).
  apply IZR_le in H1, H2, HT.
  rewrite minus_IZR in H1. rewrite !plus_IZR in H2.
  set (T := IZR (2 ^ n)) in *. set (U := IZR (2 ^ (e' - e))) in *.
  set (a := IZR A) in *. set (q := IZR (Zpos p)) in *.
  assert (B1 : ((a - U) * s <= q * s)%R) by (apply Rmult_le_compat_r; lra).
  assert (B2 : ((q + 1) * s <= (a + U) * s)%R) by (apply Rmult_le_compat_r; lra).
  split; lra.
Qed.

Lemma mul_grid (f g : float) (mx my : positive) (ex ey : Z) :
  nrepr f mx ex -> nrepr g my ey -> -1126 <= ex + ey <= 916 ->
  exists m e,
    nrepr (f * g) m e /\ ex + ey + 52 <= e <= ex + ey + 54 /\
    (val m e - powerRZ 2 e <= val mx ex * val my ey < val m e + powerRZ 2 e)%R.
Proof.
  intros [Ef Sf] [Eg Sg] He.
  pose proof (size_53_bounds mx Sf) as Bx. pose proof (size_53_bounds my Sg) as By.
  change (2 ^ 52) with 4503599627370496 in *.
  change (2 ^ 53) with 9007199254740992 in *.
  assert (Bp : 2 ^ 104 <= Zpos (mx * my) < 2 ^ 106).
  { rewrite Pos2Z.inj_mul.
    change (2 ^ 104) with (4503599627370496 * 4503599627370496).
    change (2 ^ 106) with (9007199254740992 * 9007199254740992). nia. }
  assert (Sp : Zpos (Pos.size (mx * my)) = 105 \/ Zpos (Pos.size (mx * my)) = 106).
  { destruct (Z_lt_le_dec (Zpos (mx * my)) (2 ^ 105)).
    - left. apply size_unique. lia.
    - right. apply size_unique. lia. }
  destruct (binary_round_aux_near (mx * my) (ex + ey) loc_Exact)
    as (m & e & E & Sm & Be & V1 & V2); try lia.
  exists m, e. split; [split; [ | assumption] | split; [lia | ]].
  - rewrite mul_spec, Ef, Eg. exact E.
  - apply (grid_val (mx * my) m (ex + ey) e (Zpos (Pos.size (mx * my)) - 53));
      try lia.
    unfold val. rewrite Pos2Z.inj_mul, mult_IZR, powerRZ_add by lra.
    pose proof (powerRZ_2_pos ex). pose proof (powerRZ_2_pos ey).
    assert (0 < powerRZ 2 ex * powerRZ 2 ey)%R by (now apply Rmult_lt_0_compat).
    split; [right; ring | ].
    rewrite Rmult_plus_distr_r. lra.
Qed.

Lemma div_grid (f g : float) (mx my : positive) (ex ey : Z) :
  nrepr f mx ex -> nrepr g my ey -> -1021 <= ex - ey <= 1022 ->
  exists m e,
    nrepr (f / g) m e /\ ex - ey - 53 <= e <= ex - ey - 51 /\
    (val m e - powerRZ 2 e <= val mx ex / val my ey < val m e + powerRZ 2 e)%R.
Proof.
  intros [Ef Sf] [Eg Sg] He.
  destruct (SFdiv_core_53 mx my ex ey Sf Sg) as (q & r & l & E & D & Br & Bq); [lia | ].
  assert (Sq : Zpos (Pos.size q) = 53 \/ Zpos (Pos.size q) = 54).
  { destruct (Z_lt_le_dec (Zpos q) (2 ^ 53)).
    - left. apply size_unique. lia.
    - right. apply size_unique. lia. }
  destruct (binary_round_aux_near q (ex - ey - 53) l)
    as (m & e & E' & Sm & Be & V1 & V2); try lia.
  exists m, e. split; [split; [ | assumption] | split; [lia | ]].
  - rewrite div_spec, Ef, Eg. unfold SF64div, SFdiv. rewrite E. exact E'.
  - apply (grid_val q m (ex - ey - 53) e (Zpos (Pos.size q) - 53)); try lia.
    unfold val.
    pose proof (powerRZ_2_pos ex) as Px. pose proof (powerRZ_2_pos ey) as Py.
    assert (Hy : (0 < IZR (Zpos my))%R) by (apply IZR_lt; lia).
    replace (powerRZ 2 (ex - ey - 53))
      with (powerRZ 2 ex / powerRZ 2 ey / IZR (2 ^ 53))%R.
    2:{ rewrite IZR_pow2 by lia.
        replace (ex - ey - 53) with (ex + (- ey + - (53))) by lia.
        rewrite !powerRZ_add, !powerRZ_neg' by lra.
        pose proof (powerRZ_2_pos 53). field. split; lra. }
    apply (f_equal IZR) in D. rewrite plus_IZR, !mult_IZR in D.
    assert (Hr : (0 <= IZR r < IZR (Zpos my))%R)
      by (split; [apply IZR_le | apply IZR_lt]; lia).
    assert (H53 : (0 < IZR (2 ^ 53))%R) by (apply IZR_lt; reflexivity).
    set (a := IZR (Zpos mx)) in *. set (b := IZR (Zpos my)) in *.
    set (c := IZR (Zpos q)) in *. set (t := IZR (2 ^ 53)) in *.
    set (sx := powerRZ 2 ex) in *. set (sy := powerRZ 2 ey) in *.
    assert (Ea : (a * sx / (b * sy) = (c + IZR r / b) * (sx / sy / t))%R).
    { replace a with ((b * c + IZR r) / t)%R by (rewrite <- D; field; lra).
      field. repeat split; lra. }
    rewrite Ea.
    assert (Hs : (0 < sx / sy / t)%R).
    { apply Rdiv_lt_0_compat; [apply Rdiv_lt_0_compat | ]; assumption. }
    assert (Hf : (0 <= IZR r / b < 1)%R).
    { split.
      - apply Rmult_le_pos; [lra | left; now apply Rinv_0_lt_compat].
      - apply Rmult_lt_reg_r with b; [assumption | ].
        unfold Rdiv. rewrite Rmult_assoc, Rinv_l by lra. lra. }
    split; [apply Rmult_le_compat_r; lra | apply Rmult_lt_compat_r; lra].
Qed.

(** An integer is on the grid of a number whose last place is at most the
    units: within less than one step of the integer, the number is on the
    integer's side. *)
Lemma grid_int (m : positive) (e k : Z) :
  e <= 0 ->
  ((IZR k - powerRZ 2 e < val m e)%R -> (IZR k <= val m e)%R) /\
  ((val m e < IZR k + powerRZ 2 e)%R -> (val m e <= IZR k)%R).
Proof.
  intro He. unfold val.
  assert (Ek : IZR k = (IZR (k * 2 ^ (- e)) * powerRZ 2 e)%R).
  { rewrite mult_IZR, IZR_pow2 by lia. rewrite Rmult_assoc, <- powerRZ_add by lra.
    replace (- e + e) with 0 by lia. cbn [powerRZ]. ring. }
  rewrite Ek. pose proof (powerRZ_2_pos e) as S. set (s := powerRZ 2 e) in *.
  set (K := k * 2 ^ (- e)). split; intro H.
  - assert (L : (IZR (K - 1) < IZR (Zpos m))%R).
    { rewrite minus_IZR. apply Rmult_lt_reg_r with s; [assumption | lra]. }
    apply lt_IZR in L. apply Rmult_le_compat_r; [lra | ]. apply IZR_le. lia.
  - assert (L : (IZR (Zpos m) < IZR (K + 1))%R).
    { rewrite plus_IZR. apply Rmult_lt_reg_r with s; [assumption | lra]. }
    apply lt_IZR in L. apply Rmult_le_compat_r; [lra | ]. apply IZR_le. lia.
Qed.

End F64Grid.


(** * [Math.floor] and [Math.ceil] by value *)

Module F64Int.
Import F64 F64Facts F64Grid.

Local Open Scope Z_scope.

Lemma int_between (j k : Z) (v : R) :
  (IZR j <= v < IZR j + 1)%R -> (IZR k <= v < IZR k + 1)%R -> j = k.
Proof.
  intros [J1 J2] [K1 K2].
  assert (A : (IZR j < IZR (k + 1))%R) by (rewrite plus_IZR; lra).
  assert (B : (IZR k < IZR (j + 1))%R) by (rewrite plus_IZR; lra).
  apply lt_IZR in A, B. lia.
Qed.

(** The integer part of a dyadic [m * 2^e], [e < 0]. *)
Lemma int_part_val (m : positive) (e : Z) :
  e < 0 ->
  (IZR (JS.int_part m e) <= val m e < IZR (JS.int_part m e) + 1)%R /\
  (JS.is_integral m e = true -> val m e = IZR (JS.int_part m e)) /\
  (JS.is_integral m e = false -> (IZR (JS.int_part m e) < val m e)%R).
Proof.
  intro He. unfold JS.is_integral, JS.int_part.
  rewrite Z.shiftr_div_pow2, Z.shiftl_mul_pow2 by lia.
  assert (P : 0 < 2 ^ (- e)) by (apply Z.pow_pos_nonneg; lia).
  pose proof (Z_div_mod_eq_full (Zpos m) (2 ^ (- e))) as D.
  pose proof (Z.mod_pos_bound (Zpos m) (2 ^ (- e)) P) as B.
  set (j := Zpos m / 2 ^ (- e)) in *. set (r := Zpos m mod 2 ^ (- e)) in *.
  assert (Ev : val m e = (IZR j + IZR r / IZR (2 ^ (- e)))%R).
  { unfold val. rewrite D, plus_IZR, mult_IZR.
    assert (Ep : powerRZ 2 e = (/ IZR (2 ^ (- e)))%R).
    { rewrite IZR_pow2 by lia. rewrite <- powerRZ_neg' by lra. f_equal. lia. }
    rewrite Ep. assert (0 < IZR (2 ^ (- e)))%R by (apply IZR_lt; lia).
    field. lra. }
  assert (HP : (0 < IZR (2 ^ (- e)))%R) by (apply IZR_lt; lia).
  assert (Hr : (0 <= IZR r / IZR (2 ^ (- e)) < 1)%R).
  { split.
    - apply Rmult_le_pos; [apply IZR_le; lia | left; now apply Rinv_0_lt_compat].
    - apply Rmult_lt_reg_r with (IZR (2 ^ (- e))); [assumption | ].
      unfold Rdiv. rewrite Rmult_assoc, Rinv_l by lra.
      rewrite Rmult_1_r, Rmult_1_l. apply IZR_lt. lia. }
  rewrite Ev. split; [lra | ]. split.
  - intro H. apply Z.eqb_eq in H. assert (r = 0) by lia.
    replace r with 0 by lia. unfold Rdiv. rewrite Rmult_0_l. ring.
  - intro H. apply Z.eqb_neq in H. assert (Hr0 : 0 < r) by lia.
    assert (0 < IZR r / IZR (2 ^ (- e)))%R.
    { apply Rdiv_lt_0_compat; [apply IZR_lt; lia | assumption]. }
    lra.
Qed.

(** A number with a non-negative exponent is an integer. *)
Lemma val_integer (m : positive) (e : Z) :
  0 <= e -> val m e = IZR (Zpos m * 2 ^ e).
Proof. intro He. unfold val. now rewrite mult_IZR, IZR_pow2. Qed.

Lemma Math_floor_val (x : float) (m : positive) (e k : Z) :
  nrepr x m e -> (IZR k <= val m e < IZR k + 1)%R -> 0 <= k < 2 ^ 53 ->
  JS.Math_floor x = JS.of_int k.
Proof.
  intros Nx Hv Hk. pose proof Nx as [E S]. unfold JS.Math_floor. rewrite E.
  pose proof (val_pos m e) as Pv.
  assert (Hint : val m e = IZR k -> x = JS.of_int k).
  { intro V. apply (nrepr_of_int x m e k Nx V).
    split; [ | lia]. apply lt_IZR. lra. }
  destruct (Z.leb_spec 0 e) as [He | He].
  - apply Hint. rewrite (val_integer m e He) in *.
    f_equal. apply (int_between _ _ (IZR (Zpos m * 2 ^ e))); [lra | assumption].
  - destruct (int_part_val m e He) as (B & I1 & I2).
    assert (Ej : JS.int_part m e = k) by (now apply (int_between _ _ (val m e))).
    destruct (JS.is_integral m e).
    + apply Hint. rewrite <- Ej. now apply I1.
    + now rewrite Ej.
Qed.

Lemma Math_ceil_val (x : float) (m : positive) (e k : Z) :
  nrepr x m e -> (IZR k - 1 < val m e <= IZR k)%R -> 0 < k < 2 ^ 53 ->
  JS.Math_ceil x = JS.of_int k.
Proof.
  intros Nx Hv Hk. pose proof Nx as [E S]. unfold JS.Math_ceil. rewrite E.
  assert (Hint : val m e = IZR k -> x = JS.of_int k)
    by (intro V; now apply (nrepr_of_int x m e k Nx V)).
  destruct (Z.leb_spec 0 e) as [He | He].
  - apply Hint. rewrite (val_integer m e He) in *. f_equal.
    assert (A : (IZR (k - 1) < IZR (Zpos m * 2 ^ e))%R) by (rewrite minus_IZR; lra).
    apply lt_IZR in A. destruct Hv as [_ Hv]. apply le_IZR in Hv. lia.
  - destruct (int_part_val m e He) as (B & I1 & I2).
    destruct (JS.is_integral m e).
    + apply Hint. rewrite (I1 eq_refl) in *. f_equal.
      assert (A : (IZR (k - 1) < IZR (JS.int_part m e))%R) by (rewrite minus_IZR; lra).
      apply lt_IZR in A. destruct Hv as [_ Hv]. apply le_IZR in Hv. lia.
    + specialize (I2 eq_refl). f_equal.
      assert (A : (IZR (JS.int_part m e) < IZR k)%R) by lra.
      assert (C : (IZR (k - 1) < IZR (JS.int_part m e + 1))%R)
        by (rewrite minus_IZR, plus_IZR; lra).
      apply lt_IZR in A, C. lia.
Qed.

(** The opposite of a normal number. *)
Lemma opp_nrepr (y : float) (m : positive) (e : Z) :
  nrepr y m e -> Prim2SF (- y)%float = S754_finite true m e.
Proof. intros [E _]. now rewrite opp_spec, E. Qed.

Lemma of_int_opp (k : Z) : 0 <= k -> JS.of_int (- k) = (- JS.of_int k)%float \/ k = 0.
Proof. intro H. destruct k; try lia. now left. Qed.

Lemma Math_floor_neg (y : float) (m : positive) (e k : Z) :
  nrepr y m e -> (IZR k - 1 < val m e <= IZR k)%R -> 0 < k < 2 ^ 53 ->
  JS.Math_floor (- y)%float = JS.of_int (- k).
Proof.
  intros Ny Hv Hk. unfold JS.Math_floor. rewrite (opp_nrepr y m e Ny).
  assert (Ek : JS.of_int (- k) = (- JS.of_int k)%float)
    by (destruct (of_int_opp k) as [H | H]; [lia | exact H | lia]).
  assert (Hint : val m e = IZR k -> (- y)%float = JS.of_int (- k)).
  { intro V. rewrite Ek. f_equal. now apply (nrepr_of_int y m e k Ny V). }
  destruct (Z.leb_spec 0 e) as [He | He].
  - apply Hint. rewrite (val_integer m e He) in *. f_equal.
    assert (A : (IZR (k - 1) < IZR (Zpos m * 2 ^ e))%R) by (rewrite minus_IZR; lra).
    apply lt_IZR in A. destruct Hv as [_ Hv]. apply le_IZR in Hv. lia.
  - destruct (int_part_val m e He) as (B & I1 & I2).
    destruct (JS.is_integral m e).
    + apply Hint. rewrite (I1 eq_refl) in *. f_equal.
      assert (A : (IZR (k - 1) < IZR (JS.int_part m e))%R) by (rewrite minus_IZR; lra).
      apply lt_IZR in A. destruct Hv as [_ Hv]. apply le_IZR in Hv. lia.
    + specialize (I2 eq_refl). f_equal.
      assert (A : (IZR (JS.int_part m e) < IZR k)%R) by lra.
      assert (C : (IZR (k - 1) < IZR (JS.int_part m e + 1))%R)
        by (rewrite minus_IZR, plus_IZR; lra).
      apply lt_IZR in A, C. lia.
Qed.

Lemma Math_ceil_neg (y : float) (m : positive) (e k : Z) :
  nrepr y m e -> (IZR k <= val m e < IZR k + 1)%R -> 0 <= k < 2 ^ 53 ->
  JS.Math_ceil (- y)%float = (- JS.of_int k)%float.
Proof.
  intros Ny Hv Hk. unfold JS.Math_ceil. rewrite (opp_nrepr y m e Ny).
  pose proof (val_pos m e) as Pv.
  assert (Hint : val m e = IZR k -> (- y)%float = (- JS.of_int k)%float).
  { intro V. f_equal. apply (nrepr_of_int y m e k Ny V).
    split; [ | lia]. apply lt_IZR. lra. }
  destruct (Z.leb_spec 0 e) as [He | He].
  - apply Hint. rewrite (val_integer m e He) in *.
    f_equal. apply (int_between _ _ (IZR (Zpos m * 2 ^ e))); [lra | assumption].
  - destruct (int_part_val m e He) as (B & I1 & I2).
    assert (Ej : JS.int_part m e = k) by (now apply (int_between _ _ (val m e))).
    destruct (JS.is_integral m e).
    + apply Hint. rewrite <- Ej. now apply I1.
    + now rewrite Ej.
Qed.

(** Rounding does not look at the sign. *)
Lemma binary_round_aux_opp (s : bool) (m e : Z) (l : location) :
  binary_round_aux prec emax (negb s) m e l = SFopp (binary_round_aux prec emax s m e l).
Proof.
  unfold binary_round_aux.
  destruct (shr_fexp prec emax m e l) as [mrs' e'].
  destruct (shr_fexp prec emax _ e' loc_Exact) as [mrs'' e''].
  destruct (shr_m mrs''); [reflexivity | | reflexivity].
  destruct (e'' <=? emax - prec); reflexivity.
Qed.

Lemma div_opp_l (x y : float) (mx my : positive) (ex ey : Z) :
  nrepr x mx ex -> nrepr y my ey -> (- x / y = - (x / y))%float.
Proof.
  intros [Ex _] [Ey _]. apply Prim2SF_inj.
  rewrite opp_spec, !div_spec, opp_spec, Ex, Ey. cbn [SFopp negb].
  unfold SF64div, SFdiv.
  destruct (SFdiv_core_binary prec emax (Zpos mx) ex (Zpos my) ey) as [[mz ez] lz].
  cbn [xorb]. apply (binary_round_aux_opp false).
Qed.

(** The numbers of integers are ordered as the integers. *)
Lemma of_int_val (k : Z) :
  0 < k < 2 ^ 53 -> exists m e, nrepr (JS.of_int k) m e /\ -52 <= e <= 0 /\ val m e = IZR k.
Proof.
  intro Hk. destruct (of_int_nrepr k Hk) as (m & e & N).
  destruct (of_int_rel k m e Hk N). now exists m, e.
Qed.

Lemma of_int_ltb (a b : Z) :
  0 < a < 2 ^ 53 -> 0 < b < 2 ^ 53 ->
  (JS.of_int a <? JS.of_int b)%float = (a <? b).
Proof.
  intros Ha Hb.
  destruct (of_int_val a Ha) as (ma & ea & Na & _ & Va).
  destruct (of_int_val b Hb) as (mb & eb & Nb & _ & Vb).
  pose proof (ltb_val _ _ ma mb ea eb Na Nb) as H. rewrite Va, Vb in H.
  destruct (Z.ltb_spec a b) as [L | L].
  - apply H. now apply IZR_lt.
  - destruct (JS.of_int a <? JS.of_int b)%float; [ | reflexivity].
    destruct H as [H _]. specialize (H eq_refl). apply lt_IZR in H. lia.
Qed.

End F64Int.


(** * Quotients of integers *)

Module F64Quot.
Import F64 F64Facts F64Grid F64Int.

Local Open Scope Z_scope.

(** The quotient of the mantissas of two normal numbers, with the place of
    the remainder. *)
Lemma SFdiv_core_loc (mx my : positive) (ex ey : Z) :
  Zpos (Pos.size mx) = 53 -> Zpos (Pos.size my) = 53 -> -1074 <= ex - ey - 53 ->
  exists q r,
    SFdiv_core_binary prec emax (Zpos mx) ex (Zpos my) ey =
      (Zpos q, ex - ey - 53, new_location (Zpos my) r) /\
    Zpos mx * 2 ^ 53 = Zpos my * Zpos q + r /\ 0 <= r < Zpos my /\
    2 ^ 52 <= Zpos q < 2 ^ 54.
Proof.
  intros Sx Sy He.
  pose proof (size_53_bounds mx Sx) as Bx. pose proof (size_53_bounds my Sy) as By.
  assert (E : SFdiv_core_binary prec emax (Zpos mx) ex (Zpos my) ey =
              let '(q, r) := Z.div_eucl (Zpos mx * 2 ^ 53) (Zpos my) in
              (q, ex - ey - 53, new_location (Zpos my) r)).
  { unfold SFdiv_core_binary. cbn [Zdigits2].
    rewrite (digits2_size mx), (digits2_size my), Sx, Sy, fexp_53.
    rewrite Z.min_l by lia.
    replace (Z.max (53 + ex - (53 + ey) - 53) (-1074)) with (ex - ey - 53) by lia.
    replace (ex - ey - (ex - ey - 53)) with 53 by lia.
    rewrite Z.shiftl_mul_pow2 by lia. reflexivity. }
  rewrite E. clear E.
  pose proof (Z_div_mod (Zpos mx * 2 ^ 53) (Zpos my) eq_refl) as D.
  destruct (Z.div_eucl (Zpos mx * 2 ^ 53) (Zpos my)) as [q r].
  destruct D as [D1 D2].
  change (2 ^ 52) with 4503599627370496 in *.
  change (2 ^ 53) with 9007199254740992 in *.
  change (2 ^ 54) with 18014398509481984 in *.
  assert (Bq : 4503599627370496 <= q < 18014398509481984) by nia.
  destruct q as [ | q | q]; try lia.
  exists q, r. repeat split; try lia.
Qed.

Lemma new_location_exact (n : Z) : new_location n 0 = loc_Exact.
Proof. unfold new_location. destruct (Z.even n); reflexivity. Qed.

(** The mantissa and exponent of the number of a positive safe integer. *)
Lemma of_int_mantissa (k : Z) :
  0 < k < 2 ^ 53 ->
  exists m e, nrepr (JS.of_int k) m e /\ -52 <= e <= 0 /\ Zpos m = k * 2 ^ (- e).
Proof.
  intro Hk. assert (Hs : safe k) by (unfold safe; lia).
  destruct (Z2SF_finite k) as (m & e & E & Be & Hm & S); [lia | assumption | ].
  exists m, e. split; [split; [ | assumption] | split; [assumption | ]].
  - rewrite (of_int_spec k Hs), E.
    now replace (k <? 0) with false by (symmetry; apply Z.ltb_ge; lia).
  - rewrite Hm. f_equal. lia.
Qed.

(** A quotient of integers that is an integer is computed exactly. *)
Lemma div_exact (k D : Z) :
  0 < k -> 0 < D -> k * D < 2 ^ 53 ->
  (JS.of_int (k * D) / JS.of_int D)%float = JS.of_int k.
Proof.
  intros Hk HD Hp.
  assert (Hk' : 0 < k < 2 ^ 53) by nia.
  assert (HD' : 0 < D < 2 ^ 53) by nia.
  assert (Ha' : 0 < k * D < 2 ^ 53) by nia.
  destruct (of_int_mantissa _ Ha') as (ma & ea & [Ea Sa] & Bea & Ma).
  destruct (of_int_mantissa _ HD') as (md & ed & [Ed Sd] & Bed & Md).
  destruct (of_int_mantissa _ Hk') as (mk & ek & [Ek Sk] & Bek & Mk).
  apply Prim2SF_inj. rewrite div_spec, Ea, Ed, Ek. unfold SF64div, SFdiv.
  destruct (SFdiv_core_loc ma md ea ed Sa Sd) as (q & r & E & Dq & Br & Bq); [lia | ].
  rewrite E. cbn [xorb].
  set (t := ed - ea + 53).
  assert (Ht : 0 <= t) by (unfold t; lia).
  assert (Pa : 0 < 2 ^ (- ea)) by (apply Z.pow_pos_nonneg; lia).
  assert (Pd : 0 < 2 ^ (- ed)) by (apply Z.pow_pos_nonneg; lia).
  assert (Pk : 0 < 2 ^ (- ek)) by (apply Z.pow_pos_nonneg; lia).
  assert (Pt : 0 < 2 ^ t) by (apply Z.pow_pos_nonneg; lia).
  (* the dividend is a multiple of the divisor *)
  assert (Em : Zpos ma * 2 ^ 53 = Zpos md * (k * 2 ^ t)).
  { rewrite Ma, Md.
    replace (k * D * 2 ^ (- ea) * 2 ^ 53) with (k * D * (2 ^ (- ea) * 2 ^ 53)) by ring.
    rewrite <- Z.pow_add_r by lia.
    replace (D * 2 ^ (- ed) * (k * 2 ^ t)) with (k * D * (2 ^ (- ed) * 2 ^ t)) by ring.
    rewrite <- Z.pow_add_r by lia.
    f_equal. f_equal. unfold t. lia. }
  assert (Er : r = 0 /\ Zpos q = k * 2 ^ t).
  { assert (Hq : Zpos md * (Zpos q - k * 2 ^ t) + r = 0) by lia.
    assert (Zpos q - k * 2 ^ t = 0) by nia. lia. }
  destruct Er as [-> Eq]. rewrite new_location_exact.
  (* the quotient is the mantissa of [k] followed by zeros *)
  pose proof (size_53_bounds mk Sk) as Bmk.
  assert (Hn : 0 <= t + ek).
  { destruct (Z_lt_le_dec (t + ek) 0) as [L | L]; [ | assumption]. exfalso.
    assert (Zpos mk = Zpos q * 2 ^ (- (t + ek))).
    { rewrite Mk, Eq. replace (k * 2 ^ t * 2 ^ (- (t + ek))) with (k * (2 ^ t * 2 ^ (- (t + ek)))) by ring.
      rewrite <- Z.pow_add_r by lia. f_equal. f_equal. lia. }
    assert (2 <= 2 ^ (- (t + ek))).
    { change 2 with (2 ^ 1) at 1. apply Z.pow_le_mono_r; lia. }
    change (2 ^ 52) with 4503599627370496 in *.
    change (2 ^ 53) with 9007199254740992 in *. nia. }
  assert (Eqk : Zpos q = Zpos mk * 2 ^ (t + ek)).
  { rewrite Mk, Eq. replace (k * 2 ^ (- ek) * 2 ^ (t + ek)) with (k * (2 ^ (- ek) * 2 ^ (t + ek))) by ring.
    rewrite <- Z.pow_add_r by lia. f_equal. f_equal. lia. }
  rewrite (binary_round_aux_exact false q mk (ea - ed - 53) (t + ek) Hn Eqk Sk)
    by (unfold t; lia).
  f_equal. unfold t. lia.
Qed.

(** The quotient of two positive integers, the dividend at most [2^50]:
    the number computed lies between the whole quotient and its successor,
    on the whole quotient exactly when the division leaves no remainder. *)
Lemma div_int (a D : Z) :
  0 < a <= 2 ^ 50 -> 0 < D < 2 ^ 53 ->
  exists m e,
    nrepr (JS.of_int a / JS.of_int D) m e /\
    (IZR (a / D) <= val m e < IZR (a / D) + 1)%R /\
    (a mod D = 0 -> val m e = IZR (a / D)) /\
    (a mod D <> 0 -> (IZR (a / D) < val m e)%R).
Proof.
  intros Ha HD.
  assert (Ha' : 0 < a < 2 ^ 53).
  { split; [lia | ]. apply Z.le_lt_trans with (2 ^ 50); [lia | reflexivity]. }
  pose proof (Z_div_mod_eq_full a D) as Dv.
  pose proof (Z.mod_pos_bound a D ltac:(lia)) as Br.
  set (k := a / D) in *. set (r := a mod D) in *.
  destruct (Z.eq_dec r 0) as [R0 | R0].
  - (* no remainder *)
    assert (Hk : 0 < k) by nia.
    assert (Eq : (JS.of_int a / JS.of_int D)%float = JS.of_int k).
    { replace a with (k * D) by lia. apply div_exact; lia. }
    destruct (of_int_val k) as (m & e & N & _ & V); [nia | ].
    exists m, e. rewrite Eq, V. split; [assumption | ]. split; [lra | ].
    split; [reflexivity | intro H; contradiction].
  - destruct (of_int_val a Ha') as (ma & ea & Na & Bea & Va).
    destruct (of_int_val D HD) as (md & ed & Nd & Bed & Vd).
    destruct (div_grid _ _ ma md ea ed Na Nd) as (m & e & N & Be & G1 & G2); [lia | ].
    rewrite Va, Vd in G1, G2.
    exists m, e. split; [assumption | ].
    assert (PD : (0 < IZR D)%R) by (apply IZR_lt; lia).
    (* the value of the quotient *)
    assert (EV : (IZR a / IZR D = IZR k + IZR r / IZR D)%R).
    { rewrite Dv, plus_IZR, mult_IZR. field. lra. }
    assert (Hr : (1 <= IZR r <= IZR D - 1)%R).
    { split; [apply IZR_le; lia | ]. rewrite <- minus_IZR. apply IZR_le. lia. }
    assert (Hr' : (/ IZR D <= IZR r / IZR D <= 1 - / IZR D)%R).
    { unfold Rdiv. pose proof (Rinv_0_lt_compat _ PD) as PI. split.
      - rewrite <- (Rmult_1_l (/ IZR D)) at 1. apply Rmult_le_compat_r; lra.
      - replace (1 - / IZR D)%R with ((IZR D - 1) * / IZR D)%R by (field; lra).
        apply Rmult_le_compat_r; lra. }
    (* one step of the last place is less than [1 / D] *)
    assert (Hs : (powerRZ 2 e < / IZR D)%R).
    { pose proof Na as [_ Sa]. pose proof Nd as [_ Sd].
      pose proof (size_53_bounds ma Sa) as [Bma _].
      pose proof (size_53_bounds md Sd) as [_ Bmd].
      apply IZR_le in Bma. apply IZR_lt in Bmd.
      unfold val in Va, Vd.
      pose proof (powerRZ_2_pos ea) as Pa. pose proof (powerRZ_2_pos ed) as Pd.
      pose proof (powerRZ_2_pos (- ed)) as Pd'.
      assert (Ed' : (powerRZ 2 ed * powerRZ 2 (- ed) = 1)%R).
      { rewrite <- powerRZ_add by lra. replace (ed + - ed) with 0 by lia. reflexivity. }
      apply Rle_lt_trans with (powerRZ 2 (ea - ed - 51)); [apply powerRZ_2_mono; lia | ].
      replace (ea - ed - 51) with (ea + (- ed + - (51))) by lia.
      rewrite !powerRZ_add, (powerRZ_neg' 2 51) by lra.
      rewrite <- (IZR_pow2 51) by lia.
      change (2 ^ 52) with 4503599627370496 in Bma.
      change (2 ^ 53) with 9007199254740992 in Bmd.
      change (2 ^ 51) with 2251799813685248.
      assert (A1 : (4503599627370496 * powerRZ 2 ea <= IZR a)%R).
      { rewrite <- Va. apply Rmult_le_compat_r; lra. }
      assert (A2 : (IZR a <= 1125899906842624)%R).
      { apply IZR_le. change 1125899906842624 with (2 ^ 50). lia. }
      assert (A3 : (IZR D * powerRZ 2 (- ed) < 9007199254740992)%R).
      { rewrite <- Vd, Rmult_assoc, Ed'. lra. }
      apply Rmult_lt_reg_l with (IZR D); [assumption | ].
      rewrite Rinv_r by lra.
      assert (A4 : (powerRZ 2 ea <= / 4)%R) by lra.
      assert (A5 : (IZR D * (powerRZ 2 ea * (powerRZ 2 (- ed) * / 2251799813685248)) =
                    powerRZ 2 ea * (IZR D * powerRZ 2 (- ed)) * / 2251799813685248)%R) by ring.
      rewrite A5.
      assert (A6 : (powerRZ 2 ea * (IZR D * powerRZ 2 (- ed)) <=
                    / 4 * (IZR D * powerRZ 2 (- ed)))%R).
      { apply Rmult_le_compat_r; [ | assumption].
        apply Rmult_le_pos; lra. }
      lra. }
    assert (He0 : e <= 0).
    { destruct (Z_le_gt_dec e 0) as [L | L]; [assumption | exfalso].
      pose proof (powerRZ_2_mono 0 e ltac:(lia)) as M. cbn [powerRZ] in M.
      assert (/ IZR D <= 1)%R.
      { rewrite <- Rinv_1. apply Rinv_le_contravar; [lra | ]. apply IZR_le. lia. }
      lra. }
    destruct (grid_int m e k He0) as [GL _].
    pose proof (powerRZ_2_pos e) as Pe.
    assert (L1 : (IZR k <= val m e)%R) by (apply GL; lra).
    repeat split; try lra. contradiction.
Qed.

End F64Quot.


(** * Goal pacing in whole numbers *)

Module Pacing.
Import F64 F64Facts F64Grid F64Int F64Quot.

Local Open Scope Z_scope.

Lemma Math_max_1_of_int (j : Z) :
  1 <= j < 2 ^ 53 -> JS.Math_max 1%float (JS.of_int j) = JS.of_int j.
Proof.
  intro Hj. destruct (Z.eq_dec j 1) as [-> | N]; [reflexivity | ].
  unfold JS.Math_max.
  assert (Hn : is_nan (JS.of_int j) = false).
  { apply is_nan_fnum. destruct (of_int_val j) as (m & e & Nj & _); [lia | ].
    now apply (nrepr_fnum _ m e). }
  assert (L : (1 <? JS.of_int j)%float = true).
  { change 1%float with (JS.of_int 1). rewrite of_int_ltb by lia.
    apply Z.ltb_lt. lia. }
  rewrite Hn, L. reflexivity.
Qed.

(** [Math.max(1, y)] for a zero or a negative number. *)
Lemma Math_max_1_nonpos (y : float) :
  match Prim2SF y with
  | S754_zero _ | S754_finite true _ _ => True
  | _ => False
  end -> JS.Math_max 1%float y = 1%float.
Proof.
  intro H. unfold JS.Math_max.
  assert (Ny : fnum y) by (unfold fnum; destruct (Prim2SF y); try contradiction; exact I).
  assert (N1 : fnum 1%float) by exact I.
  assert (L : (y <? 1)%float = true).
  { apply ltb_key; try assumption. unfold fkey.
    destruct (Prim2SF y) as [s | s | | [ | ] m e]; try contradiction; cbn; lia. }
  assert (L' : (1 <? y)%float = false).
  { destruct (1 <? y)%float eqn:E; [ | reflexivity].
    apply ltb_key in E; try assumption. apply ltb_key in L; try assumption.
    unfold fkey in *. destruct (Prim2SF y) as [s | s | | [ | ] m e]; try contradiction;
      cbn in *; lia. }
  apply is_nan_fnum in Ny. rewrite Ny, L', L. reflexivity.
Qed.

Lemma of_int_neg (a : Z) : 0 < a -> JS.of_int (- a) = (- JS.of_int a)%float.
Proof. intro H. destruct a; try lia. reflexivity. Qed.

(** The quotient of a negative integer by a positive one. *)
Lemma div_neg (a D : Z) :
  0 < a -> 0 < D ->
  (a mod D = 0 -> - a / D = - (a / D)) /\
  (a mod D <> 0 -> - a / D = - (a / D + 1)).
Proof.
  intros Ha HD. split; intro H.
  - apply Z.div_opp_l_z; [lia | assumption].
  - rewrite Z.div_opp_l_nz by (try assumption; lia). lia.
Qed.

(** [Math.floor] of a quotient of integers is the whole quotient. *)
Lemma floor_div (z D : Z) :
  Z.abs z <= 2 ^ 50 -> 0 < D < 2 ^ 53 -> (0 / JS.of_int D = 0)%float ->
  JS.Math_floor (JS.of_int z / JS.of_int D)%float = JS.of_int (z / D).
Proof.
  intros Hz HD H0. destruct (Z.lt_trichotomy z 0) as [L | [-> | L]].
  - set (a := - z). assert (Ha : 0 < a <= 2 ^ 50) by lia.
    replace z with (- a) by lia. rewrite (of_int_neg a) by lia.
    destruct (div_int a D Ha HD) as (m & e & N & B & I1 & I2).
    assert (Ha' : 0 < a < 2 ^ 53).
    { split; [lia | ]. apply Z.le_lt_trans with (2 ^ 50); [lia | reflexivity]. }
    destruct (of_int_val a Ha') as (ma & ea & Na & _).
    destruct (of_int_val D HD) as (md & ed & Nd & _).
    rewrite (div_opp_l _ _ ma md ea ed Na Nd).
    destruct (div_neg a D) as [D1 D2]; try lia.
    assert (Bq : 0 <= a / D <= 2 ^ 50).
    { split; [apply Z.div_pos; lia | ].
      apply Z.le_trans with a; [ | lia]. apply Z.div_le_upper_bound; nia. }
    assert (P53 : 2 ^ 50 + 1 < 2 ^ 53) by reflexivity.
    destruct (Z.eq_dec (a mod D) 0) as [R | R].
    + rewrite (D1 R). assert (0 < a / D).
      { pose proof (Z_div_mod_eq_full a D). rewrite R in *.
        destruct (Z.eq_dec (a / D) 0) as [Q | Q]; [rewrite Q in *; lia | lia]. }
      apply (Math_floor_neg _ m e); [assumption | | lia].
      rewrite (I1 R). lra.
    + rewrite (D2 R).
      apply (Math_floor_neg _ m e); [assumption | | lia].
      specialize (I2 R). rewrite plus_IZR. lra.
  - exact (f_equal JS.Math_floor H0).
  - assert (Ha : 0 < z <= 2 ^ 50) by lia.
    destruct (div_int z D Ha HD) as (m & e & N & B & _).
    apply (Math_floor_val _ m e); [assumption | assumption | ].
    split; [apply Z.div_pos; lia | ].
    apply Z.le_lt_trans with z; [apply Z.div_le_upper_bound; nia | ].
    apply Z.le_lt_trans with (2 ^ 50); [lia | reflexivity].
Qed.

(** [Math.max(1, Math.ceil(d / 30))] on a whole number of days. *)
Lemma months_of_days (d : Z) :
  Z.abs d <= 2 ^ 50 ->
  JS.Math_max 1%float (JS.Math_ceil (JS.of_int d / 30)%float) = JS.of_int (whole_months d).
Proof.
  intros Hd. unfold whole_months. change 30%float with (JS.of_int 30).
  assert (H30 : 0 < 30 < 2 ^ 53) by (split; reflexivity).
  assert (P53 : 2 ^ 50 + 1 < 2 ^ 53) by reflexivity.
  destruct (Z.lt_trichotomy d 0) as [L | [-> | L]].
  - set (a := - d). assert (Ha : 0 < a <= 2 ^ 50) by lia.
    replace d with (- a) by lia. rewrite (of_int_neg a) by lia.
    destruct (div_int a 30 Ha H30) as (m & e & N & B & _).
    assert (Ha' : 0 < a < 2 ^ 53) by lia.
    destruct (of_int_val a Ha') as (ma & ea & Na & _).
    destruct (of_int_val 30 H30) as (md & ed & Nd & _).
    rewrite (div_opp_l _ _ ma md ea ed Na Nd).
    assert (Bq : 0 <= a / 30 <= 2 ^ 50).
    { split; [apply Z.div_pos; lia | ].
      apply Z.le_trans with a; [ | lia]. apply Z.div_le_upper_bound; lia. }
    rewrite (Math_ceil_neg _ m e (a / 30)) by (try assumption; lia).
    rewrite Z.max_l by lia.
    apply Math_max_1_nonpos. rewrite opp_spec.
    destruct (Z.eq_dec (a / 30) 0) as [-> | Q]; [exact I | ].
    destruct (of_int_val (a / 30)) as (mq & eq & [E _] & _); [lia | ].
    rewrite E. exact I.
  - reflexivity.
  - assert (Ha : 0 < d <= 2 ^ 50) by lia.
    destruct (div_int d 30 Ha H30) as (m & e & N & B & I1 & I2).
    destruct (div_neg d 30) as [D1 D2]; try lia.
    assert (Bq : 0 <= d / 30 <= 2 ^ 50).
    { split; [apply Z.div_pos; lia | ].
      apply Z.le_trans with d; [ | lia]. apply Z.div_le_upper_bound; lia. }
    destruct (Z.eq_dec (d mod 30) 0) as [R | R].
    + rewrite (D1 R), Z.opp_involutive.
      assert (0 < d / 30).
      { pose proof (Z_div_mod_eq_full d 30). rewrite R in *. lia. }
      rewrite (Math_ceil_val _ m e (d / 30)); [ | assumption | rewrite (I1 R); lra | lia].
      rewrite Z.max_r by lia. apply Math_max_1_of_int. lia.
    + rewrite (D2 R), Z.opp_involutive.
      rewrite (Math_ceil_val _ m e (d / 30 + 1));
        [ | assumption | specialize (I2 R); rewrite plus_IZR; lra | lia].
      rewrite Z.max_r by lia. apply Math_max_1_of_int. lia.
Qed.

Lemma valid_safe (t : Date) : valid_time t -> safe t.
Proof.
  unfold valid_time, max_time, safe. intro H.
  apply Z.le_lt_trans with 8640000000000000; [lia | reflexivity].
Qed.

(** With the deadline and the present no more than [2^50] ms apart (some
    35,000 years), [daysLeft] is the whole number of days from now to the
    deadline, rounded down, and [monthsLeft] is that number over 30,
    rounded up, and at least one: no rounding of the binary64 quotients
    shows. Once the deadline has passed [daysLeft] is negative and
    [monthsLeft] is one. *)
Theorem pacing_in_whole_numbers (deadline now : Date) :
  valid_time deadline -> valid_time now -> Z.abs (deadline - now) <= 2 ^ 50 ->
  daysLeft deadline now = JS.of_int (whole_days deadline now) /\
  monthsLeft deadline now = JS.of_int (whole_months (whole_days deadline now)) /\
  (deadline < now ->
   whole_days deadline now < 0 /\ monthsLeft deadline now = 1%float) /\
  (now <= deadline -> 0 <= whole_days deadline now).
Proof.
  intros Vd Vn Hz.
  assert (Ed : daysLeft deadline now = JS.of_int (whole_days deadline now)).
  { unfold daysLeft, getTime, whole_days.
    rewrite sub_of_int; try (now apply valid_safe).
    - change msPerDay with (JS.of_int 86400000).
      apply floor_div; [assumption | split; reflexivity | reflexivity].
    - unfold safe. apply Z.le_lt_trans with (2 ^ 50); [assumption | reflexivity]. }
  assert (Bd : Z.abs (whole_days deadline now) <= 2 ^ 50).
  { unfold whole_days. set (z := deadline - now) in *.
    pose proof (Z_div_mod_eq_full z 86400000).
    pose proof (Z.mod_pos_bound z 86400000 eq_refl). lia. }
  assert (Em : monthsLeft deadline now = JS.of_int (whole_months (whole_days deadline now))).
  { unfold monthsLeft. rewrite Ed. now apply months_of_days. }
  split; [exact Ed | ]. split; [exact Em | ]. split.
  - intro L.
    assert (N : whole_days deadline now < 0).
    { unfold whole_days. apply Z.div_lt_upper_bound; lia. }
    split; [exact N | ]. rewrite Em. unfold whole_months.
    assert (0 <= - whole_days deadline now / 30) by (apply Z.div_pos; lia).
    rewrite Z.max_l by lia. reflexivity.
  - intro L. unfold whole_days. apply Z.div_pos; lia.
Qed.

Lemma pacing_in_whole_numbers_witness :
  daysLeft (1700000000000 + 90 * 86400000) 1700000000000 = JS.of_int 90 /\
  monthsLeft (1700000000000 + 90 * 86400000) 1700000000000 = JS.of_int 3 /\
  daysLeft 1700000000000 (1700000000000 + 1) = JS.of_int (- 1) /\
  monthsLeft 1700000000000 (1700000000000 + 1) = 1%float.
Proof.
  destruct (pacing_in_whole_numbers (1700000000000 + 90 * 86400000) 1700000000000)
    as (D & M & _); try (unfold valid_time, max_time; lia).
  destruct (pacing_in_whole_numbers 1700000000000 (1700000000000 + 1))
    as (D' & _ & P & _); try (unfold valid_time, max_time; lia).
  split; [exact D | ]. split; [exact M | ]. split; [exact D' | ].
  apply P. lia.
Defined.

End Pacing.


(** * Percent complete *)

Module Percent.
Import F64 F64Facts F64Grid F64Int F64Quot.

Local Open Scope Z_scope.

Lemma of_int_fnum_false (j : Z) : is_nan (JS.of_int j) = false.
Proof. apply is_nan_fnum, of_int_num. Qed.

(** [Math.min(100, j)] on the number of a whole [j >= 0]. *)
Lemma Math_min_100_of_int (j : Z) :
  0 <= j < 2 ^ 53 -> JS.Math_min 100%float (JS.of_int j) = JS.of_int (Z.min 100 j).
Proof.
  intro Hj. unfold JS.Math_min. rewrite of_int_fnum_false.
  change (is_nan 100%float) with false. cbn [orb].
  destruct (Z.eq_dec j 0) as [-> | N0]; [reflexivity | ].
  destruct (Z.eq_dec j 100) as [-> | N100]; [reflexivity | ].
  change 100%float with (JS.of_int 100).
  rewrite !of_int_ltb by (try lia; split; reflexivity).
  destruct (Z.ltb_spec 100 j) as [L | L].
  - now rewrite Z.min_l by lia.
  - replace (j <? 100) with true by (symmetry; apply Z.ltb_lt; lia).
    now rewrite Z.min_r by lia.
Qed.

(** Nothing of something is nothing. *)
Lemma div_zero_l (x : float) (m : positive) (e : Z) :
  nrepr x m e -> (0 / x)%float = 0%float.
Proof.
  intros [E _]. apply Prim2SF_inj. rewrite div_spec, E. reflexivity.
Qed.

(** The quotient and the product with [100], each within one rounding of
    the exact one: the computed [x / y * 100] is within three parts in
    [2^52] of the exact percentage. *)
Lemma percent_rel (s t : Z) :
  0 < s < 2 ^ 53 -> 0 < t < 2 ^ 53 ->
  exists m e,
    nrepr (JS.of_int s / JS.of_int t * 100)%float m e /\
    (IZR (100 * s) / IZR t * (1 - 3 * u52) <= val m e <=
     IZR (100 * s) / IZR t * (1 + 3 * u52))%R.
Proof.
  intros Hs Ht.
  destruct (of_int_val s Hs) as (ms & es & Ns & Bes & Vs).
  destruct (of_int_val t Ht) as (mt & et & Nt & Bet & Vt).
  destruct (of_int_val 100) as (mc & ec & Nc & Bec & Vc); [split; reflexivity | ].
  destruct (div_rel _ _ ms mt es et Ns Nt) as (mq & eq & Nq & Beq & Q1 & Q2); [lia | ].
  change 100%float with (JS.of_int 100).
  destruct (mul_rel _ _ mq mc eq ec Nq Nc) as (m & e & N & Be & P1 & P2); [lia | ].
  exists m, e. split; [assumption | ].
  rewrite Vs, Vt in Q1, Q2. rewrite Vc in P1, P2.
  assert (PT : (0 < IZR t)%R) by (apply IZR_lt; lia).
  pose proof (Rinv_0_lt_compat _ PT) as PI.
  assert (PS : (0 < IZR s)%R) by (apply IZR_lt; lia).
  set (W := (IZR s / IZR t)%R) in *.
  assert (BW : (0 < W)%R) by (apply Rdiv_lt_0_compat; assumption).
  assert (EX : (IZR (100 * s) / IZR t = 100 * W)%R).
  { rewrite mult_IZR. unfold W, Rdiv. ring. }
  rewrite EX. pose proof (val_pos mq eq) as Pq.
  set (Q := val mq eq) in *. set (V := val m e) in *.
  unfold u52 in *.
  assert (U1 : (Q * 100 * (1 + / 4503599627370496) <=
                W * (1 + / 4503599627370496) * 100 * (1 + / 4503599627370496))%R).
  { apply Rmult_le_compat_r; [lra | ]. apply Rmult_le_compat_r; lra. }
  assert (L1 : (W * (1 - / 4503599627370496) * 100 * (1 - / 4503599627370496) <=
                Q * 100 * (1 - / 4503599627370496))%R).
  { apply Rmult_le_compat_r; [lra | ]. apply Rmult_le_compat_r; lra. }
  split; lra.
Qed.

(** For [s <= 10^13] that is less than [1 / t] away from the exact
    percentage, and for [s <= 5 * 10^12] less than [1 / (2 t)]. *)
Lemma percent_close (s t : Z) :
  0 < s <= 10 ^ 13 -> 0 < t < 2 ^ 53 ->
  exists m e,
    nrepr (JS.of_int s / JS.of_int t * 100)%float m e /\
    (IZR (100 * s) / IZR t - / IZR t < val m e < IZR (100 * s) / IZR t + / IZR t)%R.
Proof.
  intros Hs Ht.
  assert (Hs' : 0 < s < 2 ^ 53).
  { split; [lia | ]. apply Z.le_lt_trans with (10 ^ 13); [lia | reflexivity]. }
  destruct (percent_rel s t Hs' Ht) as (m & e & N & B1 & B2).
  exists m, e. split; [assumption | ].
  assert (PT : (0 < IZR t)%R) by (apply IZR_lt; lia).
  pose proof (Rinv_0_lt_compat _ PT) as PI.
  assert (PS : (0 < IZR s <= 10000000000000)%R).
  { split; [apply IZR_lt; lia | ]. apply IZR_le.
    change 10000000000000 with (10 ^ 13). lia. }
  assert (EX : (IZR (100 * s) / IZR t = 100 * (IZR s * / IZR t))%R).
  { rewrite mult_IZR. unfold Rdiv. ring. }
  rewrite EX in *.
  assert (BW : (0 < IZR s * / IZR t <= 10000000000000 * / IZR t)%R).
  { split; [apply Rmult_lt_0_compat; lra | ]. apply Rmult_le_compat_r; lra. }
  set (W := (IZR s * / IZR t)%R) in *. set (I := (/ IZR t)%R) in *.
  unfold u52 in *. split; lra.
Qed.

Lemma percent_half (s t : Z) :
  0 < s <= 5 * 10 ^ 12 -> 0 < t < 2 ^ 53 ->
  exists m e,
    nrepr (JS.of_int s / JS.of_int t * 100)%float m e /\
    (IZR (100 * s) / IZR t - / 2 * / IZR t < val m e <
     IZR (100 * s) / IZR t + / 2 * / IZR t)%R.
Proof.
  intros Hs Ht.
  assert (Hs' : 0 < s < 2 ^ 53).
  { split; [lia | ]. apply Z.le_lt_trans with (5 * 10 ^ 12); [lia | reflexivity]. }
  destruct (percent_rel s t Hs' Ht) as (m & e & N & B1 & B2).
  exists m, e. split; [assumption | ].
  assert (PT : (0 < IZR t)%R) by (apply IZR_lt; lia).
  pose proof (Rinv_0_lt_compat _ PT) as PI.
  assert (PS : (0 < IZR s <= 5000000000000)%R).
  { split; [apply IZR_lt; lia | ]. apply IZR_le.
    change 5000000000000 with (5 * 10 ^ 12). lia. }
  assert (EX : (IZR (100 * s) / IZR t = 100 * (IZR s * / IZR t))%R).
  { rewrite mult_IZR. unfold Rdiv. ring. }
  rewrite EX in *.
  assert (BW : (0 < IZR s * / IZR t <= 5000000000000 * / IZR t)%R).
  { split; [apply Rmult_lt_0_compat; lra | ]. apply Rmult_le_compat_r; lra. }
  set (W := (IZR s * / IZR t)%R) in *. set (I := (/ IZR t)%R) in *.
  unfold u52 in *. split; lra.
Qed.

(** On whole amounts, [percentComplete] is the whole part of the exact
    percentage, capped at 100 -- but where the exact percentage is itself
    whole, the roundings of the quotient and of the product can leave the
    computed one just below it, and [Math.floor] then gives one less: 29
    saved of 100 shows as 28 percent. *)
Theorem percentComplete_whole (s t : Z) :
  0 <= s <= 10 ^ 13 -> 0 < t < 2 ^ 53 ->
  ((100 * s) mod t <> 0 ->
   percentComplete (JS.of_int s) (JS.of_int t) = JS.of_int (Z.min 100 (100 * s / t))) /\
  ((100 * s) mod t = 0 ->
   percentComplete (JS.of_int s) (JS.of_int t) = JS.of_int (Z.min 100 (100 * s / t)) \/
   percentComplete (JS.of_int s) (JS.of_int t) = JS.of_int (Z.min 100 (100 * s / t - 1))) /\
  percentComplete (JS.of_int 29) (JS.of_int 100) = JS.of_int 28.
Proof.
  intros Hs Ht. split; [ | split; [ | reflexivity]].
  - (* the exact percentage is not whole *)
    intro R. assert (Hs0 : 0 < s) by (destruct (Z.eq_dec s 0) as [-> | ]; [now cbn in R | lia]).
    destruct (percent_close s t) as (m & e & N & B1 & B2); [lia | assumption | ].
    pose proof (Z_div_mod_eq_full (100 * s) t) as Dv.
    pose proof (Z.mod_pos_bound (100 * s) t ltac:(lia)) as Br.
    set (P := 100 * s / t) in *. set (r := (100 * s) mod t) in *.
    assert (PT : (0 < IZR t)%R) by (apply IZR_lt; lia).
    pose proof (Rinv_0_lt_compat _ PT) as PI.
    assert (EX : (IZR (100 * s) / IZR t = IZR P + IZR r * / IZR t)%R).
    { rewrite Dv, plus_IZR, mult_IZR. field. lra. }
    assert (Hr : (1 <= IZR r <= IZR t - 1)%R).
    { split; [apply IZR_le; lia | ]. rewrite <- minus_IZR. apply IZR_le. lia. }
    assert (Hr' : (/ IZR t <= IZR r * / IZR t <= 1 - / IZR t)%R).
    { split.
      - rewrite <- (Rmult_1_l (/ IZR t)) at 1. apply Rmult_le_compat_r; lra.
      - replace (1 - / IZR t)%R with ((IZR t - 1) * / IZR t)%R by (field; lra).
        apply Rmult_le_compat_r; lra. }
    assert (BP : 0 <= P < 2 ^ 53).
    { split; [apply Z.div_pos; lia | ].
      apply Z.le_lt_trans with (100 * s); [apply Z.div_le_upper_bound; nia | ].
      apply Z.le_lt_trans with (100 * 10 ^ 13); [lia | reflexivity]. }
    unfold percentComplete.
    rewrite (Math_floor_val _ m e P N) by (try lia; lra).
    now apply Math_min_100_of_int.
  - (* the exact percentage is whole *)
    intro R. destruct (Z.eq_dec s 0) as [-> | Ns].
    + left. unfold percentComplete.
      destruct (of_int_val t Ht) as (mt & et & Nt & _).
      change (JS.of_int 0) with 0%float. rewrite (div_zero_l _ mt et Nt). reflexivity.
    + assert (Hs0 : 0 < s) by lia.
      destruct (percent_close s t) as (m & e & N & B1 & B2); [lia | assumption | ].
      pose proof (Z_div_mod_eq_full (100 * s) t) as Dv. rewrite R, Z.add_0_r in Dv.
      set (P := 100 * s / t) in *.
      assert (PT : (0 < IZR t)%R) by (apply IZR_lt; lia).
      pose proof (Rinv_0_lt_compat _ PT) as PI.
      assert (EX : (IZR (100 * s) / IZR t = IZR P)%R).
      { rewrite Dv, mult_IZR. field. lra. }
      assert (I1 : (/ IZR t <= 1)%R).
      { rewrite <- Rinv_1. apply Rinv_le_contravar; [lra | ]. apply IZR_le. lia. }
      assert (BP : 0 < P < 2 ^ 53).
      { split; [nia | ].
        apply Z.le_lt_trans with (100 * s); [nia | ].
        apply Z.le_lt_trans with (100 * 10 ^ 13); [lia | reflexivity]. }
      unfold percentComplete. rewrite EX in B1, B2.
      destruct (Rle_lt_dec (IZR P) (val m e)) as [G | G].
      * left. rewrite (Math_floor_val _ m e P N) by (try lia; lra).
        apply Math_min_100_of_int. lia.
      * right. rewrite (Math_floor_val _ m e (P - 1) N);
          [ | rewrite minus_IZR; lra | lia].
        apply Math_min_100_of_int. lia.
Qed.

Lemma percentComplete_whole_witness :
  percentComplete (JS.of_int 1000) (JS.of_int 12000) = JS.of_int 8.
Proof.
  destruct (percentComplete_whole 1000 12000) as [H _]; try lia.
  apply H. discriminate.
Defined.

(** [Math.round] by value. *)
Lemma Math_round_val (x : float) (m : positive) (e k : Z) :
  nrepr x m e -> (IZR k - / 2 <= val m e < IZR k + / 2)%R -> 0 <= k < 2 ^ 53 ->
  JS.Math_round x = JS.of_int k.
Proof.
  intros Nx Hv Hk. pose proof Nx as [E S]. unfold JS.Math_round. rewrite E.
  pose proof (val_pos m e) as Pv.
  assert (Hint : forall j, val m e = IZR j -> x = JS.of_int k).
  { intros j V. assert (j = k).
    { assert (A : (IZR (k - 1) < IZR j)%R) by (rewrite minus_IZR; lra).
      assert (B : (IZR j < IZR (k + 1))%R) by (rewrite plus_IZR; lra).
      apply lt_IZR in A, B. lia. }
    subst j. apply (nrepr_of_int x m e k Nx V).
    split; [ | lia]. apply lt_IZR. lra. }
  destruct (Z.leb_spec 0 e) as [He | He].
  - apply (Hint (Zpos m * 2 ^ e)). now apply val_integer.
  - destruct (int_part_val m e He) as (B & I1 & I2).
    destruct (JS.is_integral m e).
    + apply (Hint (JS.int_part m e)). now apply I1.
    + f_equal. rewrite Z.shiftr_div_pow2, Z.shiftl_mul_pow2 by lia.
      rewrite Z.mul_1_l.
      set (h := 2 ^ (- e - 1)).
      assert (Ph : 0 < h) by (apply Z.pow_pos_nonneg; lia).
      assert (EP : 2 ^ (- e) = 2 * h).
      { unfold h. rewrite <- Z.pow_succ_r by lia. f_equal. lia. }
      rewrite EP.
      assert (Ev : val m e = (IZR (Zpos m) / IZR (2 * h))%R).
      { unfold val. rewrite <- EP.
        assert (Ep : powerRZ 2 e = (/ IZR (2 ^ (- e)))%R).
        { rewrite IZR_pow2 by lia. rewrite <- powerRZ_neg' by lra. f_equal. lia. }
        now rewrite Ep. }
      assert (P2h : (0 < IZR (2 * h))%R) by (apply IZR_lt; lia).
      rewrite Ev in Hv. destruct Hv as [H1 H2].
      assert (A1 : (IZR ((2 * k - 1) * h) <= IZR (Zpos m))%R).
      { rewrite mult_IZR, minus_IZR, mult_IZR.
        apply Rmult_le_compat_r with (r := IZR (2 * h)) in H1; [ | lra].
        unfold Rdiv in H1. rewrite Rmult_assoc, Rinv_l, Rmult_1_r in H1 by lra.
        rewrite mult_IZR in H1. lra. }
      assert (A2 : (IZR (Zpos m) < IZR ((2 * k + 1) * h))%R).
      { rewrite mult_IZR, plus_IZR, mult_IZR.
        apply Rmult_lt_compat_r with (r := IZR (2 * h)) in H2; [ | lra].
        unfold Rdiv in H2. rewrite Rmult_assoc, Rinv_l, Rmult_1_r in H2 by lra.
        rewrite mult_IZR in H2. lra. }
      apply le_IZR in A1. apply lt_IZR in A2.
      symmetry. apply Z.div_unique with (Zpos m + h - 2 * h * k); lia.
Qed.

Lemma of_int_pos (i : Z) : 0 < i < 2 ^ 53 -> (0 <? JS.of_int i)%float = true.
Proof.
  intro Hi. destruct (of_int_val i Hi) as (m & e & [E _] & _).
  apply fpos_iff. rewrite E. exact I.
Qed.

(** [x / i * 100], rounded, on whole amounts. *)
Lemma percentOf_whole (x i : Z) :
  0 <= x <= 5 * 10 ^ 12 -> 0 < i < 2 ^ 53 ->
  ((200 * x + i) mod (2 * i) <> 0 ->
   percentOf (JS.of_int x) (JS.of_int i) = JS.of_int ((200 * x + i) / (2 * i))) /\
  ((200 * x + i) mod (2 * i) = 0 ->
   percentOf (JS.of_int x) (JS.of_int i) = JS.of_int ((200 * x + i) / (2 * i)) \/
   percentOf (JS.of_int x) (JS.of_int i) = JS.of_int ((200 * x + i) / (2 * i) - 1)).
Proof.
  intros Hx Hi. unfold percentOf. rewrite (of_int_pos i Hi).
  pose proof (Z_div_mod_eq_full (200 * x + i) (2 * i)) as Dv.
  pose proof (Z.mod_pos_bound (200 * x + i) (2 * i) ltac:(lia)) as Br.
  set (R := (200 * x + i) / (2 * i)) in *. set (r := (200 * x + i) mod (2 * i)) in *.
  assert (BR : 0 <= R < 2 ^ 53).
  { split; [apply Z.div_pos; lia | ].
    apply Z.le_lt_trans with (100 * x + 1).
    - apply Z.lt_succ_r. apply Z.div_lt_upper_bound; [lia | nia].
    - apply Z.le_lt_trans with (100 * (5 * 10 ^ 12) + 1); [lia | reflexivity]. }
  destruct (Z.eq_dec x 0) as [-> | Nx].
  { (* nothing spent *)
    assert (ER : R = 0).
    { unfold R. apply Z.div_small. lia. }
    destruct (of_int_val i Hi) as (mi & ei & Ni & _).
    change (JS.of_int 0) with 0%float. rewrite (div_zero_l _ mi ei Ni), ER.
    split; [intros _; reflexivity | intros _; left; reflexivity]. }
  destruct (percent_half x i) as (m & e & N & B1 & B2); [lia | assumption | ].
  assert (PI : (0 < IZR i)%R) by (apply IZR_lt; lia).
  pose proof (Rinv_0_lt_compat _ PI) as PI'.
  (* [X + 1/2 = R + r / (2 i)] *)
  assert (EX : (IZR (100 * x) / IZR i = IZR R - / 2 + IZR r * (/ 2 * / IZR i))%R).
  { assert (E2 : (IZR (200 * x + i) = IZR (2 * i) * IZR R + IZR r)%R)
      by (rewrite <- mult_IZR, <- plus_IZR; now f_equal).
    rewrite plus_IZR, !mult_IZR in E2. rewrite mult_IZR. field_simplify_eq; [ | lra].
    lra. }
  rewrite EX in B1, B2.
  assert (I1 : (/ IZR i <= 1)%R).
  { rewrite <- Rinv_1. apply Rinv_le_contravar; [lra | ]. apply IZR_le. lia. }
  split.
  - intro Nr.
    assert (Hr : (1 <= IZR r <= 2 * IZR i - 1)%R).
    { split; [apply IZR_le; lia | ].
      replace (2 * IZR i - 1)%R with (IZR (2 * i - 1)) by (rewrite minus_IZR, mult_IZR; ring).
      apply IZR_le. lia. }
    assert (Hr' : (/ 2 * / IZR i <= IZR r * (/ 2 * / IZR i) <= 1 - / 2 * / IZR i)%R).
    { assert (0 < / 2 * / IZR i)%R by (apply Rmult_lt_0_compat; lra). split.
      - rewrite <- (Rmult_1_l (/ 2 * / IZR i)) at 1. apply Rmult_le_compat_r; lra.
      - replace (1 - / 2 * / IZR i)%R with ((2 * IZR i - 1) * (/ 2 * / IZR i))%R
          by (field; lra).
        apply Rmult_le_compat_r; lra. }
    apply (Math_round_val _ m e R N); [lra | assumption].
  - intro Zr. rewrite Zr in B1, B2. rewrite Rmult_0_l, Rplus_0_r in B1, B2.
    assert (0 < R).
    { rewrite Zr in Dv. nia. }
    destruct (Rle_lt_dec (IZR R - / 2) (val m e)) as [G | G].
    + left. apply (Math_round_val _ m e R N); [lra | assumption].
    + right. apply (Math_round_val _ m e (R - 1) N); [rewrite minus_IZR; lra | lia].
Qed.

(** With a whole income and whole expenses of at most [5e12] in total,
    [percentOfIncome] is the exact percentage rounded to the nearest whole
    number -- but where the exact percentage lies half way between two
    whole numbers, the roundings of the quotient and of the product can
    leave the computed one just below the half, and [Math.round] then
    gives the lower one: 29 spent of 200 shows as 14 percent, not 15. *)
Theorem percentOfIncome_whole (income : option Income) (expenses : list Expense)
    (i : Z) (ks : list Z) :
  income_whole income i -> 0 < i < 2 ^ 53 ->
  Forall2 (fun e k => whole (amount e) k) expenses ks -> zsum ks <= 5 * 10 ^ 12 ->
  ((200 * zsum ks + i) mod (2 * i) <> 0 ->
   percentOfIncome income expenses = JS.of_int ((200 * zsum ks + i) / (2 * i))) /\
  ((200 * zsum ks + i) mod (2 * i) = 0 ->
   percentOfIncome income expenses = JS.of_int ((200 * zsum ks + i) / (2 * i)) \/
   percentOfIncome income expenses = JS.of_int ((200 * zsum ks + i) / (2 * i) - 1)) /\
  percentOfIncome (Some (sample_income 200%float)) [sample_expense Food 29%float] = 14%float.
Proof.
  intros Hi Bi Hk Bk.
  destruct (incomeAmount_whole income i Hi) as [_ Ei]; [lia | ].
  pose proof (zsum_nonneg _ _ Hk) as Pk.
  assert (Et : totalExpenses expenses = JS.of_int (zsum ks)).
  { apply sumAmounts_whole; [assumption | ].
    apply Z.le_lt_trans with (5 * 10 ^ 12); [assumption | reflexivity]. }
  unfold percentOfIncome. rewrite Ei, Et.
  destruct (percentOf_whole (zsum ks) i) as [H1 H2]; [lia | assumption | ].
  split; [exact H1 | split; [exact H2 | reflexivity]].
Qed.

Lemma percentOfIncome_whole_witness :
  percentOfIncome (Some (sample_income 5000%float))
    [sample_expense Food 800%float; sample_expense Rent 1500%float] = JS.of_int 46.
Proof.
  destruct (percentOfIncome_whole (Some (sample_income 5000%float))
              [sample_expense Food 800%float; sample_expense Rent 1500%float]
              5000 [800; 1500]) as [H _].
  - split; [lia | reflexivity].
  - lia.
  - repeat constructor; lia.
  - cbn. lia.
  - apply H. discriminate.
Defined.

End Percent.


(** * A goal that is reached *)

Module Reached.
Import F64 F64Facts F64Grid F64Int F64Quot Pacing.

Local Open Scope Z_scope.

(** A rounded value within less than one step of its last place above an
    integer [k <= 2^52] is not below [k]. *)
Lemma val_ge_int (m : positive) (e k : Z) :
  Zpos (Pos.size m) = 53 -> k <= 2 ^ 52 ->
  (IZR k - powerRZ 2 e < val m e)%R -> (IZR k <= val m e)%R.
Proof.
  intros S Hk H. destruct (Z_le_gt_dec e 0) as [L | L].
  - now apply (grid_int m e k L).
  - pose proof (size_53_bounds m S) as [B _].
    rewrite (val_integer m e) by lia. apply IZR_le.
    assert (1 <= 2 ^ e) by (apply Z.lt_pred_le, Z.pow_pos_nonneg; lia).
    nia.
Qed.

(** [Math.floor] of a normal number that is not below a positive integer is
    a normal number not below it. *)
Lemma Math_floor_ge (x : float) (m : positive) (e k : Z) :
  nrepr x m e -> 0 < k -> (IZR k <= val m e)%R ->
  exists m' e', nrepr (JS.Math_floor x) m' e' /\ (IZR k <= val m' e')%R.
Proof.
  intros Nx Hk Hv. pose proof Nx as [E S]. unfold JS.Math_floor. rewrite E.
  destruct (Z.leb_spec 0 e) as [He | He]; [now exists m, e | ].
  destruct (JS.is_integral m e) eqn:I; [now exists m, e | ].
  destruct (int_part_val m e He) as (B & _ & _).
  set (j := JS.int_part m e) in *.
  assert (Hj : k <= j).
  { assert (A : (IZR k < IZR (j + 1))%R) by (rewrite plus_IZR; lra).
    apply lt_IZR in A. lia. }
  assert (Bj : j < 2 ^ 53).
  { unfold j, JS.int_part. rewrite Z.shiftr_div_pow2 by lia.
    pose proof (size_53_bounds m S) as [_ Bm].
    apply Z.le_lt_trans with (Zpos m); [ | assumption].
    apply Z.div_le_upper_bound; [apply Z.pow_pos_nonneg; lia | ].
    assert (1 <= 2 ^ (- e)) by (apply Z.lt_pred_le, Z.pow_pos_nonneg; lia). nia. }
  destruct (of_int_val j) as (m' & e' & N' & _ & V'); [lia | ].
  exists m', e'. split; [assumption | ]. rewrite V'. now apply IZR_le.
Qed.

Lemma Math_min_100_ge (y : float) (m : positive) (e : Z) :
  nrepr y m e -> (100 <= val m e)%R -> JS.Math_min 100%float y = 100%float.
Proof.
  intros Ny Hv. unfold JS.Math_min.
  pose proof (nrepr_fnum y m e Ny) as Fy. apply is_nan_fnum in Fy. rewrite Fy.
  change (is_nan 100%float) with false. cbn [orb].
  destruct (of_int_val 100) as (mc & ec & Nc & _ & Vc); [split; reflexivity | ].
  change (JS.of_int 100) with 100%float in Nc.
  destruct (100 <? y)%float eqn:L; [reflexivity | ].
  assert (Ev : val m e = 100%R).
  { destruct (Rle_lt_dec (val m e) 100) as [G | G]; [lra | ].
    assert (T : (100 <? y)%float = true) by (apply (ltb_val _ _ mc m ec e Nc Ny); lra).
    congruence. }
  assert (Ey : y = 100%float) by (apply (nrepr_of_int y m e 100 Ny Ev); split; reflexivity).
  rewrite Ey. reflexivity.
Qed.

(** The difference of two normal numbers, the first not above the
    second, is not above zero. *)
Lemma sub_nonpos (x y : float) (mx my : positive) (ex ey : Z) :
  nrepr x mx ex -> nrepr y my ey -> (val mx ex <= val my ey)%R ->
  nonpos_sf (Prim2SF (x - y)).
Proof.
  intros [Ex Sx] [Ey Sy] Hv. rewrite sub_spec, Ex, Ey. unfold SF64sub, SFsub.
  set (ez := Z.min ex ey). cbn [cond_Zopp].
  rewrite !shl_align_value by (unfold ez; lia).
  rewrite (val_shift mx ez ex), (val_shift my ez ey) in Hv by (unfold ez; lia).
  pose proof (powerRZ_2_pos ez) as P.
  apply Rmult_le_reg_r in Hv; [ | assumption]. apply le_IZR in Hv.
  destruct (Zpos mx * 2 ^ (ex - ez) - Zpos my * 2 ^ (ey - ez)) as [ | p | p] eqn:E;
    cbn [binary_normalize]; try lia.
  - exact I.
  - pose proof (binary_round_signed true p ez) as G.
    destruct (binary_round prec emax true p ez); cbn in *; subst; auto.
Qed.

Lemma div_nonpos (x y : float) (m : positive) (e : Z) :
  nonpos_sf (Prim2SF x) -> nrepr y m e -> nonpos_sf (Prim2SF (x / y)).
Proof.
  intros Hx [Ey _]. rewrite div_spec, Ey. unfold SF64div, SFdiv.
  destruct (Prim2SF x) as [s | [ | ] | | [ | ] mx ex]; cbn in *; try contradiction;
    try exact I.
  pose proof (SFdiv_core_nonneg mx m ex e) as Hq.
  destruct (SFdiv_core_binary prec emax (Zpos mx) ex (Zpos m) e) as [[mz ez] lz].
  cbn [fst] in Hq.
  pose proof (binary_round_aux_signed true mz ez lz Hq) as G.
  destruct (binary_round_aux prec emax true mz ez lz); cbn in *; subst; auto.
Qed.

Lemma nonpos_leb (a b : float) (m : positive) (e : Z) :
  nonpos_sf (Prim2SF a) -> nrepr b m e -> (a <=? b)%float = true.
Proof.
  intros Ha Nb. pose proof Nb as [Eb _].
  apply leb_key.
  - unfold fnum. destruct (Prim2SF a); cbn in *; auto.
  - now apply (nrepr_fnum b m e).
  - unfold fkey. rewrite Eb.
    destruct (Prim2SF a) as [s | [ | ] | | [ | ] ma ea]; cbn in *; try contradiction; lia.
Qed.

(** The amounts of the statement below: at least a hundredth, at most
    [1e15]. *)
Lemma amount_normal (x : float) :
  (0.01 <=? x)%float = true -> (x <=? 1e15)%float = true ->
  exists m e, nrepr x m e /\ -59 <= e <= -3.
Proof.
  intros L U.
  destruct (between_normal 0.01 1e15 x 5764607523034235 8000000000000000 (-59) (-3))
    as (m & e & N & B & _); try assumption; try (split; reflexivity); try lia.
  now exists m, e.
Qed.

Lemma leb_trans (x y z : float) :
  (x <=? y)%float = true -> (y <=? z)%float = true -> (x <=? z)%float = true.
Proof.
  intros H1 H2. destruct (leb_fnum _ _ H1) as [Nx Ny]. destruct (leb_fnum _ _ H2) as [_ Nz].
  apply leb_key; try assumption.
  apply leb_key in H1, H2; try assumption.
  now apply kle_trans with (fkey y).
Qed.

(** Once the month's net savings are at least the target, both between a
    hundredth and [1e15], the goal shows as 100 percent complete and on
    track, whatever is left of the time to the deadline. *)
Theorem goal_reached (format : Date -> string -> string) (g : SavingsGoal)
    (netSavings : JS.number) (now : Date) :
  valid_time now -> valid_time (deadline g) -> Z.abs (deadline g - now) <= 2 ^ 50 ->
  (0.01 <=? targetAmount g)%float = true ->
  (targetAmount g <=? netSavings)%float = true ->
  (netSavings <=? 1e15)%float = true ->
  gp_percentComplete (goalBlock format g netSavings now) = 100%float /\
  onTrack (goalBlock format g netSavings now) = true.
Proof.
  intros Vn Vd Hz Lt Lts Ls.
  destruct (amount_normal (targetAmount g)) as (mt & et & Nt & Bet);
    [assumption | now apply leb_trans with netSavings | ].
  destruct (amount_normal netSavings) as (ms & es & Ns & Bes);
    [now apply leb_trans with (targetAmount g) | assumption | ].
  pose proof (proj1 (leb_val _ _ mt ms et es Nt Ns) Lts) as Hv.
  pose proof (val_pos mt et) as Pt. pose proof (val_pos ms es) as Ps.
  cbn [goalBlock gp_percentComplete onTrack]. split.
  - (* percentComplete *)
    unfold percentComplete.
    destruct (div_grid _ _ ms mt es et Ns Nt) as (mq & eq & Nq & Beq & Q1 & Q2); [lia | ].
    assert (V1 : (1 <= val ms es / val mt et)%R).
    { apply Rmult_le_reg_r with (val mt et); [assumption | ].
      unfold Rdiv. rewrite Rmult_assoc, Rinv_l by lra. lra. }
    assert (G1 : (1 <= val mq eq)%R).
    { apply (val_ge_int mq eq 1); [apply Nq | discriminate | lra]. }
    destruct (of_int_val 100) as (mc & ec & Nc & Bec & Vc); [split; reflexivity | ].
    change (JS.of_int 100) with 100%float in Nc.
    destruct (mul_grid _ _ mq mc eq ec Nq Nc) as (m & e & N & Be & P1 & P2); [lia | ].
    rewrite Vc in P1, P2.
    assert (G2 : (100 <= val m e)%R).
    { apply (val_ge_int m e 100); [apply N | discriminate | lra]. }
    destruct (Math_floor_ge _ m e 100 N) as (m' & e' & N' & G3); [lia | assumption | ].
    now apply (Math_min_100_ge _ m' e').
  - (* onTrack *)
    unfold monthlySavingsNeeded.
    assert (Em : exists M, 1 <= M < 2 ^ 53 /\ monthsLeft (deadline g) now = JS.of_int M).
    { exists (whole_months (whole_days (deadline g) now)).
      assert (Bd : Z.abs (whole_days (deadline g) now) <= 2 ^ 50).
      { unfold whole_days. set (z := deadline g - now) in *.
        pose proof (Z_div_mod_eq_full z 86400000).
        pose proof (Z.mod_pos_bound z 86400000 eq_refl). lia. }
      split.
      - unfold whole_months. split; [lia | ].
        assert (- (- whole_days (deadline g) now / 30) <= 2 ^ 50).
        { pose proof (Z_div_mod_eq_full (- whole_days (deadline g) now) 30).
          pose proof (Z.mod_pos_bound (- whole_days (deadline g) now) 30 eq_refl). lia. }
        assert (2 ^ 50 < 2 ^ 53) by reflexivity. lia.
      - unfold monthsLeft, daysLeft, getTime.
        rewrite sub_of_int; try (now apply valid_safe).
        + change msPerDay with (JS.of_int 86400000).
          rewrite floor_div; [ | assumption | split; reflexivity | reflexivity].
          now apply months_of_days.
        + unfold safe. apply Z.le_lt_trans with (2 ^ 50); [assumption | reflexivity]. }
    destruct Em as (M & BM & ->).
    destruct (of_int_val M) as (mm & em & Nm & _); [lia | ].
    apply (nonpos_leb _ _ ms es); [ | assumption].
    apply (div_nonpos _ _ mm em); [ | assumption].
    now apply (sub_nonpos _ _ mt ms et es).
Qed.

Lemma goal_reached_witness :
  gp_percentComplete
    (goalBlock sample_format (sample_goal 1000%float (1700000000000 + 90 * 86400000))
       1500%float 1700000000000) = 100%float /\
  onTrack
    (goalBlock sample_format (sample_goal 1000%float (1700000000000 + 90 * 86400000))
       1500%float 1700000000000) = true.
Proof.
  apply (goal_reached sample_format
           (sample_goal 1000%float (1700000000000 + 90 * 86400000)) 1500%float
           1700000000000); try reflexivity;
    try (unfold valid_time, max_time; cbn; lia).
Defined.

End Reached.


(** * The pages of the expense table *)

Module Paging.
Import F64 F64Facts F64Grid F64Int F64Quot Pacing Percent JSData ExpenseTable.

Local Open Scope Z_scope.

(** A product of whole numbers below [2^53] is computed exactly. *)
Lemma mul_of_int (a b : Z) :
  0 < a -> 0 < b -> a * b < 2 ^ 53 ->
  (JS.of_int a * JS.of_int b)%float = JS.of_int (a * b).
Proof.
  intros Ha Hb Hp.
  assert (Ha' : 0 < a < 2 ^ 53) by nia.
  assert (Hb' : 0 < b < 2 ^ 53) by nia.
  assert (Hp' : 0 < a * b < 2 ^ 53) by nia.
  destruct (of_int_mantissa _ Ha') as (ma & ea & [Ea Sa] & Bea & Ma).
  destruct (of_int_mantissa _ Hb') as (mb & eb & [Eb Sb] & Beb & Mb).
  destruct (of_int_mantissa _ Hp') as (mp & ep & [Ep Sp] & Bep & Mp).
  apply Prim2SF_inj. rewrite mul_spec, Ea, Eb, Ep. unfold SF64mul, SFmul. cbn [xorb].
  pose proof (size_53_bounds ma Sa) as Ba. pose proof (size_53_bounds mb Sb) as Bb.
  pose proof (size_53_bounds mp Sp) as Bp.
  set (n := ep - ea - eb).
  assert (Hn : 0 <= n).
  { destruct (Z.le_gt_cases 0 n) as [G | G]; [assumption | exfalso].
    assert (E1 : 2 ^ (- ep) = 2 ^ (- ea - eb) * 2 ^ (- n)).
    { rewrite <- Z.pow_add_r by lia. f_equal. unfold n. lia. }
    assert (P1 : 2 <= 2 ^ (- n)).
    { change 2 with (2 ^ 1) at 1. apply Z.pow_le_mono_r; lia. }
    assert (E2 : Zpos ma * Zpos mb = a * b * 2 ^ (- ea - eb)).
    { rewrite Ma, Mb. replace (- ea - eb) with (- ea + - eb) by lia.
      rewrite Z.pow_add_r by lia. ring. }
    assert (P2 : 0 < 2 ^ (- ea - eb)) by (apply Z.pow_pos_nonneg; lia).
    assert (2 ^ 52 * 2 ^ 52 <= Zpos ma * Zpos mb) by nia.
    assert (Zpos mp = a * b * 2 ^ (- ea - eb) * 2 ^ (- n)) by (rewrite Mp, E1; ring).
    assert (H52 : 2 ^ 53 < 2 ^ 52 * 2 ^ 52) by reflexivity.
    nia. }
  replace (ep) with (ea + eb + n) by (unfold n; lia).
  apply binary_round_aux_exact; try assumption; [ | unfold n; lia].
  rewrite Pos2Z.inj_mul, Ma, Mb, Mp.
  assert (E : 2 ^ (- ea) * 2 ^ (- eb) = 2 ^ (- ep) * 2 ^ n).
  { rewrite <- !Z.pow_add_r by lia. f_equal. unfold n. lia. }
  replace (a * 2 ^ (- ea) * (b * 2 ^ (- eb))) with (a * b * (2 ^ (- ea) * 2 ^ (- eb))) by ring.
  rewrite E. replace (ea + eb + n) with ep by (unfold n; lia). ring.
Qed.

(** [ToIntegerOrInfinity] on a whole number. *)
Lemma ToIntegerOrInfinity_of_int (k : Z) :
  0 <= k < 2 ^ 53 -> ToIntegerOrInfinity (JS.of_int k) = Finite k.
Proof.
  intro Hk. destruct (Z.eq_dec k 0) as [-> | N]; [reflexivity | ].
  destruct (of_int_mantissa k) as (m & e & [E S] & Be & M); [lia | ].
  unfold ToIntegerOrInfinity. rewrite E. f_equal.
  destruct (Z.leb_spec 0 e) as [He | He].
  - assert (e = 0) by lia. subst e. rewrite Z.shiftl_0_r, M. cbn. lia.
  - unfold JS.int_part. rewrite Z.shiftr_div_pow2 by lia. rewrite M.
    apply Z.div_mul. apply Z.pow_nonzero; lia.
Qed.

(** [Math.ceil] of a quotient of whole numbers. *)
Lemma ceil_div (d D : Z) :
  0 < d <= 2 ^ 50 -> 0 < D < 2 ^ 53 ->
  JS.Math_ceil (JS.of_int d / JS.of_int D)%float = JS.of_int ((d + D - 1) / D).
Proof.
  intros Hd HD.
  destruct (div_int d D Hd HD) as (m & e & N & B & I1 & I2).
  pose proof (Z_div_mod_eq_full d D) as Dv.
  pose proof (Z.mod_pos_bound d D ltac:(lia)) as Br.
  assert (Bq : 0 <= d / D <= 2 ^ 50).
  { split; [apply Z.div_pos; lia | ].
    apply Z.le_trans with d; [ | lia]. apply Z.div_le_upper_bound; nia. }
  assert (P53 : 2 ^ 50 + 1 < 2 ^ 53) by reflexivity.
  destruct (Z.eq_dec (d mod D) 0) as [R | R].
  - assert (Q : (d + D - 1) / D = d / D).
    { symmetry. apply Z.div_unique with (D - 1); [lia | ]. rewrite R in Dv. lia. }
    rewrite Q. assert (0 < d / D) by (rewrite R in Dv; nia).
    apply (Math_ceil_val _ m e (d / D)); [assumption | rewrite (I1 R); lra | lia].
  - assert (Q : (d + D - 1) / D = d / D + 1).
    { symmetry. apply Z.div_unique with (d mod D - 1); [lia | ]. lia. }
    rewrite Q.
    apply (Math_ceil_val _ m e (d / D + 1));
      [assumption | specialize (I2 R); rewrite plus_IZR; lra | lia].
Qed.

(** The two indexes of the page [p >= 1]. *)
Lemma page_indexes (p : Z) :
  1 <= p <= 2 ^ 50 ->
  startIndex (JS.of_int p) = JS.of_int (5 * (p - 1)) /\
  endIndex (JS.of_int p) = JS.of_int (5 * (p - 1) + 5).
Proof.
  intro Hp. assert (P53 : 5 * 2 ^ 50 + 5 < 2 ^ 53) by reflexivity.
  assert (S1 : startIndex (JS.of_int p) = JS.of_int (5 * (p - 1))).
  { unfold startIndex, pageSize. change 1%float with (JS.of_int 1).
    rewrite sub_of_int by (unfold safe; lia).
    destruct (Z.eq_dec p 1) as [-> | N]; [reflexivity | ].
    change 5%float with (JS.of_int 5). rewrite mul_of_int by lia.
    f_equal. lia. }
  split; [exact S1 | ]. unfold endIndex, pageSize. rewrite S1.
  change 5%float with (JS.of_int 5). apply add_of_int; unfold safe; lia.
Qed.

(** ** Lists cut into pages *)

Section Pages.
Context {A : Type}.

Lemma firstn_short (n : nat) (l : list A) :
  firstn (Nat.min n (List.length l)) l = firstn n l.
Proof.
  destruct (Nat.le_ge_cases n (List.length l)) as [H | H].
  - now rewrite Nat.min_l.
  - rewrite Nat.min_r by assumption. now rewrite !firstn_all2 by lia.
Qed.

(** [slice] between two whole indexes five apart. *)
Lemma slice_page (l : list A) (k : Z) :
  0 <= k -> k + 5 < 2 ^ 53 ->
  Array_slice l (JS.of_int k) (JS.of_int (k + 5)) = firstn 5 (skipn (Z.to_nat k) l).
Proof.
  intros Hk Hb. unfold Array_slice.
  rewrite !ToIntegerOrInfinity_of_int by lia. cbn [relative_index].
  replace (k <? 0) with false by (symmetry; apply Z.ltb_ge; lia).
  replace (k + 5 <? 0) with false by (symmetry; apply Z.ltb_ge; lia).
  set (len := Z.of_nat (List.length l)).
  destruct (Z.le_gt_cases len k) as [G | G].
  - rewrite !Z.min_r by lia. rewrite !skipn_all2 by (unfold len in *; lia).
    now rewrite !firstn_nil.
  - rewrite (Z.min_l k len) by lia.
    rewrite <- (firstn_short 5 (skipn (Z.to_nat k) l)). f_equal.
    rewrite length_skipn. unfold len in *. lia.
Qed.

Lemma pages_concat (k : nat) :
  forall l : list A,
    (List.length l <= 5 * k)%nat ->
    List.concat (map (fun p => firstn 5 (skipn (5 * (p - 1)) l)) (seq 1 k)) = l.
Proof.
  induction k as [ | k IH]; intros l Hl.
  - destruct l; [reflexivity | cbn in Hl; lia].
  - cbn [seq map List.concat]. rewrite <- seq_shift, map_map.
    change (5 * (1 - 1))%nat with 0%nat. cbn [skipn].
    transitivity (firstn 5 l ++ skipn 5 l); [ | apply firstn_skipn]. f_equal.
    rewrite <- (IH (skipn 5 l)) by (rewrite length_skipn; lia).
    f_equal. apply map_ext_in. intros p Hp. apply in_seq in Hp.
    rewrite skipn_skipn. f_equal. f_equal. lia.
Qed.

End Pages.

(** The table shows the expenses five to a page: with [n] expenses there
    are [ceil (n / 5)] pages, page [p] holds the five (on the last page,
    up to five) expenses from the [5 (p - 1)]-th on, the pages one after
    the other are the whole list, and no page up to the last is empty. A
    page number past the last one, as is left after the only expense of
    the last page is deleted, shows no expense. *)
Theorem pages_partition (expenses : list Expense) :
  Z.of_nat (List.length expenses) <= 2 ^ 50 ->
  let pages := (Z.of_nat (List.length expenses) + 4) / 5 in
  totalPages (Some expenses) = JS.of_int pages /\
  (forall p, 1 <= p <= 2 ^ 50 ->
     currentExpenses (Some expenses) (JS.of_int p) =
     firstn 5 (skipn (5 * Z.to_nat (p - 1)) expenses)) /\
  List.concat (map (fun p => currentExpenses (Some expenses) (JS.of_int (Z.of_nat p)))
            (seq 1 (Z.to_nat pages))) = expenses /\
  (forall p, 1 <= p <= pages -> currentExpenses (Some expenses) (JS.of_int p) <> []) /\
  (forall p, pages < p <= 2 ^ 50 -> currentExpenses (Some expenses) (JS.of_int p) = []) /\
  totalPages None = 0%float /\
  (forall page, currentExpenses None page = []).
Proof.
  intro Hn. cbv zeta. set (n := Z.of_nat (List.length expenses)) in *.
  pose proof (Z_div_mod_eq_full (n + 4) 5) as Dv.
  pose proof (Z.mod_pos_bound (n + 4) 5 ltac:(lia)) as Br.
  set (pages := (n + 4) / 5) in *.
  assert (Bp : 0 <= pages <= n) by (unfold n in *; lia).
  assert (Cur : forall p, 1 <= p <= 2 ^ 50 ->
            currentExpenses (Some expenses) (JS.of_int p) =
            firstn 5 (skipn (5 * Z.to_nat (p - 1)) expenses)).
  { intros p Hp. unfold currentExpenses.
    destruct (page_indexes p Hp) as [-> ->].
    assert (P53 : 5 * 2 ^ 50 + 5 < 2 ^ 53) by reflexivity.
    rewrite slice_page by lia. f_equal. f_equal. lia. }
  split; [ | split; [exact Cur | split; [ | split; [ | split; [ | split]]]]].
  - unfold totalPages, totalItems. fold n.
    assert (P53 : 2 ^ 50 < 2 ^ 53) by reflexivity.
    rewrite or_else_of_int by (unfold safe, n in *; lia).
    destruct (Z.eq_dec n 0) as [E | E].
    + unfold pages. rewrite E. reflexivity.
    + unfold pageSize. change 5%float with (JS.of_int 5).
      rewrite ceil_div by (try lia; split; reflexivity).
      f_equal. unfold pages. f_equal. lia.
  - transitivity (List.concat
                    (map (fun p => firstn 5 (skipn (5 * (p - 1)) expenses))
                       (seq 1 (Z.to_nat pages))));
      [ | apply pages_concat; unfold n in *; lia].
    apply f_equal. apply map_ext_in. intros p Hp. apply in_seq in Hp.
    rewrite Cur by lia. f_equal. f_equal. lia.
  - intros p Hp. rewrite Cur by lia. intro E.
    apply (f_equal (@List.length Expense)) in E.
    rewrite length_firstn, length_skipn in E. cbn [List.length] in E.
    unfold n in *. lia.
  - intros p Hp. rewrite Cur by lia.
    rewrite skipn_all2 by (unfold n in *; lia). reflexivity.
  - reflexivity.
  - reflexivity.
Qed.

Lemma pages_partition_witness :
  totalPages (Some (repeat (sample_expense Food 10%float) 7)) = JS.of_int 2 /\
  currentExpenses (Some (repeat (sample_expense Food 10%float) 7)) (JS.of_int 2) =
    repeat (sample_expense Food 10%float) 2 /\
  currentExpenses (Some (repeat (sample_expense Food 10%float) 7)) (JS.of_int 3) = [].
Proof.
  destruct (pages_partition (repeat (sample_expense Food 10%float) 7))
    as (T & C & _ & _ & E & _); [cbn; lia | ].
  split; [exact T | ]. split; [apply (C 2); lia | apply (E 3)].
  split; [reflexivity | lia].
Defined.

End Paging.

(** * The digit groups of [formatCurrency] *)

Module FormatFacts.
Import Schema JSString CurrencyFormat.

Local Open Scope string_scope.

Lemma append_nil_r (s : string) : s ++ "" = s.
Proof. induction s as [ | c s IH]; cbn; [reflexivity | now rewrite IH]. Qed.

Lemma append_assoc (s t u : string) : (s ++ t) ++ u = s ++ t ++ u.
Proof. induction s as [ | c s IH]; cbn; [reflexivity | now rewrite IH]. Qed.

Lemma length_append (s t : string) :
  String.length (s ++ t) = (String.length s + String.length t)%nat.
Proof. induction s as [ | c s IH]; cbn; [reflexivity | now rewrite IH]. Qed.

Lemma all_digits_append (s t : string) :
  all_digits (s ++ t) = all_digits s && all_digits t.
Proof.
  induction s as [ | c s IH]; cbn; [reflexivity | ].
  now rewrite IH, andb_assoc.
Qed.

Lemma is_digit_word (c : ascii) : is_digit c = true -> is_word c = true.
Proof. intro H. unfold is_word. now rewrite H. Qed.

Lemma leading_digits_append (ds t : string) :
  all_digits ds = true ->
  leading_digits (ds ++ t) = (String.length ds + leading_digits t)%nat.
Proof.
  induction ds as [ | c ds IH]; cbn; [reflexivity | ].
  intro H. apply andb_prop in H as [Hc Hd]. rewrite Hc. now rewrite IH.
Qed.

(** The decimal digits of a number are digits, and there is one at least. *)
Lemma string_of_uint_digits (d : Decimal.uint) :
  all_digits (NilEmpty.string_of_uint d) = true.
Proof. induction d; cbn; assumption || reflexivity. Qed.

Lemma decimal_digits (n : Z) :
  all_digits (decimal n) = true /\ (1 <= String.length (decimal n))%nat.
Proof.
  unfold decimal, NilZero.string_of_uint.
  destruct (N.to_uint (Z.to_N n)) as [ | d | d | d | d | d | d | d | d | d | d ];
    (split; [try reflexivity; apply (string_of_uint_digits (_ d)) | cbn; lia])
    || (split; [reflexivity | cbn; lia]).
Qed.

Lemma digit_is_digit (k : Z) : (0 <= k <= 9)%Z -> is_digit (digit k) = true.
Proof.
  intro H. unfold is_digit, digit. rewrite nat_ascii_embedding by lia.
  apply andb_true_intro. split; apply Nat.leb_le; lia.
Qed.

(** ** Where the commas go *)

Lemma mod3 (k j : nat) : (j < 3)%nat -> ((3 * k + j) mod 3 = j)%nat.
Proof.
  intro H. rewrite Nat.add_comm, Nat.mul_comm, Nat.Div0.mod_add.
  now apply Nat.mod_small.
Qed.

(** One position before a digit: a comma where a word character stands
    before it and the digits from it on are a multiple of three. *)
Lemma replace_digit (prev : option ascii) (c : ascii) (ds t : string) :
  is_digit c = true -> all_digits ds = true -> leading_digits t = 0%nat ->
  replace_from prev (String c (ds ++ t)) =
  (if word_before prev && (S (String.length ds) mod 3 =? 0)%nat then "," else "") ++
  String c (replace_from (Some c) (ds ++ t)).
Proof.
  intros Hc Hd Ht. cbn [replace_from word_at]. rewrite (is_digit_word c Hc).
  unfold groups_ahead. cbn [leading_digits]. rewrite Hc.
  rewrite (leading_digits_append ds t Hd), Ht, Nat.add_0_r.
  replace (Bool.eqb (word_before prev) true) with (word_before prev)
    by (now destruct (word_before prev)).
  destruct (S (String.length ds) mod 3 =? 0)%nat eqn:E.
  - apply Nat.eqb_eq in E.
    assert (L : (3 <=? S (String.length ds))%nat = true).
    { apply Nat.leb_le. destruct (String.length ds) as [ | [ | n]]; [discriminate .. | lia]. }
    rewrite L. reflexivity.
  - now rewrite andb_false_r.
Qed.

(** A string of [3 k] digits after a word character is cut into [k]
    groups of three, a comma before each. *)
Lemma replace_groups (k : nat) :
  forall (p : ascii) (r t : string),
    is_word p = true -> all_digits r = true -> String.length r = (3 * k)%nat ->
    leading_digits t = 0%nat ->
    exists (groups : list string) (last : ascii),
      replace_from (Some p) (r ++ t) = with_commas groups ++ replace_from (Some last) t /\
      concat "" groups = r /\
      Forall (fun g => String.length g = 3%nat) groups /\
      is_word last = true.
Proof.
  induction k as [ | k IH]; intros p r t Hp Hr Hl Ht.
  - destruct r; [ | discriminate]. exists [], p. cbn. auto.
  - destruct r as [ | a [ | b [ | c r]]]; try (cbn in Hl; lia).
    cbn [all_digits] in Hr. apply andb_prop in Hr as [Ha Hr]. apply andb_prop in Hr as [Hb Hr].
    apply andb_prop in Hr as [Hc Hr].
    assert (Lr : String.length r = (3 * k)%nat) by (cbn in Hl; lia).
    destruct (IH c r t (is_digit_word c Hc) Hr Lr Ht) as (groups & last & E & C & F & W).
    exists (String a (String b (String c "")) :: groups), last.
    split; [ | split; [ | split]].
    + change (String a (String b (String c r)) ++ t)
        with (String a (String b (String c r) ++ t)).
      rewrite (replace_digit (Some p) a (String b (String c r)) t Ha) by
        (first [exact Ht | cbn [all_digits]; rewrite ?Hb, ?Hc; exact Hr]).
      change (String b (String c r) ++ t) with (String b (String c r ++ t)).
      rewrite (replace_digit (Some a) b (String c r) t Hb) by
        (first [exact Ht | cbn [all_digits]; rewrite ?Hb, ?Hc; exact Hr]).
      change (String c r ++ t) with (String c (r ++ t)).
      rewrite (replace_digit (Some b) c r t Hc) by assumption.
      cbn [String.length word_before]. rewrite Hp, Lr, E.
      replace (S (S (S (3 * k)))) with (3 * (k + 1) + 0)%nat by lia.
      replace (S (S (3 * k))) with (3 * k + 2)%nat by lia.
      replace (S (3 * k)) with (3 * k + 1)%nat by lia.
      rewrite !mod3 by lia. rewrite !andb_false_r. cbn. reflexivity.
    + destruct groups as [ | g groups]; cbn in C |- *; [now subst r | ].
      now rewrite C.
    + constructor; [reflexivity | assumption].
    + assumption.
Qed.

(** The digits before the point: a first group of one to three digits and
    then groups of three. *)
Lemma split_head (ds : string) :
  (1 <= String.length ds)%nat ->
  exists (first r : string) (k : nat),
    ds = first ++ r /\ (1 <= String.length first <= 3)%nat /\
    String.length r = (3 * k)%nat.
Proof.
  induction ds as [ | c ds IH]; cbn; [lia | intros _].
  destruct ds as [ | c' ds'].
  - exists (String c ""), "", 0%nat. cbn. repeat split; lia.
  - destruct IH as (first & r & k & E & B & L); [cbn; lia | ].
    destruct (Nat.eq_dec (String.length first) 3) as [F | F].
    + exists (String c ""), (first ++ r), (S k). cbn [append]. rewrite E.
      split; [reflexivity | ]. split; [cbn; lia | ].
      rewrite length_append. lia.
    + exists (String c first), r, k. cbn [append String.length]. rewrite E.
      split; [reflexivity | ]. split; [lia | assumption].
Qed.

Lemma replace_head (prev : option ascii) (first r t : string) (k : nat) :
  word_before prev = false -> all_digits (first ++ r) = true ->
  (1 <= String.length first <= 3)%nat -> String.length r = (3 * k)%nat ->
  leading_digits t = 0%nat ->
  exists (groups : list string) (last : ascii),
    replace_from prev ((first ++ r) ++ t) =
      first ++ with_commas groups ++ replace_from (Some last) t /\
    concat "" groups = r /\
    Forall (fun g => String.length g = 3%nat) groups.
Proof.
  intros Hp Hd Hf Lr Ht. rewrite all_digits_append in Hd.
  apply andb_prop in Hd as [Hfd Hr].
  destruct first as [ | a [ | b [ | c [ | ]]]]; try (cbn in Hf; lia).
  - (* one digit *)
    cbn [all_digits] in Hfd. rewrite andb_true_r in Hfd.
    destruct (replace_groups k a r t (is_digit_word a Hfd) Hr Lr Ht)
      as (groups & last & E & C & F & _).
    exists groups, last. split; [ | split; assumption].
    cbn [append]. rewrite (replace_digit prev a r t Hfd Hr Ht), Hp, E. reflexivity.
  - (* two digits *)
    cbn [all_digits] in Hfd. rewrite andb_true_r in Hfd. apply andb_prop in Hfd as [Ha Hb].
    destruct (replace_groups k b r t (is_digit_word b Hb) Hr Lr Ht)
      as (groups & last & E & C & F & _).
    exists groups, last. split; [ | split; assumption].
    cbn [append].
    change (String b (r ++ t)) with (String b r ++ t).
    rewrite (replace_digit prev a (String b r) t Ha) by (first [exact Ht | cbn [all_digits]; rewrite ?Hb, ?Hc; exact Hr]).
    cbn [append]. rewrite (replace_digit (Some a) b r t Hb Hr Ht), Hp, E, Lr.
    replace (S (3 * k)) with (3 * k + 1)%nat by lia. rewrite mod3 by lia.
    rewrite andb_false_r. reflexivity.
  - (* three digits *)
    cbn [all_digits] in Hfd. rewrite andb_true_r in Hfd. apply andb_prop in Hfd as [Ha Hb].
    apply andb_prop in Hb as [Hb Hc].
    destruct (replace_groups k c r t (is_digit_word c Hc) Hr Lr Ht)
      as (groups & last & E & C & F & _).
    exists groups, last. split; [ | split; assumption].
    cbn [append].
    change (String b (String c (r ++ t))) with (String b (String c r) ++ t).
    rewrite (replace_digit prev a (String b (String c r)) t Ha)
      by (first [exact Ht | cbn [all_digits]; rewrite ?Hb, ?Hc; exact Hr]).
    cbn [append]. change (String c (r ++ t)) with (String c r ++ t).
    rewrite (replace_digit (Some a) b (String c r) t Hb) by (first [exact Ht | cbn [all_digits]; rewrite ?Hb, ?Hc; exact Hr]).
    cbn [append]. rewrite (replace_digit (Some b) c r t Hc Hr Ht), Hp, E.
    cbn [String.length]. rewrite Lr.
    replace (S (S (3 * k))) with (3 * k + 2)%nat by lia.
    replace (S (3 * k)) with (3 * k + 1)%nat by lia. rewrite !mod3 by lia.
    rewrite !andb_false_r. reflexivity.
Qed.

(** Nothing changes from the point on: fewer than three digits follow. *)
Lemma replace_fraction (prev : option ascii) (d1 d2 : ascii) :
  replace_from prev (String "." (String d1 (String d2 ""))) =
  String "." (String d1 (String d2 "")).
Proof.
  cbn [replace_from]. unfold groups_ahead. cbn [leading_digits].
  change (is_digit ".") with false. cbv iota.
  destruct (is_digit d1), (is_digit d2); cbn; rewrite ?andb_false_r; reflexivity.
Qed.

Lemma concat_commas (first : string) (groups : list string) :
  concat "," (first :: groups) = first ++ with_commas groups.
Proof.
  revert first. induction groups as [ | g groups IH]; intro first.
  - cbn. now rewrite append_nil_r.
  - change (concat "," (first :: g :: groups))
      with (first ++ "," ++ concat "," (g :: groups)).
    rewrite IH. reflexivity.
Qed.

Lemma concat_empty (first : string) (groups : list string) :
  concat "" (first :: groups) = first ++ concat "" groups.
Proof.
  destruct groups as [ | g groups]; [cbn; now rewrite append_nil_r | reflexivity].
Qed.

(** The comma pattern on a sign, digits, a point and two digits. *)
Lemma replace_thousands_number (s : bool) (ds : string) (d1 d2 : ascii) :
  all_digits ds = true -> (1 <= String.length ds)%nat ->
  exists (first : string) (rest : list string),
    replace_thousands (minus s ++ ds ++ String "." (String d1 (String d2 ""))) =
      minus s ++ concat "," (first :: rest) ++ String "." (String d1 (String d2 "")) /\
    concat "" (first :: rest) = ds /\
    (1 <= String.length first <= 3)%nat /\
    Forall (fun g => String.length g = 3%nat) rest.
Proof.
  intros Hd Hl.
  destruct (split_head ds Hl) as (first & r & k & E & B & L). subst ds.
  set (t := String "." (String d1 (String d2 ""))).
  assert (Ht : leading_digits t = 0%nat) by reflexivity.
  assert (R : forall prev, word_before prev = false ->
            exists rest,
              replace_from prev ((first ++ r) ++ t) = concat "," (first :: rest) ++ t /\
              concat "" (first :: rest) = first ++ r /\
              Forall (fun g => String.length g = 3%nat) rest).
  { intros prev Hp.
    destruct (replace_head prev first r t k Hp Hd B L Ht) as (rest & last & H1 & H2 & H3).
    exists rest. split; [ | split; [ | assumption]].
    - rewrite H1, concat_commas, append_assoc. unfold t.
      now rewrite replace_fraction.
    - now rewrite concat_empty, H2. }
  unfold replace_thousands. rewrite <- append_assoc. destruct s; cbn [minus append].
  - destruct (R (Some "-"%char) eq_refl) as (rest & H1 & H2 & H3).
    exists first, rest. split; [ | split; [assumption | split; assumption]].
    cbn [replace_from word_before word_at]. unfold groups_ahead at 1.
    cbn [leading_digits]. change (is_digit "-") with false. cbv iota.
    rewrite andb_false_r. cbn [append]. now rewrite H1.
  - destruct (R None eq_refl) as (rest & H1 & H2 & H3).
    exists first, rest. split; [ | split; [assumption | split; assumption]].
    exact H1.
Qed.

(** [formatCurrency] writes the symbol, the sign of a negative amount, the
    digits of the whole part in groups of three from the right with commas
    between them, a point and two digits: the first group has one to three
    digits, every other one three, and together they are the decimal
    digits of the whole part of the amount as [toFixed] rounds it. No
    comma stands after the sign, after the symbol or within the two digits
    after the point. Zero of either sign is written as [0.00] and [NaN] as
    [NaN], both without a comma. *)
Theorem formatCurrency_groups_of_three (ToString : JS.number -> string)
    (currency : Currency) :
  (forall (amount : JS.number) (s : bool) (m : positive) (e : Z),
     Prim2SF amount = S754_finite s m e -> (1e21 <=? abs amount)%float = false ->
     exists (first : string) (rest : list string),
       formatCurrency ToString amount (Some currency) =
         symbol currency ++ minus s ++ concat "," (first :: rest) ++ "." ++
         two_digits (JS.hundredths m e mod 100) /\
       concat "" (first :: rest) = decimal (JS.hundredths m e / 100) /\
       (1 <= String.length first <= 3)%nat /\
       Forall (fun g => String.length g = 3%nat) rest /\
       all_digits (decimal (JS.hundredths m e / 100)) = true /\
       all_digits (two_digits (JS.hundredths m e mod 100)) = true) /\
  (forall (amount : JS.number) (s : bool),
     Prim2SF amount = S754_zero s ->
     formatCurrency ToString amount (Some currency) = symbol currency ++ "0.00") /\
  formatCurrency ToString nan (Some currency) = symbol currency ++ "NaN" /\
  formatCurrency ToString 1234567.891%float None = "$1,234,567.89" /\
  formatCurrency ToString (-1234.5)%float (Some LKR) = "Rs-1,234.50".
Proof.
  split; [ | split; [ | split; [ | split]]].
  - intros amount s m e E B. unfold formatCurrency, toFixed2. rewrite E, B.
    destruct (decimal_digits (JS.hundredths m e / 100)) as [Hd Hl].
    destruct (replace_thousands_number s (decimal (JS.hundredths m e / 100))
                (digit (JS.hundredths m e mod 100 / 10))
                (digit (JS.hundredths m e mod 100 mod 10)) Hd Hl)
      as (first & rest & H1 & H2 & H3 & H4).
    exists first, rest. cbv zeta. unfold two_digits.
    change ("." ++ String (digit (JS.hundredths m e mod 100 / 10))
                     (String (digit (JS.hundredths m e mod 100 mod 10)) ""))
      with (String "." (String (digit (JS.hundredths m e mod 100 / 10))
                          (String (digit (JS.hundredths m e mod 100 mod 10)) ""))).
    rewrite H1. split; [reflexivity | ]. split; [assumption | ].
    split; [assumption | ]. split; [assumption | ]. split; [assumption | ].
    pose proof (Z.mod_pos_bound (JS.hundredths m e) 100 ltac:(lia)) as Br.
    cbn [all_digits]. rewrite !digit_is_digit; [reflexivity | | ].
    + pose proof (Z.mod_pos_bound (JS.hundredths m e mod 100) 10 ltac:(lia)). lia.
    + split; [apply Z.div_pos; lia | ].
      apply Z.lt_succ_r. apply Z.div_lt_upper_bound; lia.
  - intros amount s E. unfold formatCurrency, toFixed2. now rewrite E.
  - reflexivity.
  - reflexivity.
  - reflexivity.
Qed.

Lemma formatCurrency_groups_of_three_witness :
  exists (first : string) (rest : list string),
    formatCurrency sample_ToString 1234567.891%float (Some USD) =
      "$" ++ concat "," (first :: rest) ++ ".89" /\
    concat "" (first :: rest) = "1234567" /\
    (1 <= String.length first <= 3)%nat /\
    Forall (fun g => String.length g = 3%nat) rest.
Proof.
  destruct (formatCurrency_groups_of_three sample_ToString USD) as [H _].
  destruct (H 1234567.891%float false 5302428716536693%positive (-32)%Z eq_refl eq_refl)
    as (first & rest & H1 & H2 & H3 & H4 & _).
  exists first, rest. split; [exact H1 | ]. split; [exact H2 | ].
  split; [exact H3 | exact H4].
Defined.

End FormatFacts.
